(** * QYNTRA: multi-provider streaming orchestration core

    A shallow embedding of the credential rotation utility
    ([services/apiKeyRotation.ts]), of the three provider adapters
    ([services/geminiService.ts], [services/groqService.ts],
    [services/openRouterService.ts]) and of the provider factory
    ([services/aiProviderFactory.ts]), with the properties the design
    document states about them.

    Conventions of the embedding.
    - JavaScript numbers that hold times and counters are [Z]; array
      indices are [nat].
    - [undefined] is [None]; truthiness tests are written out
      ([num_truthy], [str_truthy], [opt_str_truthy]).
    - A JavaScript string is the [string] of the bytes of its UTF-8
      encoding.
    - [Date.now()] is an injectable clock [Date_now : nat -> Z]: the
      [n]-th reading made by the program returns [Date_now n]; the number
      of readings made so far is threaded through every operation.
    - A thrown value is a [JsError]; fallible code returns a
      [completion].
    - An async generator that is drained by its consumer is the list of
      the chunks it yields together with the way it ends. *)

From Stdlib Require Import ZArith String Ascii List Bool Lia QArith.
From stdpp Require Import gmap list strings functions.
Import ListNotations.

Local Open Scope string_scope.
Local Open Scope list_scope.
Local Open Scope nat_scope.

(** ** JavaScript values used by the code *)

Module Js.

(** What [catch (error: any)] observes of a thrown value:
    [error.message] and [error.toString()]. *)
Record JsError := mkJsError { message : option string; toString : string }.

Inductive completion (A : Type) : Type :=
| Normal (a : A)
| Throw (e : JsError).
Arguments Normal {A} a.
Arguments Throw {A} e.

(** [new Error(msg)]; [Error.prototype.toString] gives the name alone for
    an empty message. *)
Definition new_Error (msg : string) : JsError :=
  {| message := Some msg;
     toString := if String.eqb msg "" then "Error" else String.append "Error: " msg |}.

(** The [TypeError] raised on a property access on [undefined]. *)
Definition TypeError_undefined (prop : string) : JsError :=
  let msg := String.append "Cannot read properties of undefined (reading '"
               (String.append prop "')") in
  {| message := Some msg; toString := String.append "TypeError: " msg |}.

Definition num_truthy (z : Z) : bool := negb (z =? 0)%Z.
Definition str_truthy (s : string) : bool := negb (String.eqb s "").
Definition opt_str_truthy (s : option string) : bool :=
  match s with Some s => str_truthy s | None => false end.

(** [a || b] on strings / possibly undefined strings. *)
Definition str_or (a : option string) (b : string) : string :=
  match a with
  | Some s => if str_truthy s then s else b
  | None => b
  end.

(** [hay.includes(needle)] *)
Fixpoint includes (hay needle : string) : bool :=
  String.prefix needle hay ||
  match hay with
  | EmptyString => false
  | String _ rest => includes rest needle
  end.

(** [arr.indexOf(x)]: first position holding [x], [None] for -1. *)
Fixpoint indexOf (arr : list string) (x : string) : option nat :=
  match arr with
  | [] => None
  | y :: rest => if String.eqb y x then Some 0
                 else option_map S (indexOf rest x)
  end.

End Js.
Import Js.

(** ** services/apiKeyRotation.ts *)

Module ApiKeyRotation.

Record KeyStatus := mkKeyStatus {
  index : nat;
  failedAt : option Z;
  failureCount : Z
}.

(** The fields of the class; [COOLDOWN_MS] and [MAX_FAILURES] are
    read-only constants. *)
Record t := mk {
  keys : list string;
  currentIndex : nat;
  keyStatuses : gmap nat KeyStatus
}.

Definition COOLDOWN_MS : Z := 60000.
Definition MAX_FAILURES : Z := 3.

Definition set_currentIndex (i : nat) (this : t) : t :=
  {| keys := keys this; currentIndex := i; keyStatuses := keyStatuses this |}.

Definition set_keyStatus (i : nat) (s : KeyStatus) (this : t) : t :=
  {| keys := keys this; currentIndex := currentIndex this;
     keyStatuses := <[i := s]> (keyStatuses this) |}.

(** [this.currentIndex = (this.currentIndex + 1) % this.keys.length] *)
Definition advance (this : t) : t :=
  set_currentIndex ((currentIndex this + 1) mod length (keys this)) this.

(** *** constructor *)

(** The white space and line terminator characters of ECMAScript, by
    the length of their encoding.  One byte: TAB, LF, VT, FF, CR, SP. *)
Definition is_space (c : ascii) : bool :=
  let n := nat_of_ascii c in
  (n =? 32)%nat || ((9 <=? n)%nat && (n <=? 13)%nat).

(** U+00A0, encoded C2 A0. *)
Definition is_space2 (c1 c2 : ascii) : bool :=
  (nat_of_ascii c1 =? 194)%nat && (nat_of_ascii c2 =? 160)%nat.

(** U+1680 (E1 9A 80); U+2000 to U+200A, U+2028, U+2029, U+202F
    (E2 80 80 to 8A, A8, A9, AF); U+205F (E2 81 9F); U+3000 (E3 80 80);
    U+FEFF (EF BB BF). *)
Definition is_space3 (c1 c2 c3 : ascii) : bool :=
  let n1 := nat_of_ascii c1 in
  let n2 := nat_of_ascii c2 in
  let n3 := nat_of_ascii c3 in
  ((n1 =? 225)%nat && (n2 =? 154)%nat && (n3 =? 128)%nat)
  || ((n1 =? 226)%nat && (n2 =? 128)%nat &&
      (((128 <=? n3)%nat && (n3 <=? 138)%nat)
       || (n3 =? 168)%nat || (n3 =? 169)%nat || (n3 =? 175)%nat))
  || ((n1 =? 226)%nat && (n2 =? 129)%nat && (n3 =? 159)%nat)
  || ((n1 =? 227)%nat && (n2 =? 128)%nat && (n3 =? 128)%nat)
  || ((n1 =? 239)%nat && (n2 =? 187)%nat && (n3 =? 191)%nat).

(** The string without the white space characters it starts with. *)
Fixpoint trim_start (s : string) : string :=
  match s with
  | EmptyString => EmptyString
  | String c1 rest1 =>
      if is_space c1 then trim_start rest1
      else
        match rest1 with
        | EmptyString => s
        | String c2 rest2 =>
            if is_space2 c1 c2 then trim_start rest2
            else
              match rest2 with
              | EmptyString => s
              | String c3 rest3 =>
                  if is_space3 c1 c2 c3 then trim_start rest3 else s
              end
        end
  end.

(** The string is made of white space characters only. *)
Fixpoint all_space (s : string) : bool :=
  match s with
  | EmptyString => true
  | String c1 rest1 =>
      if is_space c1 then all_space rest1
      else
        match rest1 with
        | EmptyString => false
        | String c2 rest2 =>
            if is_space2 c1 c2 then all_space rest2
            else
              match rest2 with
              | EmptyString => false
              | String c3 rest3 =>
                  if is_space3 c1 c2 c3 then all_space rest3 else false
              end
        end
  end.

(** The string without the white space characters it ends with. *)
Fixpoint trim_end (s : string) : string :=
  match s with
  | EmptyString => EmptyString
  | String c rest => if all_space s then EmptyString else String c (trim_end rest)
  end.

(** [key.trim()]: the white space and line terminator characters of
    ECMAScript are removed at both ends. *)
Definition trim (s : string) : string := trim_end (trim_start s).

(** [s.split(',')], with the piece being read in [cur] (reversed). *)
Fixpoint split_comma_aux (s : string) (cur : string) : list string :=
  match s with
  | EmptyString => [cur]
  | String c rest =>
      if Ascii.eqb c ","%char then cur :: split_comma_aux rest EmptyString
      else split_comma_aux rest (String.append cur (String c EmptyString))
  end.

Definition split_comma (s : string) : list string := split_comma_aux s EmptyString.

Fixpoint init_statuses (n : nat) : gmap nat KeyStatus :=
  match n with
  | O => ∅
  | S n' => <[n' := {| index := n'; failedAt := None; failureCount := 0 |}]>
              (init_statuses n')
  end.

(** [new ApiKeyRotation(apiKeys)], [apiKeys : string | string[]]. *)
Definition constructor (apiKeys : string + list string) : t :=
  let keys0 :=
    match apiKeys with
    | inl s => List.filter (fun key => (0 <? String.length key)%nat)
                 (map trim (split_comma s))
    | inr l => l
    end in
  let keys1 :=
    match keys0 with
    | [] => ["NO_API_KEY_PROVIDED"]
    | _ => keys0
    end in
  {| keys := keys1; currentIndex := 0;
     keyStatuses := init_statuses (length keys1) |}.

(** *** resetKey *)

Definition resetKey (idx : nat) (this : t) : t :=
  match keyStatuses this !! idx with
  | Some status =>
      set_keyStatus idx
        {| index := index status; failedAt := None; failureCount := 0 |} this
  | None => this
  end.

Section WithClock.

Variable Date_now : nat -> Z.

(** *** getNextKey

    [remaining] is [this.keys.length - attempts]; the loop ends when it
    reaches 0.  The result carries the object after the call and the
    number of clock readings made.  [status] is the object stored in the
    map, so what [resetKey] writes is what the quarantine test reads: the
    status is looked up again after the reset. *)
Fixpoint getNextKey_loop (remaining startIndex : nat) (this : t) (tick : nat)
  : completion (option string) * t * nat :=
  match remaining with
  | O => (Normal (keys this !! startIndex), this, tick)
  | S remaining' =>
      (* from "Check if key has exceeded max failures" on *)
      let check_failures (this1 : t) (tick1 : nat) :=
        match keyStatuses this1 !! currentIndex this1 with
        | None => (Throw (TypeError_undefined "failureCount"), this1, tick1)
        | Some status1 =>
            if (MAX_FAILURES <=? failureCount status1)%Z then
              getNextKey_loop remaining' startIndex (advance this1) tick1
            else
              (Normal (keys this1 !! currentIndex this1), advance this1, tick1)
        end in
      match keyStatuses this !! currentIndex this with
      | None => (Throw (TypeError_undefined "failedAt"), this, tick)
      | Some status =>
          match failedAt status with
          | Some at_ =>
              if num_truthy at_ then
                let timeSinceFailure := (Date_now tick - at_)%Z in
                if (timeSinceFailure <? COOLDOWN_MS)%Z then
                  getNextKey_loop remaining' startIndex (advance this) (S tick)
                else
                  check_failures (resetKey (currentIndex this) this) (S tick)
              else check_failures this tick
          | None => check_failures this tick
          end
      end
  end.

Definition getNextKey (this : t) (tick : nat) : completion (option string) * t * nat :=
  getNextKey_loop (length (keys this)) (currentIndex this) this tick.

(** *** markKeyFailed *)

Definition markKeyFailed (key : option string) (this : t) (tick : nat)
  : completion unit * t * nat :=
  match key with
  | None => (Normal tt, this, tick)
  | Some k =>
      match indexOf (keys this) k with
      | None => (Normal tt, this, tick)
      | Some idx =>
          match keyStatuses this !! idx with
          | None => (Throw (TypeError_undefined "failureCount"), this, tick)
          | Some status =>
              let this1 :=
                set_keyStatus idx
                  {| index := index status;
                     failedAt := Some (Date_now tick);
                     failureCount := (failureCount status + 1)%Z |} this in
              let this2 :=
                if (currentIndex this1 =? idx)%nat then advance this1 else this1 in
              (Normal tt, this2, S tick)
          end
      end
  end.

(** *** getKeyCount *)

Definition getKeyCount (this : t) : nat := length (keys this).

(** *** getAvailableKeyCount

    [forEach] visits the entries of [keyStatuses] in insertion order,
    which the constructor makes 0, 1, ..., [keys.length - 1]; no other
    code inserts into the map.  The clock is read for an entry only when
    it is under [MAX_FAILURES] and has a truthy [failedAt]. *)
Definition count_status (acc : nat * nat) (status : KeyStatus) : nat * nat :=
  let '(count, tick) := acc in
  if (failureCount status <? MAX_FAILURES)%Z then
    match failedAt status with
    | Some at_ =>
        if num_truthy at_ then
          let timeSinceFailure := (Date_now tick - at_)%Z in
          if (COOLDOWN_MS <=? timeSinceFailure)%Z then (S count, S tick)
          else (count, S tick)
        else (S count, tick)
    | None => (S count, tick)
    end
  else (count, tick).

Definition getAvailableKeyCount (this : t) (tick : nat) : nat * nat :=
  fold_left
    (fun acc idx =>
       match keyStatuses this !! idx with
       | Some status => count_status acc status
       | None => acc
       end)
    (seq 0 (length (keys this))) (0, tick).

End WithClock.

End ApiKeyRotation.

(** ** types.ts *)

Module Types.

Inductive Role := RoleUser | RoleModel.

Record Attachment := mkAttachment { mimeType : string; data : string }.

Record WebSource := mkWebSource { uri : string; title : string }.

Record GroundingMetadata := mkGroundingMetadata {
  groundingChunks : list (option WebSource)
}.

Record Message := mkMessage {
  id : string;
  role : Role;
  content : string;
  timestamp : Z;
  isError : option bool;
  attachment : option Attachment;
  groundingMetadata : option GroundingMetadata
}.

Inductive AIProvider := GEMINI | GROQ.

Record ModelConfig := mkModelConfig {
  model : string;
  temperature : Q;
  topK : Z;
  topP : Q;
  maxTokens : option Z;
  thinkingBudget : Z;
  systemInstruction : option string;
  useSearch : option bool;
  provider : option AIProvider
}.

Definition set_model (m : string) (config : ModelConfig) : ModelConfig :=
  {| model := m; temperature := temperature config; topK := topK config;
     topP := topP config; maxTokens := maxTokens config;
     thinkingBudget := thinkingBudget config;
     systemInstruction := systemInstruction config;
     useSearch := useSearch config; provider := provider config |}.

(** What a provider adapter yields: [{ text: string; grounding?: GroundingMetadata }]. *)
Record Chunk := mkChunk { text : string; grounding : option GroundingMetadata }.

(** [process.env] *)
Record Env := mkEnv {
  GEMINI_API_KEY : option string;
  API_KEY : option string;
  GROQ_API_KEY : option string;
  OPENROUTER_API_KEY : option string
}.

Global Instance AIProvider_eq_dec : EqDecision AIProvider.
Proof. solve_decision. Defined.

End Types.

(** ** constants.ts *)

Definition DEFAULT_SYSTEM_INSTRUCTION : string := "
You are QYNTRA.

BRAND IDENTITY:
You are an intelligence engine, not a chatbot.
You exist to transform human intent into precise, working outcomes—especially code.

BRAND ARCHETYPE:
- The Architect – designs, reasons, builds
- The Strategist – deliberate, accurate, confident

BRAND PERSONALITY:
- Sharp, not flashy
- Calm, not loud
- Precise, not verbose
- Confident, not arrogant
- Built for builders

CORE VALUES:
1. Precision over verbosity
2. Reasoning before response
3. Developer empathy
4. Reliability at scale
5. No hype, only capability

HOW YOU OPERATE:
- Think step-by-step before responding
- Generate production-grade, secure code
- Explain complex concepts with clarity
- State assumptions when uncertain
- Focus on outcomes, not pleasantries

FORMATTING:
- Use Markdown
- Use strict code blocks with language identifiers
- Prioritize correctness and modern standards
- Keep responses focused and actionable

You are not here to chat. You are here to build.
".

(** ** The provider SDKs, as far as the adapters use them

    What an adapter hands to its SDK when it opens a stream is a
    [Request]; what comes back is a [Response]: the chunks the stream
    delivers and, when the call or the stream fails, the value thrown
    after them.  The upstream services are an oracle
    [network : nat -> Request -> Response], asked with the number of
    requests issued before this one. *)

Module Wire.

(** [@google/genai] *)
Inductive Part :=
| TextPart (text : string)
| InlineDataPart (mimeType data : string).

Record Content := mkContent { role : Types.Role; parts : list Part }.

Inductive Tool := GoogleSearch.

Record ChatCreateConfig := mkChatCreateConfig {
  temperature : Q;
  topK : Z;
  topP : Q;
  systemInstruction : string;
  thinkingConfig : option Z;
  tools : option (list Tool)
}.

(** A chat session made by [ai.chats.create], with the key of the client
    that made it. *)
Record Chat := mkChat {
  apiKey : option string;
  model : string;
  config : ChatCreateConfig;
  history : list Content
}.

(** [parts.length === 1 ? parts[0].text : parts] *)
Inductive MessagePayload :=
| PayloadText (text : string)
| PayloadParts (parts : list Part).

(** [groq-sdk] and [openai]: [chat.completions.create] *)
Inductive ChatRole := system | user | assistant.

(** The [content] of a chat message: a string, or an array of parts that
    can hold an image. *)
Inductive ChatContentPart :=
| ChatTextPart (text : string)
| ChatImagePart (url : string).

Inductive ChatContent :=
| TextContent (text : string)
| PartsContent (parts : list ChatContentPart).

Record ChatMessage := mkChatMessage { msg_role : ChatRole; msg_content : ChatContent }.

Record CompletionBody := mkCompletionBody {
  body_model : string;
  messages : list ChatMessage;
  body_temperature : Q;
  top_p : Q;
  stream : bool;
  max_tokens : Z
}.

Inductive Request :=
| GeminiSendMessageStream (chat : Chat) (message : MessagePayload)
| GroqCreate (key : option string) (body : CompletionBody)
| OpenRouterCreate (key : option string) (body : CompletionBody).

(** One element of the upstream stream: [responseChunk.text] and
    [responseChunk.candidates?.[0]?.groundingMetadata] for Gemini,
    [chunk.choices[0]?.delta?.content] for the chat completion streams. *)
Record RawChunk := mkRawChunk {
  raw_text : option string;
  raw_grounding : option Types.GroundingMetadata
}.

Record Response := mkResponse {
  chunks : list RawChunk;
  failure : option JsError
}.

(** The clock readings made and the requests issued so far, oldest first. *)
Record IO := mkIO { tick : nat; sent : list Request }.

Definition send (network : nat -> Request -> Response) (req : Request) (io : IO)
  : Response * IO :=
  (network (length (sent io)) req, {| tick := tick io; sent := sent io ++ [req] |}).

Definition set_tick (n : nat) (io : IO) : IO := {| tick := n; sent := sent io |}.

End Wire.

(** The rate-limit test of the three [catch] blocks. *)
Definition isRateLimitError (errorMessage : string) : bool :=
  includes errorMessage "429" ||
  includes errorMessage "quota" ||
  includes errorMessage "rate limit" ||
  includes errorMessage "RESOURCE_EXHAUSTED".

(** [error.message || error.toString()] *)
Definition errorMessage_of (error : JsError) : string :=
  str_or (message error) (toString error).

(** [history.slice(0, -1)] *)
Definition slice_0_m1 {A} (l : list A) : list A := removelast l.

(** ** services/geminiService.ts *)

Module GeminiService.
Import Types.

(** The module-level [keyRotation] and the fields of the exported
    [geminiService] instance.  The [GoogleGenAI] client [ai] is the key
    it was built with. *)
Record t := mk {
  keyRotation : ApiKeyRotation.t;
  ai : option string;
  currentKey : option string;
  chat : option Wire.Chat;
  currentModel : option string;
  currentSearchEnabled : bool
}.

Definition MAX_RETRIES : nat := 3.

Definition set_keyRotation (kr : ApiKeyRotation.t) (this : t) : t :=
  {| keyRotation := kr; ai := ai this; currentKey := currentKey this;
     chat := chat this; currentModel := currentModel this;
     currentSearchEnabled := currentSearchEnabled this |}.

Definition set_client (key : option string) (this : t) : t :=
  {| keyRotation := keyRotation this; ai := key; currentKey := key;
     chat := chat this; currentModel := currentModel this;
     currentSearchEnabled := currentSearchEnabled this |}.

(** The parts of one turn: the text, then the attachment if there is one. *)
Definition parts_of (msg : Message) : list Wire.Part :=
  [Wire.TextPart (content msg)] ++
  match attachment msg with
  | Some att => [Wire.InlineDataPart (mimeType att) (data att)]
  | None => []
  end.

(** [initChat(config, history)] *)
Definition initChat (config : ModelConfig) (history : list Message) (this : t) : t :=
  let validHistory :=
    map (fun msg => {| Wire.role := role msg; Wire.parts := parts_of msg |})
        (slice_0_m1 history) in
  let tools :=
    match useSearch config with
    | Some true => [Wire.GoogleSearch]
    | _ => []
    end in
  let thinkingConfig :=
    if (0 <? thinkingBudget config)%Z then Some (thinkingBudget config) else None in
  {| keyRotation := keyRotation this; ai := ai this; currentKey := currentKey this;
     chat := Some
       {| Wire.apiKey := ai this;
          Wire.model := model config;
          Wire.config :=
            {| Wire.temperature := temperature config;
               Wire.topK := topK config;
               Wire.topP := topP config;
               Wire.systemInstruction :=
                 str_or (systemInstruction config) DEFAULT_SYSTEM_INSTRUCTION;
               Wire.thinkingConfig := thinkingConfig;
               Wire.tools := if (0 <? length tools)%nat then Some tools else None |};
          Wire.history := validHistory |};
     currentModel := Some (model config);
     currentSearchEnabled := match useSearch config with Some b => b | None => false end |}.

(** The body of [for await (const chunk of resultStream)]. *)
Definition output_of (responseChunk : Wire.RawChunk) : Chunk :=
  {| text := match Wire.raw_text responseChunk with
             | Some s => if str_truthy s then s else ""
             | None => ""
             end;
     grounding := Wire.raw_grounding responseChunk |}.

Section WithOracles.

Variable Date_now : nat -> Z.
Variable network : nat -> Wire.Request -> Wire.Response.

(** Loading the module: [keyRotation] is built from the environment and
    [new GeminiService()] takes its first key. *)
Definition init (env : Env) (tick : nat) : completion t * nat :=
  let apiKeys := str_or (GEMINI_API_KEY env) (str_or (API_KEY env) "") in
  match ApiKeyRotation.getNextKey Date_now (ApiKeyRotation.constructor (inl apiKeys)) tick with
  | (Normal key, kr, tick') =>
      (Normal {| keyRotation := kr; ai := key; currentKey := key; chat := None;
                 currentModel := None; currentSearchEnabled := false |}, tick')
  | (Throw e, _, tick') => (Throw e, tick')
  end.

Definition reinitializeWithNewKey (this : t) (tick : nat) : completion unit * t * nat :=
  match ApiKeyRotation.getNextKey Date_now (keyRotation this) tick with
  | (Normal key, kr, tick') => (Normal tt, set_client key (set_keyRotation kr this), tick')
  | (Throw e, kr, tick') => (Throw e, set_keyRotation kr this, tick')
  end.

(** [streamMessage]: [remaining] is [MAX_RETRIES - retryCount], [yielded]
    the chunks handed to the consumer so far. *)
Fixpoint streamMessage_loop (remaining retryCount : nat)
    (lastMessage : Message) (history : list Message) (config : ModelConfig)
    (this : t) (io : Wire.IO) (yielded : list Chunk)
  : list Chunk * completion unit * t * Wire.IO :=
  match remaining with
  | O => (yielded,
          Throw (new_Error "Failed to generate response after maximum retries"),
          this, io)
  | S remaining' =>
      let catch (error : JsError) (this : t) (io : Wire.IO) (yielded : list Chunk) :=
        let errorMessage := errorMessage_of error in
        if isRateLimitError errorMessage && (retryCount <? MAX_RETRIES - 1)%nat then
          match ApiKeyRotation.markKeyFailed Date_now (currentKey this)
                  (keyRotation this) (Wire.tick io) with
          | (Throw e, kr, tick1) =>
              (yielded, Throw e, set_keyRotation kr this, Wire.set_tick tick1 io)
          | (Normal _, kr, tick1) =>
              match reinitializeWithNewKey (set_keyRotation kr this) tick1 with
              | (Throw e, this', tick2) =>
                  (yielded, Throw e, this', Wire.set_tick tick2 io)
              | (Normal _, this', tick2) =>
                  streamMessage_loop remaining' (S retryCount) lastMessage history
                    config this' (Wire.set_tick tick2 io) yielded
              end
          end
        else
          (yielded,
           Throw (new_Error (str_or (Some errorMessage)
                               "Failed to generate response from Gemini")),
           this, io) in
      let searchEnabled := match useSearch config with Some b => b | None => false end in
      let needsReinit :=
        negb (bool_decide (is_Some (chat this))) ||
        negb (bool_decide (currentModel this = Some (model config))) ||
        negb (Bool.eqb (currentSearchEnabled this) searchEnabled) ||
        true in
      let this1 := if needsReinit then initChat config history this else this in
      match chat this1 with
      | None => catch (new_Error "Chat initialization failed") this1 io yielded
      | Some session =>
          let parts := parts_of lastMessage in
          let messagePayload :=
            if (length parts =? 1)%nat then Wire.PayloadText (content lastMessage)
            else Wire.PayloadParts parts in
          let '(response, io1) :=
            Wire.send network (Wire.GeminiSendMessageStream session messagePayload) io in
          let yielded1 := yielded ++ map output_of (Wire.chunks response) in
          match Wire.failure response with
          | None => (yielded1, Normal tt, this1, io1)
          | Some error => catch error this1 io1 yielded1
          end
      end
  end.

Definition streamMessage (lastMessage : Message) (history : list Message)
    (config : ModelConfig) (this : t) (io : Wire.IO)
  : list Chunk * completion unit * t * Wire.IO :=
  streamMessage_loop MAX_RETRIES 0 lastMessage history config this io [].

End WithOracles.

End GeminiService.

(** ** services/groqService.ts *)

Module GroqService.
Import Types.

(** The module-level [keyRotation] and the fields of the exported
    [groqService] instance; the [Groq] client is the key it was built
    with. *)
Record t := mk {
  keyRotation : ApiKeyRotation.t;
  groq : option string;
  currentKey : option string
}.

Definition MAX_RETRIES : nat := 3.

Definition set_keyRotation (kr : ApiKeyRotation.t) (this : t) : t :=
  {| keyRotation := kr; groq := groq this; currentKey := currentKey this |}.

Definition set_client (key : option string) (this : t) : t :=
  {| keyRotation := keyRotation this; groq := key; currentKey := key |}.

(** [historyWithoutLast.map(...)] followed by [messages.push(...)] *)
Definition messages_of (lastMessage : Message) (history : list Message)
  : list Wire.ChatMessage :=
  let historyWithoutLast := slice_0_m1 history in
  map (fun msg =>
         {| Wire.msg_role := match role msg with
                             | RoleModel => Wire.assistant
                             | RoleUser => Wire.user
                             end;
            Wire.msg_content := Wire.TextContent (content msg) |}) historyWithoutLast
  ++ [ {| Wire.msg_role := Wire.user; Wire.msg_content := Wire.TextContent (content lastMessage) |} ].

(** The argument of [this.groq.chat.completions.create]. *)
Definition body_of (lastMessage : Message) (history : list Message)
    (config : ModelConfig) : Wire.CompletionBody :=
  {| Wire.body_model := model config;
     Wire.messages :=
       {| Wire.msg_role := Wire.system;
          Wire.msg_content :=
            Wire.TextContent
              (str_or (systemInstruction config) "You are a helpful AI assistant.") |}
       :: messages_of lastMessage history;
     Wire.body_temperature := temperature config;
     Wire.top_p := topP config;
     Wire.stream := true;
     Wire.max_tokens := 8000 |}.

(** The body of [for await (const chunk of stream)]: a chunk is yielded
    only for a non-empty [content]. *)
Definition outputs_of (chunks : list Wire.RawChunk) : list Chunk :=
  flat_map (fun chunk =>
              match Wire.raw_text chunk with
              | Some content_ =>
                  if str_truthy content_
                  then [ {| text := content_; grounding := None |} ] else []
              | None => []
              end) chunks.

Section WithOracles.

Variable Date_now : nat -> Z.
Variable network : nat -> Wire.Request -> Wire.Response.

(** Loading the module. *)
Definition init (env : Env) (tick : nat) : completion t * nat :=
  let apiKeys := str_or (GROQ_API_KEY env) "" in
  match ApiKeyRotation.getNextKey Date_now (ApiKeyRotation.constructor (inl apiKeys)) tick with
  | (Normal key, kr, tick') =>
      (Normal {| keyRotation := kr; groq := key; currentKey := key |}, tick')
  | (Throw e, _, tick') => (Throw e, tick')
  end.

Definition reinitializeWithNewKey (this : t) (tick : nat) : completion unit * t * nat :=
  match ApiKeyRotation.getNextKey Date_now (keyRotation this) tick with
  | (Normal key, kr, tick') => (Normal tt, set_client key (set_keyRotation kr this), tick')
  | (Throw e, kr, tick') => (Throw e, set_keyRotation kr this, tick')
  end.

Fixpoint streamMessage_loop (remaining retryCount : nat)
    (lastMessage : Message) (history : list Message) (config : ModelConfig)
    (this : t) (io : Wire.IO) (yielded : list Chunk)
  : list Chunk * completion unit * t * Wire.IO :=
  match remaining with
  | O => (yielded,
          Throw (new_Error "Failed to generate response after maximum retries"),
          this, io)
  | S remaining' =>
      let '(response, io1) :=
        Wire.send network
          (Wire.GroqCreate (groq this) (body_of lastMessage history config)) io in
      let yielded1 := yielded ++ outputs_of (Wire.chunks response) in
      match Wire.failure response with
      | None => (yielded1, Normal tt, this, io1)
      | Some error =>
          let errorMessage := errorMessage_of error in
          if isRateLimitError errorMessage && (retryCount <? MAX_RETRIES - 1)%nat then
            match ApiKeyRotation.markKeyFailed Date_now (currentKey this)
                    (keyRotation this) (Wire.tick io1) with
            | (Throw e, kr, tick1) =>
                (yielded1, Throw e, set_keyRotation kr this, Wire.set_tick tick1 io1)
            | (Normal _, kr, tick1) =>
                match reinitializeWithNewKey (set_keyRotation kr this) tick1 with
                | (Throw e, this', tick2) =>
                    (yielded1, Throw e, this', Wire.set_tick tick2 io1)
                | (Normal _, this', tick2) =>
                    streamMessage_loop remaining' (S retryCount) lastMessage history
                      config this' (Wire.set_tick tick2 io1) yielded1
                end
            end
          else
            (yielded1,
             Throw (new_Error (str_or (Some errorMessage)
                                 "Failed to generate response from Groq")),
             this, io1)
      end
  end.

Definition streamMessage (lastMessage : Message) (history : list Message)
    (config : ModelConfig) (this : t) (io : Wire.IO)
  : list Chunk * completion unit * t * Wire.IO :=
  streamMessage_loop MAX_RETRIES 0 lastMessage history config this io [].

End WithOracles.

End GroqService.

(** ** services/openRouterService.ts *)

Module OpenRouterService.
Import Types.

Record t := mk {
  keyRotation : ApiKeyRotation.t;
  openrouter : option string;
  currentKey : option string
}.

Definition MAX_RETRIES : nat := 3.

Definition set_keyRotation (kr : ApiKeyRotation.t) (this : t) : t :=
  {| keyRotation := kr; openrouter := openrouter this; currentKey := currentKey this |}.

Definition set_client (key : option string) (this : t) : t :=
  {| keyRotation := keyRotation this; openrouter := key; currentKey := key |}.

Definition messages_of (lastMessage : Message) (history : list Message)
  : list Wire.ChatMessage :=
  let historyWithoutLast := slice_0_m1 history in
  map (fun msg =>
         {| Wire.msg_role := match role msg with
                             | RoleModel => Wire.assistant
                             | RoleUser => Wire.user
                             end;
            Wire.msg_content := Wire.TextContent (content msg) |}) historyWithoutLast
  ++ [ {| Wire.msg_role := Wire.user; Wire.msg_content := Wire.TextContent (content lastMessage) |} ].

(** The argument of [this.openrouter.chat.completions.create]. *)
Definition body_of (lastMessage : Message) (history : list Message)
    (config : ModelConfig) : Wire.CompletionBody :=
  {| Wire.body_model := model config;
     Wire.messages :=
       {| Wire.msg_role := Wire.system;
          Wire.msg_content :=
            Wire.TextContent
              (str_or (systemInstruction config) "You are a helpful AI assistant.") |}
       :: messages_of lastMessage history;
     Wire.body_temperature := temperature config;
     Wire.top_p := topP config;
     Wire.stream := true;
     Wire.max_tokens := 1000 |}.

Definition outputs_of (chunks : list Wire.RawChunk) : list Chunk :=
  flat_map (fun chunk =>
              match Wire.raw_text chunk with
              | Some content_ =>
                  if str_truthy content_
                  then [ {| text := content_; grounding := None |} ] else []
              | None => []
              end) chunks.

Section WithOracles.

Variable Date_now : nat -> Z.
Variable network : nat -> Wire.Request -> Wire.Response.

(** Loading the module. *)
Definition init (env : Env) (tick : nat) : completion t * nat :=
  let apiKeys := str_or (OPENROUTER_API_KEY env) "" in
  match ApiKeyRotation.getNextKey Date_now (ApiKeyRotation.constructor (inl apiKeys)) tick with
  | (Normal key, kr, tick') =>
      (Normal {| keyRotation := kr; openrouter := key; currentKey := key |}, tick')
  | (Throw e, _, tick') => (Throw e, tick')
  end.

Definition reinitializeWithNewKey (this : t) (tick : nat) : completion unit * t * nat :=
  match ApiKeyRotation.getNextKey Date_now (keyRotation this) tick with
  | (Normal key, kr, tick') => (Normal tt, set_client key (set_keyRotation kr this), tick')
  | (Throw e, kr, tick') => (Throw e, set_keyRotation kr this, tick')
  end.

Fixpoint streamMessage_loop (remaining retryCount : nat)
    (lastMessage : Message) (history : list Message) (config : ModelConfig)
    (this : t) (io : Wire.IO) (yielded : list Chunk)
  : list Chunk * completion unit * t * Wire.IO :=
  match remaining with
  | O => (yielded,
          Throw (new_Error "Failed to generate response after maximum retries"),
          this, io)
  | S remaining' =>
      let '(response, io1) :=
        Wire.send network
          (Wire.OpenRouterCreate (openrouter this) (body_of lastMessage history config))
          io in
      let yielded1 := yielded ++ outputs_of (Wire.chunks response) in
      match Wire.failure response with
      | None => (yielded1, Normal tt, this, io1)
      | Some error =>
          let errorMessage := errorMessage_of error in
          if isRateLimitError errorMessage && (retryCount <? MAX_RETRIES - 1)%nat then
            match ApiKeyRotation.markKeyFailed Date_now (currentKey this)
                    (keyRotation this) (Wire.tick io1) with
            | (Throw e, kr, tick1) =>
                (yielded1, Throw e, set_keyRotation kr this, Wire.set_tick tick1 io1)
            | (Normal _, kr, tick1) =>
                match reinitializeWithNewKey (set_keyRotation kr this) tick1 with
                | (Throw e, this', tick2) =>
                    (yielded1, Throw e, this', Wire.set_tick tick2 io1)
                | (Normal _, this', tick2) =>
                    streamMessage_loop remaining' (S retryCount) lastMessage history
                      config this' (Wire.set_tick tick2 io1) yielded1
                end
            end
          else
            (yielded1,
             Throw (new_Error (str_or (Some errorMessage)
                                 "Failed to generate response from OpenRouter")),
             this, io1)
      end
  end.

Definition streamMessage (lastMessage : Message) (history : list Message)
    (config : ModelConfig) (this : t) (io : Wire.IO)
  : list Chunk * completion unit * t * Wire.IO :=
  streamMessage_loop MAX_RETRIES 0 lastMessage history config this io [].

End WithOracles.

End OpenRouterService.

(** ** services/aiProviderFactory.ts *)

Module AIProviderFactory.
Import Types.

(** What the factory yields: [{ ...chunk, provider }]. *)
Record TaggedChunk := mkTaggedChunk {
  chunk_text : string;
  chunk_grounding : option GroundingMetadata;
  chunk_provider : option AIProvider
}.

Definition tag (p : AIProvider) (chunk : Chunk) : TaggedChunk :=
  {| chunk_text := text chunk; chunk_grounding := grounding chunk;
     chunk_provider := Some p |}.

(** The two service singletons the [providers] map holds. *)
Inductive AIProviderService := geminiService | groqService.

Definition providers : list (AIProvider * AIProviderService) :=
  [ (GEMINI, geminiService); (GROQ, groqService) ].

(** The string value of the enum. *)
Definition AIProvider_value (p : AIProvider) : string :=
  match p with GEMINI => "gemini" | GROQ => "groq" end.

Fixpoint Map_get (m : list (AIProvider * AIProviderService)) (p : AIProvider)
  : option AIProviderService :=
  match m with
  | [] => None
  | (q, service) :: rest => if decide (q = p) then Some service else Map_get rest p
  end.

Definition getProvider (p : AIProvider) : completion AIProviderService :=
  match Map_get providers p with
  | Some service => Normal service
  | None =>
      Throw (new_Error (String.append "Provider "
                          (String.append (AIProvider_value p) " not found")))
  end.

Definition isProviderAvailable (env : Env) (p : AIProvider) : bool :=
  match p with
  | GEMINI => opt_str_truthy (GEMINI_API_KEY env)
  | GROQ => opt_str_truthy (GROQ_API_KEY env)
  end.

Definition getAvailableProviders (env : Env) : list AIProvider :=
  List.filter (isProviderAvailable env) [GEMINI; GROQ].

Definition getFirstAvailableProvider (env : Env) : option AIProvider :=
  match getAvailableProviders env with
  | p :: _ => Some p
  | [] => None
  end.

(** [availableProviders.includes(p)] *)
Definition includes_provider (l : list AIProvider) (p : AIProvider) : bool :=
  existsb (fun q => bool_decide (q = p)) l.

(** The state the factory runs in: the environment, the clock readings
    and requests so far, the two service singletons, and the store of
    [ModelConfig] objects.  A [ModelConfig] argument is a reference into
    [heap]; [next] is the first reference not yet in use. *)
Record World := mkWorld {
  env : Env;
  io : Wire.IO;
  gemini : GeminiService.t;
  groq : GroqService.t;
  heap : nat -> ModelConfig;
  next : nat
}.

(** [{ ...config }]: a new object with the fields of [config]. *)
Definition spread (config : nat) (w : World) : nat * World :=
  (next w,
   {| env := env w; io := io w; gemini := gemini w; groq := groq w;
      heap := <[next w := heap w config]> (heap w); next := S (next w) |}).

(** [ref.model = m] *)
Definition assign_model (ref : nat) (m : string) (w : World) : World :=
  {| env := env w; io := io w; gemini := gemini w; groq := groq w;
     heap := <[ref := set_model m (heap w ref)]> (heap w); next := next w |}.

Section WithOracles.

Variable Date_now : nat -> Z.
Variable network : nat -> Wire.Request -> Wire.Response.

(** [service.streamMessage(lastMessage, history, config)], drained.  Both
    adapters only read the fields of their [config] argument, so each is
    handed the value the referenced object holds at the call. *)
Definition service_streamMessage (service : AIProviderService)
    (lastMessage : Message) (history : list Message) (config : nat) (w : World)
  : list Chunk * completion unit * World :=
  match service with
  | geminiService =>
      let '(out, r, this', io') :=
        GeminiService.streamMessage Date_now network lastMessage history
          (heap w config) (gemini w) (io w) in
      (out, r, {| env := env w; io := io'; gemini := this'; groq := groq w;
                  heap := heap w; next := next w |})
  | groqService =>
      let '(out, r, this', io') :=
        GroqService.streamMessage Date_now network lastMessage history
          (heap w config) (groq w) (io w) in
      (out, r, {| env := env w; io := io'; gemini := gemini w; groq := this';
                  heap := heap w; next := next w |})
  end.

(** The loop "Try fallback providers" and the final [throw]. *)
Fixpoint fallback_loop (candidates : list AIProvider) (primaryProvider : AIProvider)
    (lastMessage : Message) (history : list Message) (config : nat)
    (w : World) (yielded : list TaggedChunk)
  : list TaggedChunk * completion unit * World :=
  match candidates with
  | [] => (yielded,
           Throw (new_Error "All AI providers failed. Please check your API keys."),
           w)
  | provider :: rest =>
      if decide (provider = primaryProvider) then
        fallback_loop rest primaryProvider lastMessage history config w yielded
      else
        match getProvider provider with
        | Throw _ =>
            fallback_loop rest primaryProvider lastMessage history config w yielded
        | Normal service =>
            let '(fallbackConfig, w1) := spread config w in
            let w2 :=
              match provider with
              | GROQ => assign_model fallbackConfig "llama-3.3-70b-versatile" w1
              | GEMINI => assign_model fallbackConfig "gemini-2.5-flash" w1
              end in
            let '(out, r, w3) :=
              service_streamMessage service lastMessage history fallbackConfig w2 in
            let yielded1 := yielded ++ map (tag provider) out in
            match r with
            | Normal _ => (yielded1, Normal tt, w3)
            | Throw _ =>
                fallback_loop rest primaryProvider lastMessage history config w3 yielded1
            end
        end
  end.

Definition streamMessageWithFallback (lastMessage : Message) (history : list Message)
    (config : nat) (w : World)
  : list TaggedChunk * completion unit * World :=
  let primaryProvider :=
    match provider (heap w config) with
    | Some p => p
    | None => GEMINI
    end in
  let availableProviders := getAvailableProviders (env w) in
  if includes_provider availableProviders primaryProvider then
    match getProvider primaryProvider with
    | Throw _ =>
        fallback_loop availableProviders primaryProvider lastMessage history config w []
    | Normal service =>
        let '(out, r, w1) :=
          service_streamMessage service lastMessage history config w in
        let yielded := map (tag primaryProvider) out in
        match r with
        | Normal _ => (yielded, Normal tt, w1)
        | Throw _ =>
            fallback_loop availableProviders primaryProvider lastMessage history
              config w1 yielded
        end
    end
  else
    fallback_loop availableProviders primaryProvider lastMessage history config w [].

(** Loading the modules in import order: [geminiService], then [groqService]. *)
Definition init (e : Env) (configs : list ModelConfig) (default : ModelConfig)
  : completion World :=
  match GeminiService.init Date_now e 0 with
  | (Throw err, _) => Throw err
  | (Normal g, tick1) =>
      match GroqService.init Date_now e tick1 with
      | (Throw err, _) => Throw err
      | (Normal q, tick2) =>
          Normal {| env := e; io := {| Wire.tick := tick2; Wire.sent := [] |};
                    gemini := g; groq := q;
                    heap := fun ref => nth ref configs default;
                    next := length configs |}
      end
  end.

End WithOracles.

End AIProviderFactory.

(** ** components/ChatArea.tsx: the consumer of the stream

    The accumulators of the [for await] loop of [handleSend]:
    [streamedContent += chunk.text] and
    [if (chunk.grounding) finalGrounding = chunk.grounding]. *)

Module ChatArea.
Import Types.

(** [handleSend], regular chat flow.  The message built from the input
    box; [id] and [timestamp] are the two [Date.now()] readings. *)
Definition userMessage (id : string) (timestamp : Z) (input : string)
    (attachment : option Attachment) : Message :=
  {| id := id;
     role := RoleUser;
     content := if str_truthy input then input
                else match attachment with
                     | Some _ => "Analyzed attached image"
                     | None => ""
                     end;
     timestamp := timestamp;
     isError := None;
     attachment := attachment;
     groundingMetadata := None |}.

(** The history handed to the factory: [currentHistory] after the
    [if (!effectiveSessionId)] that follows
    [optimisticMessages = [...messages, userMessage]]. *)
Definition currentHistory (activeSessionId : option string)
    (messages : list Message) (userMessage : Message) : list Message :=
  let optimisticMessages := messages ++ [userMessage] in
  if negb (opt_str_truthy activeSessionId) then [userMessage]
  else optimisticMessages.

Record StreamState := mkStreamState {
  streamedContent : string;
  finalGrounding : option GroundingMetadata
}.

(** [let streamedContent = ''; let finalGrounding;] *)
Definition start : StreamState :=
  {| streamedContent := ""; finalGrounding := None |}.

(** One round of the loop. *)
Definition receive (st : StreamState) (chunk : AIProviderFactory.TaggedChunk)
  : StreamState :=
  {| streamedContent :=
       String.append (streamedContent st) (AIProviderFactory.chunk_text chunk);
     finalGrounding :=
       match AIProviderFactory.chunk_grounding chunk with
       | Some g => Some g
       | None => finalGrounding st
       end |}.

(** The accumulators after the chunks received so far. *)
Definition consume (chunks : list AIProviderFactory.TaggedChunk) : StreamState :=
  fold_left receive chunks start.

End ChatArea.

(** ** Executions of a credential pool *)

(** The result of [n] consecutive [getNextKey()] calls. *)
Fixpoint getNextKey_n (Date_now : nat -> Z) (n : nat) (this : ApiKeyRotation.t)
    (tick : nat) : list (completion (option string)) * ApiKeyRotation.t * nat :=
  match n with
  | O => ([], this, tick)
  | S n' =>
      let '(r, this1, tick1) := ApiKeyRotation.getNextKey Date_now this tick in
      let '(rs, this2, tick2) := getNextKey_n Date_now n' this1 tick1 in
      (r :: rs, this2, tick2)
  end.

(** The calls a client can make on a pool. *)
Inductive pool_call :=
| GetNextKey
| MarkKeyFailed (key : option string)
| ResetKey (idx : nat).

Definition run_call (Date_now : nat -> Z) (c : pool_call)
    (st : ApiKeyRotation.t * nat) : ApiKeyRotation.t * nat :=
  match c with
  | GetNextKey =>
      let '(_, this', tick') := ApiKeyRotation.getNextKey Date_now st.1 st.2 in
      (this', tick')
  | MarkKeyFailed key =>
      let '(_, this', tick') := ApiKeyRotation.markKeyFailed Date_now key st.1 st.2 in
      (this', tick')
  | ResetKey idx => (ApiKeyRotation.resetKey idx st.1, st.2)
  end.

Definition run_calls (Date_now : nat -> Z) (cs : list pool_call)
    (st : ApiKeyRotation.t * nat) : ApiKeyRotation.t * nat :=
  fold_left (fun st c => run_call Date_now c st) cs st.

(** The class invariant: the cursor is inside [keys] and [keyStatuses]
    has an entry exactly for the positions of [keys]. *)
Definition pool_wf (this : ApiKeyRotation.t) : Prop :=
  ApiKeyRotation.currentIndex this < length (ApiKeyRotation.keys this) ∧
  ∀ i, is_Some (ApiKeyRotation.keyStatuses this !! i) ↔
       i < length (ApiKeyRotation.keys this).

(** A status that [getNextKey] selects when it examines it at any clock
    reading from [tick] on: no live cooldown, and fewer than
    [MAX_FAILURES] failures unless an expired cooldown clears them. *)
Definition selectable (Date_now : nat -> Z) (tick : nat)
    (s : ApiKeyRotation.KeyStatus) : Prop :=
  match ApiKeyRotation.failedAt s with
  | Some at_ =>
      if num_truthy at_
      then ∀ n, tick ≤ n → (ApiKeyRotation.COOLDOWN_MS ≤ Date_now n - at_)%Z
      else (ApiKeyRotation.failureCount s < ApiKeyRotation.MAX_FAILURES)%Z
  | None => (ApiKeyRotation.failureCount s < ApiKeyRotation.MAX_FAILURES)%Z
  end.


(** What [getNextKey] may do to a status in a call that made the clock
    readings [tick .. tick'-1]: nothing, or clear it because one of these
    readings found its cooldown over. *)
Definition cooldown_reset (Date_now : nat -> Z) (tick tick' : nat)
    (s s' : ApiKeyRotation.KeyStatus) : Prop :=
  s' = s ∨
  (s' = {| ApiKeyRotation.index := ApiKeyRotation.index s;
           ApiKeyRotation.failedAt := None;
           ApiKeyRotation.failureCount := 0 |} ∧
   ∃ at_ n, ApiKeyRotation.failedAt s = Some at_ ∧ num_truthy at_ = true ∧
            tick ≤ n < tick' ∧
            (ApiKeyRotation.COOLDOWN_MS ≤ Date_now n - at_)%Z).

(** What a run of [getNextKey] calls keeps true after slot [idx] failed
    at time [at_], when slot [j] is selectable from reading [tick0] on. *)
Definition cooldown_inv (Date_now : nat -> Z) (tick0 idx j : nat) (at_ : Z)
    (this : ApiKeyRotation.t) : Prop :=
  pool_wf this ∧
  (∃ s, ApiKeyRotation.keyStatuses this !! idx = Some s ∧
        ApiKeyRotation.failedAt s = Some at_) ∧
  (∃ s, ApiKeyRotation.keyStatuses this !! j = Some s ∧
        selectable Date_now tick0 s).

(** How one call may change the failure count of slot [i], from status
    [s] before to [s'] after, with the clock readings [tick .. tick'-1]
    made by the call. *)
Definition failureCount_step (Date_now : nat -> Z) (c : pool_call)
    (keys : list string) (tick tick' i : nat)
    (s s' : ApiKeyRotation.KeyStatus) : Prop :=
  ApiKeyRotation.failureCount s' = ApiKeyRotation.failureCount s
  ∨ (ApiKeyRotation.failureCount s' = (ApiKeyRotation.failureCount s + 1)%Z ∧
     ∃ key, c = MarkKeyFailed (Some key) ∧ indexOf keys key = Some i)
  ∨ (ApiKeyRotation.failureCount s' = 0%Z ∧
     (c = ResetKey i ∨
      (c = GetNextKey ∧
       ∃ at_ n, ApiKeyRotation.failedAt s = Some at_ ∧ tick ≤ n < tick' ∧
                (ApiKeyRotation.COOLDOWN_MS ≤ Date_now n - at_)%Z))).

(** Clocks used in the examples: a clock that stands still, and one that
    jumps past the cooldown window after its third reading. *)
Definition frozen_clock : nat -> Z := fun _ => 1000%Z.
Definition jumping_clock : nat -> Z :=
  fun n => if (n <? 3)%nat then 1000%Z else 100000%Z.


(** ** The provider adapters, seen through their common interface

    The factory types its services as [AIProviderService]: an object with
    a [streamMessage] method.  The three adapters of the repository are
    gathered here under one index, so that a statement about "every
    adapter" is a statement for all [a : Adapter]. *)

Inductive Adapter := Gemini | Groq | OpenRouter.

Definition AdapterState (a : Adapter) : Type :=
  match a with
  | Gemini => GeminiService.t
  | Groq => GroqService.t
  | OpenRouter => OpenRouterService.t
  end.

Definition adapter_keyRotation (a : Adapter) : AdapterState a -> ApiKeyRotation.t :=
  match a with
  | Gemini => GeminiService.keyRotation
  | Groq => GroqService.keyRotation
  | OpenRouter => OpenRouterService.keyRotation
  end.

Definition adapter_streamMessage (Date_now : nat -> Z)
    (network : nat -> Wire.Request -> Wire.Response) (a : Adapter)
  : Types.Message -> list Types.Message -> Types.ModelConfig ->
    AdapterState a -> Wire.IO ->
    list Types.Chunk * completion unit * AdapterState a * Wire.IO :=
  match a with
  | Gemini => GeminiService.streamMessage Date_now network
  | Groq => GroqService.streamMessage Date_now network
  | OpenRouter => OpenRouterService.streamMessage Date_now network
  end.

(** The message each adapter falls back to for an error without text. *)
Definition adapter_failure_text (a : Adapter) : string :=
  match a with
  | Gemini => "Failed to generate response from Gemini"
  | Groq => "Failed to generate response from Groq"
  | OpenRouter => "Failed to generate response from OpenRouter"
  end.

(** The instruction each adapter falls back to. *)
Definition adapter_default_instruction (a : Adapter) : string :=
  match a with
  | Gemini => DEFAULT_SYSTEM_INSTRUCTION
  | Groq => "You are a helpful AI assistant."
  | OpenRouter => "You are a helpful AI assistant."
  end.

(** The message of the [throw] that follows the retry loop. *)
Definition exhausted_retries_text : string :=
  "Failed to generate response after maximum retries".

(** The backend a request goes to. *)
Definition request_adapter (req : Wire.Request) : Adapter :=
  match req with
  | Wire.GeminiSendMessageStream _ _ => Gemini
  | Wire.GroqCreate _ _ => Groq
  | Wire.OpenRouterCreate _ _ => OpenRouter
  end.

(** *** Reading a request back

    The conversation a request submits, as (speaker, text) turns: for
    Gemini the history of the chat session followed by the message sent
    into it; for the chat completion backends the messages other than the
    system message, with [assistant] read as the model. *)

Definition parts_text (ps : list Wire.Part) : string :=
  fold_right (fun p acc =>
                match p with
                | Wire.TextPart s => String.append s acc
                | Wire.InlineDataPart _ _ => acc
                end) "" ps.

Definition parts_inline (ps : list Wire.Part) : list Types.Attachment :=
  flat_map (fun p =>
              match p with
              | Wire.TextPart _ => []
              | Wire.InlineDataPart m d => [Types.mkAttachment m d]
              end) ps.

Definition payload_parts (m : Wire.MessagePayload) : list Wire.Part :=
  match m with
  | Wire.PayloadText s => [Wire.TextPart s]
  | Wire.PayloadParts ps => ps
  end.

Definition chat_content_text (c : Wire.ChatContent) : string :=
  match c with
  | Wire.TextContent s => s
  | Wire.PartsContent ps =>
      fold_right (fun p acc =>
                    match p with
                    | Wire.ChatTextPart s => String.append s acc
                    | Wire.ChatImagePart _ => acc
                    end) "" ps
  end.

Definition chat_content_images (c : Wire.ChatContent) : list string :=
  match c with
  | Wire.TextContent _ => []
  | Wire.PartsContent ps =>
      flat_map (fun p =>
                  match p with
                  | Wire.ChatTextPart _ => []
                  | Wire.ChatImagePart url => [url]
                  end) ps
  end.

Definition chat_turns (ms : list Wire.ChatMessage) : list (Types.Role * string) :=
  flat_map (fun m =>
              match Wire.msg_role m with
              | Wire.system => []
              | Wire.user => [(Types.RoleUser, chat_content_text (Wire.msg_content m))]
              | Wire.assistant => [(Types.RoleModel, chat_content_text (Wire.msg_content m))]
              end) ms.

Definition request_turns (req : Wire.Request) : list (Types.Role * string) :=
  match req with
  | Wire.GeminiSendMessageStream session message =>
      map (fun c => (Wire.role c, parts_text (Wire.parts c))) (Wire.history session)
      ++ [(Types.RoleUser, parts_text (payload_parts message))]
  | Wire.GroqCreate _ body => chat_turns (Wire.messages body)
  | Wire.OpenRouterCreate _ body => chat_turns (Wire.messages body)
  end.

(** The system instruction(s) a request carries. *)
Definition request_system (req : Wire.Request) : list string :=
  match req with
  | Wire.GeminiSendMessageStream session _ =>
      [Wire.systemInstruction (Wire.config session)]
  | Wire.GroqCreate _ body | Wire.OpenRouterCreate _ body =>
      flat_map (fun m =>
                  match Wire.msg_role m with
                  | Wire.system => [chat_content_text (Wire.msg_content m)]
                  | _ => []
                  end) (Wire.messages body)
  end.

(** The binary parts of the newest turn of a request: inline data for
    Gemini, image parts for the chat completion backends. *)
Definition request_newest_binary (req : Wire.Request) : nat :=
  match req with
  | Wire.GeminiSendMessageStream _ message =>
      length (parts_inline (payload_parts message))
  | Wire.GroqCreate _ body | Wire.OpenRouterCreate _ body =>
      match list.last (Wire.messages body) with
      | Some m => length (chat_content_images (Wire.msg_content m))
      | None => 0
      end
  end.

(** The turn a history entry stands for. *)
Definition turn_of (msg : Types.Message) : Types.Role * string :=
  (Types.role msg, Types.content msg).

(** ** Data for the examples *)

(** [DEFAULT_MODEL_CONFIG] of constants.ts. *)
Definition DEFAULT_MODEL_CONFIG : Types.ModelConfig :=
  {| Types.provider := Some Types.GEMINI;
     Types.model := "gemini-2.5-flash";
     Types.temperature := (7 # 10)%Q;
     Types.maxTokens := Some 8192%Z;
     Types.topP := (95 # 100)%Q;
     Types.topK := 40;
     Types.thinkingBudget := 0;
     Types.useSearch := Some false;
     Types.systemInstruction := Some DEFAULT_SYSTEM_INSTRUCTION |}.

Definition msg_question : Types.Message :=
  {| Types.id := "1"; Types.role := Types.RoleUser; Types.content := "What is a monad?";
     Types.timestamp := 1700000000000; Types.isError := None;
     Types.attachment := None; Types.groundingMetadata := None |}.

Definition msg_answer : Types.Message :=
  {| Types.id := "2"; Types.role := Types.RoleModel;
     Types.content := "A monoid in the category of endofunctors.";
     Types.timestamp := 1700000001000; Types.isError := None;
     Types.attachment := None; Types.groundingMetadata := None |}.

Definition msg_photo : Types.Message :=
  {| Types.id := "3"; Types.role := Types.RoleUser; Types.content := "Describe this image";
     Types.timestamp := 1700000002000; Types.isError := None;
     Types.attachment := Some (Types.mkAttachment "image/png" "iVBORw0KGgo=");
     Types.groundingMetadata := None |}.

Definition io0 : Wire.IO := {| Wire.tick := 0; Wire.sent := [] |}.

(** The adapters as their modules leave them after loading, with the keys
    [g1, g2] for Gemini, [q1, q2] for Groq and [o1] for OpenRouter. *)
Definition gemini0 : GeminiService.t :=
  {| GeminiService.keyRotation :=
       (run_calls frozen_clock [GetNextKey]
          (ApiKeyRotation.constructor (inl "g1,g2"), 0)).1;
     GeminiService.ai := Some "g1"; GeminiService.currentKey := Some "g1";
     GeminiService.chat := None; GeminiService.currentModel := None;
     GeminiService.currentSearchEnabled := false |}.

Definition groq0 : GroqService.t :=
  {| GroqService.keyRotation :=
       (run_calls frozen_clock [GetNextKey]
          (ApiKeyRotation.constructor (inl "q1,q2"), 0)).1;
     GroqService.groq := Some "q1"; GroqService.currentKey := Some "q1" |}.

Definition openrouter0 : OpenRouterService.t :=
  {| OpenRouterService.keyRotation :=
       (run_calls frozen_clock [GetNextKey]
          (ApiKeyRotation.constructor (inl "o1"), 0)).1;
     OpenRouterService.openrouter := Some "o1";
     OpenRouterService.currentKey := Some "o1" |}.

(** Upstream behaviours: always rate limited; always rejecting the
    request; answering in two chunks; Gemini failing after one chunk while
    the other backends answer. *)
Definition net_rate_limited : nat -> Wire.Request -> Wire.Response :=
  fun _ _ => {| Wire.chunks := [];
                Wire.failure := Some (new_Error "429 Too Many Requests") |}.

(** An upstream that is rate limited with a different message at each
    request. *)
Definition net_three_limits : nat -> Wire.Request -> Wire.Response :=
  fun n _ =>
    {| Wire.chunks := [];
       Wire.failure :=
         Some (new_Error match n with
                         | 0 => "429 Too Many Requests"
                         | 1 => "quota exceeded"
                         | _ => "RESOURCE_EXHAUSTED"
                         end) |}.

Definition net_bad_request : nat -> Wire.Request -> Wire.Response :=
  fun _ _ => {| Wire.chunks := [];
                Wire.failure := Some (new_Error "400 Bad Request") |}.

Definition two_chunks : list Wire.RawChunk :=
  [ {| Wire.raw_text := Some "Hello"; Wire.raw_grounding := None |};
    {| Wire.raw_text := Some " there"; Wire.raw_grounding := None |} ].

Definition net_answering : nat -> Wire.Request -> Wire.Response :=
  fun _ _ => {| Wire.chunks := two_chunks; Wire.failure := None |}.

Definition net_gemini_down : nat -> Wire.Request -> Wire.Response :=
  fun _ req =>
    match req with
    | Wire.GeminiSendMessageStream _ _ =>
        {| Wire.chunks := [ {| Wire.raw_text := Some "Hel"; Wire.raw_grounding := None |} ];
           Wire.failure := Some (new_Error "503 Service Unavailable") |}
    | _ => {| Wire.chunks := two_chunks; Wire.failure := None |}
    end.

(** ** The factory's providers *)

(** The service [getProvider] finds for a provider. *)
Definition provider_service (p : Types.AIProvider)
  : AIProviderFactory.AIProviderService :=
  match p with
  | Types.GEMINI => AIProviderFactory.geminiService
  | Types.GROQ => AIProviderFactory.groqService
  end.

(** The backend that service talks to. *)
Definition provider_adapter (p : Types.AIProvider) : Adapter :=
  match p with
  | Types.GEMINI => Gemini
  | Types.GROQ => Groq
  end.

(** The model the fallback loop writes into its copy of the
    configuration. *)
Definition default_model (p : Types.AIProvider) : string :=
  match p with
  | Types.GROQ => "llama-3.3-70b-versatile"
  | Types.GEMINI => "gemini-2.5-flash"
  end.

(** [config.provider || AIProvider.GEMINI] *)
Definition primary_of (config : Types.ModelConfig) : Types.AIProvider :=
  match Types.provider config with
  | Some p => p
  | None => Types.GEMINI
  end.

Definition env_both : Types.Env :=
  {| Types.GEMINI_API_KEY := Some "g1,g2"; Types.API_KEY := None;
     Types.GROQ_API_KEY := Some "q1,q2"; Types.OPENROUTER_API_KEY := None |}.

Definition env_none : Types.Env :=
  {| Types.GEMINI_API_KEY := None; Types.API_KEY := None;
     Types.GROQ_API_KEY := None; Types.OPENROUTER_API_KEY := None |}.

(** The world after the modules are loaded with [env_both], holding one
    configuration object (reference 0). *)
Definition world0 : AIProviderFactory.World :=
  {| AIProviderFactory.env := env_both;
     AIProviderFactory.io := io0;
     AIProviderFactory.gemini := gemini0;
     AIProviderFactory.groq := groq0;
     AIProviderFactory.heap := fun ref => nth ref [DEFAULT_MODEL_CONFIG] DEFAULT_MODEL_CONFIG;
     AIProviderFactory.next := 1 |}.

(** The same world with no credential configured anywhere. *)
Definition world_unconfigured : AIProviderFactory.World :=
  {| AIProviderFactory.env := env_none;
     AIProviderFactory.io := io0;
     AIProviderFactory.gemini :=
       {| GeminiService.keyRotation :=
            (run_calls frozen_clock [GetNextKey]
               (ApiKeyRotation.constructor (inl ""), 0)).1;
          GeminiService.ai := Some "NO_API_KEY_PROVIDED";
          GeminiService.currentKey := Some "NO_API_KEY_PROVIDED";
          GeminiService.chat := None; GeminiService.currentModel := None;
          GeminiService.currentSearchEnabled := false |};
     AIProviderFactory.groq :=
       {| GroqService.keyRotation :=
            (run_calls frozen_clock [GetNextKey]
               (ApiKeyRotation.constructor (inl ""), 0)).1;
          GroqService.groq := Some "NO_API_KEY_PROVIDED";
          GroqService.currentKey := Some "NO_API_KEY_PROVIDED" |};
     AIProviderFactory.heap := fun ref => nth ref [DEFAULT_MODEL_CONFIG] DEFAULT_MODEL_CONFIG;
     AIProviderFactory.next := 1 |}.

(** ** Further notions used in the properties *)

(** A status that [getAvailableKeyCount] counts when it reads the time
    [now] for it. *)
Definition status_counted (now : Z) (s : ApiKeyRotation.KeyStatus) : bool :=
  (ApiKeyRotation.failureCount s <? ApiKeyRotation.MAX_FAILURES)%Z &&
  match ApiKeyRotation.failedAt s with
  | Some at_ => negb (num_truthy at_) || (ApiKeyRotation.COOLDOWN_MS <=? now - at_)%Z
  | None => true
  end.


(** The status the constructor gives slot [i]. *)
Definition fresh_status (i : nat) : ApiKeyRotation.KeyStatus :=
  {| ApiKeyRotation.index := i; ApiKeyRotation.failedAt := None;
     ApiKeyRotation.failureCount := 0 |}.

(** A credential as it can be written in a comma-separated list and read
    back unchanged: not empty, without a comma, without white space at
    either end. *)
Definition has_comma (s : string) : bool := includes s ",".

Definition clean_key (k : string) : Prop :=
  k ≠ "" ∧ has_comma k = false ∧ ApiKeyRotation.trim k = k.

(** What an adapter yields for the raw chunks of one upstream stream. *)
Definition adapter_outputs (a : Adapter) (chunks : list Wire.RawChunk)
  : list Types.Chunk :=
  match a with
  | Gemini => map GeminiService.output_of chunks
  | Groq => GroqService.outputs_of chunks
  | OpenRouter => OpenRouterService.outputs_of chunks
  end.

(** The credential a request is made with. *)
Definition request_key (req : Wire.Request) : option string :=
  match req with
  | Wire.GeminiSendMessageStream session _ => Wire.apiKey session
  | Wire.GroqCreate key _ => key
  | Wire.OpenRouterCreate key _ => key
  end.

(** The key of an adapter's SDK client, and its [currentKey] field. *)
Definition adapter_client_key (a : Adapter) : AdapterState a -> option string :=
  match a with
  | Gemini => GeminiService.ai
  | Groq => GroqService.groq
  | OpenRouter => OpenRouterService.openrouter
  end.

Definition adapter_currentKey (a : Adapter) : AdapterState a -> option string :=
  match a with
  | Gemini => GeminiService.currentKey
  | Groq => GroqService.currentKey
  | OpenRouter => OpenRouterService.currentKey
  end.

(** A chunk of text only: some text, no grounding. *)
Definition text_only (chunk : Types.Chunk) : Prop :=
  Types.text chunk ≠ "" ∧ Types.grounding chunk = None.

(** The error [streamMessageWithFallback] ends with when no provider
    served the request. *)
Definition all_providers_failed : JsError :=
  new_Error "All AI providers failed. Please check your API keys.".

(** The text of a list of tagged chunks, in order. *)
Definition chunks_text (chunks : list AIProviderFactory.TaggedChunk) : string :=
  fold_right (fun chunk acc =>
                String.append (AIProviderFactory.chunk_text chunk) acc) "" chunks.

(** What an adapter keeps true of its fields between calls: the pool is
    well formed, the SDK client was built with [currentKey], and
    [currentKey] is one of the keys of the pool. *)
Definition client_inv (kr : ApiKeyRotation.t) (client currentKey : option string)
  : Prop :=
  pool_wf kr ∧ client = currentKey ∧
  ∃ k, currentKey = Some k ∧ k ∈ ApiKeyRotation.keys kr.

Definition adapter_inv (a : Adapter) (this : AdapterState a) : Prop :=
  client_inv (adapter_keyRotation a this) (adapter_client_key a this)
    (adapter_currentKey a this).

(** Loading an adapter's module. *)
Definition adapter_init (Date_now : nat -> Z) (a : Adapter)
  : Types.Env -> nat -> completion (AdapterState a) * nat :=
  match a with
  | Gemini => GeminiService.init Date_now
  | Groq => GroqService.init Date_now
  | OpenRouter => OpenRouterService.init Date_now
  end.

(** The environment variable(s) an adapter's module reads its keys from. *)
Definition adapter_apiKeys (a : Adapter) (env : Types.Env) : string :=
  match a with
  | Gemini => str_or (Types.GEMINI_API_KEY env) (str_or (Types.API_KEY env) "")
  | Groq => str_or (Types.GROQ_API_KEY env) ""
  | OpenRouter => str_or (Types.OPENROUTER_API_KEY env) ""
  end.

(** The state of the two services of the factory. *)
Definition world_inv (w : AIProviderFactory.World) : Prop :=
  adapter_inv Gemini (AIProviderFactory.gemini w) ∧
  adapter_inv Groq (AIProviderFactory.groq w).

(** Two configurations that agree on every field but [maxTokens] and
    [provider]. *)
Definition same_request_fields (c c' : Types.ModelConfig) : Prop :=
  Types.model c = Types.model c' ∧ Types.temperature c = Types.temperature c' ∧
  Types.topK c = Types.topK c' ∧ Types.topP c = Types.topP c' ∧
  Types.thinkingBudget c = Types.thinkingBudget c' ∧
  Types.systemInstruction c = Types.systemInstruction c' ∧
  Types.useSearch c = Types.useSearch c'.

(** Two configurations that agree on [model], [temperature], [topP] and
    [systemInstruction]. *)
Definition same_completion_fields (c c' : Types.ModelConfig) : Prop :=
  Types.model c = Types.model c' ∧ Types.temperature c = Types.temperature c' ∧
  Types.topP c = Types.topP c' ∧
  Types.systemInstruction c = Types.systemInstruction c'.

(** The tools and the thinking configuration [initChat] derives from a
    configuration. *)
Definition tools_of (config : Types.ModelConfig) : option (list Wire.Tool) :=
  match Types.useSearch config with
  | Some true => Some [Wire.GoogleSearch]
  | _ => None
  end.

Definition thinking_of (config : Types.ModelConfig) : option Z :=
  if (0 <? Types.thinkingBudget config)%Z
  then Some (Types.thinkingBudget config) else None.

(** An upstream that cuts the first stream after one chunk with a 429 and
    answers every later request in two chunks. *)
Definition net_rate_limited_once : nat -> Wire.Request -> Wire.Response :=
  fun n _ =>
    match n with
    | O => {| Wire.chunks := [ {| Wire.raw_text := Some "Hel"; Wire.raw_grounding := None |} ];
              Wire.failure := Some (new_Error "429 Too Many Requests") |}
    | S _ => {| Wire.chunks := two_chunks; Wire.failure := None |}
    end.

(** A configuration that asks for everything the chat completion
    adapters do not pass on. *)
Definition config_with_search : Types.ModelConfig :=
  {| Types.provider := Some Types.GROQ;
     Types.model := "gemini-2.5-flash";
     Types.temperature := (7 # 10)%Q;
     Types.maxTokens := Some 64%Z;
     Types.topP := (95 # 100)%Q;
     Types.topK := 1;
     Types.thinkingBudget := 2048;
     Types.useSearch := Some true;
     Types.systemInstruction := Some DEFAULT_SYSTEM_INSTRUCTION |}.

(** The Gemini service after a call that left a session for another
    model, with search enabled, behind. *)
Definition gemini_stale : GeminiService.t :=
  GeminiService.initChat config_with_search [msg_question; msg_answer] gemini0.

(** The default configuration with another token limit and provider. *)
Definition config_no_limit : Types.ModelConfig :=
  {| Types.provider := None;
     Types.model := "gemini-2.5-flash";
     Types.temperature := (7 # 10)%Q;
     Types.maxTokens := None;
     Types.topP := (95 # 100)%Q;
     Types.topK := 40;
     Types.thinkingBudget := 0;
     Types.useSearch := Some false;
     Types.systemInstruction := Some DEFAULT_SYSTEM_INSTRUCTION |}.

(** The candidates the fallback loop does not skip. *)
Definition others (primary : Types.AIProvider) (candidates : list Types.AIProvider)
  : list Types.AIProvider :=
  List.filter (fun p => negb (bool_decide (p = primary))) candidates.

(** The grounding metadata of the last chunk that carries some. *)
Definition last_grounding (chunks : list AIProviderFactory.TaggedChunk)
  : option Types.GroundingMetadata :=
  list.last (omap AIProviderFactory.chunk_grounding chunks).

(** An environment with a key for Groq only, one with the Gemini key
    under [API_KEY] only, and the worlds loading the modules gives. *)
Definition env_groq_only : Types.Env :=
  {| Types.GEMINI_API_KEY := None; Types.API_KEY := None;
     Types.GROQ_API_KEY := Some "q1,q2"; Types.OPENROUTER_API_KEY := None |}.

Definition env_API_KEY_only : Types.Env :=
  {| Types.GEMINI_API_KEY := None; Types.API_KEY := Some "g1,g2";
     Types.GROQ_API_KEY := None; Types.OPENROUTER_API_KEY := None |}.

Definition world_groq_only : AIProviderFactory.World :=
  {| AIProviderFactory.env := env_groq_only;
     AIProviderFactory.io := io0;
     AIProviderFactory.gemini := AIProviderFactory.gemini world_unconfigured;
     AIProviderFactory.groq := groq0;
     AIProviderFactory.heap := fun ref => nth ref [DEFAULT_MODEL_CONFIG] DEFAULT_MODEL_CONFIG;
     AIProviderFactory.next := 1 |}.

(** A grounded upstream chunk. *)
Definition grounding_a : Types.GroundingMetadata :=
  {| Types.groundingChunks := [Some (Types.mkWebSource "https://a.example" "A")] |}.

(** * Properties of the credential pool *)

(** The embedding on small inputs. *)
Example includes_429 : includes "HTTP 429 Too Many Requests" "429" = true.
Proof. reflexivity. Qed.

Example includes_none : isRateLimitError "401 Unauthorized" = false.
Proof. reflexivity. Qed.

Example constructor_splits_and_trims :
  ApiKeyRotation.keys (ApiKeyRotation.constructor (inl " k1 , k2,,k3 "))
  = ["k1"; "k2"; "k3"].
Proof. reflexivity. Qed.

(** White space outside ASCII is trimmed as well: U+00A0 after [k1],
    U+FEFF before [k2] and U+2003 after it; other characters of several
    bytes (here U+00E9) stay. *)
Example constructor_trims_unicode_space :
  ApiKeyRotation.keys
    (ApiKeyRotation.constructor
       (inl (String "k" (String "1"
               (String (ascii_of_nat 194) (String (ascii_of_nat 160)
               (String ","
               (String (ascii_of_nat 239) (String (ascii_of_nat 187)
               (String (ascii_of_nat 191)
               (String "k" (String "2"
               (String (ascii_of_nat 226) (String (ascii_of_nat 128)
               (String (ascii_of_nat 131)
               (String ","
               (String " "
               (String (ascii_of_nat 195) (String (ascii_of_nat 169)
               (String " " EmptyString))))))))))))))))))))
  = ["k1"; "k2"; String (ascii_of_nat 195) (String (ascii_of_nat 169) EmptyString)].
Proof. vm_compute. reflexivity. Qed.

Example constructor_placeholder :
  ApiKeyRotation.keys (ApiKeyRotation.constructor (inl ""))
  = ["NO_API_KEY_PROVIDED"].
Proof. reflexivity. Qed.

Example markKeyFailed_moves_cursor :
  let '(_, this, _) :=
    ApiKeyRotation.markKeyFailed frozen_clock (Some "a")
      (ApiKeyRotation.constructor (inr ["a"; "b"; "c"])) 0 in
  ApiKeyRotation.currentIndex this = 1 ∧
  (ApiKeyRotation.getNextKey frozen_clock this 1).1.1 = Normal (Some "b").
Proof. vm_compute. done. Qed.

Section PoolFacts.

Import ApiKeyRotation.

Variable Date_now : nat -> Z.

Lemma init_statuses_lookup (n i : nat) :
  init_statuses n !! i =
  if decide (i < n) then Some {| index := i; failedAt := None; failureCount := 0 |}
  else None.
Proof.
  induction n as [|n IH]; cbn [init_statuses].
  - rewrite lookup_empty. case_decide; [lia | done].
  - rewrite lookup_insert. destruct (decide (n = i)) as [->|Hne].
    + by rewrite decide_True by lia.
    + rewrite IH. destruct (decide (i < n)).
      * by rewrite decide_True by lia.
      * by rewrite decide_False by lia.
Qed.

Lemma constructor_keys_nonempty apiKeys : 0 < length (keys (constructor apiKeys)).
Proof.
  unfold constructor; simpl.
  match goal with |- context [match ?l with [] => _ | _ => _ end] => destruct l end;
    simpl; lia.
Qed.

Lemma constructor_wf apiKeys : pool_wf (constructor apiKeys).
Proof.
  split.
  - apply constructor_keys_nonempty.
  - intros i. unfold constructor at 1; cbn [keyStatuses].
    rewrite init_statuses_lookup.
    change (length _) with (length (keys (constructor apiKeys))).
    case_decide; split; intros H'; try done; try lia.
Qed.

Lemma wf_advance this : pool_wf this → pool_wf (advance this).
Proof.
  intros [Hc Hs]; split; simpl; [|done].
  apply Nat.mod_upper_bound. lia.
Qed.

Lemma resetKey_lookup idx this i :
  keyStatuses (resetKey idx this) !! i =
  if decide (idx = i)
  then (λ s, {| index := index s; failedAt := None; failureCount := 0 |})
         <$> keyStatuses this !! i
  else keyStatuses this !! i.
Proof.
  unfold resetKey. case_decide as Hi.
  - subst. destruct (keyStatuses this !! i) eqn:E; simpl.
    + by rewrite lookup_insert_eq.
    + by rewrite E.
  - destruct (keyStatuses this !! idx); simpl; [|done].
    by rewrite lookup_insert_ne.
Qed.

Lemma resetKey_keys idx this : keys (resetKey idx this) = keys this.
Proof. unfold resetKey. by destruct (keyStatuses this !! idx). Qed.

Lemma resetKey_currentIndex idx this :
  currentIndex (resetKey idx this) = currentIndex this.
Proof. unfold resetKey. by destruct (keyStatuses this !! idx). Qed.

Lemma wf_resetKey idx this : pool_wf this → pool_wf (resetKey idx this).
Proof.
  intros [Hc Hs]; split.
  - by rewrite resetKey_currentIndex, resetKey_keys.
  - intros i. rewrite resetKey_keys, resetKey_lookup, <- Hs.
    case_decide; [|done]. by rewrite fmap_is_Some.
Qed.

Lemma wf_set_keyStatus idx s this :
  pool_wf this → idx < length (keys this) → pool_wf (set_keyStatus idx s this).
Proof.
  intros [Hc Hs] Hidx; split; simpl; [done|].
  intros i. rewrite lookup_insert. case_decide; [subst|by apply Hs].
  split; [done | by eexists].
Qed.


(** One round of the loop of [getNextKey], by the four ways the key under
    the cursor can be treated. *)
Lemma getNextKey_loop_cases remaining start this tick :
  pool_wf this →
  ∃ s, keyStatuses this !! currentIndex this = Some s ∧
  ((∃ at_, failedAt s = Some at_ ∧ num_truthy at_ = true ∧
      (Date_now tick - at_ < COOLDOWN_MS)%Z ∧
      getNextKey_loop Date_now (S remaining) start this tick =
      getNextKey_loop Date_now remaining start (advance this) (S tick))
   ∨ (∃ at_, failedAt s = Some at_ ∧ num_truthy at_ = true ∧
      (COOLDOWN_MS ≤ Date_now tick - at_)%Z ∧
      getNextKey_loop Date_now (S remaining) start this tick =
      (Normal (keys this !! currentIndex this),
       advance (resetKey (currentIndex this) this), S tick))
   ∨ ((∀ at_, failedAt s = Some at_ → num_truthy at_ = false) ∧
      (MAX_FAILURES ≤ failureCount s)%Z ∧
      getNextKey_loop Date_now (S remaining) start this tick =
      getNextKey_loop Date_now remaining start (advance this) tick)
   ∨ ((∀ at_, failedAt s = Some at_ → num_truthy at_ = false) ∧
      (failureCount s < MAX_FAILURES)%Z ∧
      getNextKey_loop Date_now (S remaining) start this tick =
      (Normal (keys this !! currentIndex this), advance this, tick))).
Proof.
  intros [Hc Hs].
  destruct (proj2 (Hs (currentIndex this)) Hc) as [s Hsome].
  exists s; split; [done|].
  cbn [getNextKey_loop]. rewrite Hsome.
  assert (Hcheck :
    (MAX_FAILURES ≤ failureCount s)%Z ∧
      (if (MAX_FAILURES <=? failureCount s)%Z
       then getNextKey_loop Date_now remaining start (advance this) tick
       else (Normal (keys this !! currentIndex this), advance this, tick)) =
      getNextKey_loop Date_now remaining start (advance this) tick
    ∨ (failureCount s < MAX_FAILURES)%Z ∧
      (if (MAX_FAILURES <=? failureCount s)%Z
       then getNextKey_loop Date_now remaining start (advance this) tick
       else (Normal (keys this !! currentIndex this), advance this, tick)) =
      (Normal (keys this !! currentIndex this), advance this, tick)).
  { destruct (Z.leb_spec MAX_FAILURES (failureCount s)); [left|right]; done. }
  destruct (failedAt s) as [at_|] eqn:Hat.
  - destruct (num_truthy at_) eqn:Htr.
    + destruct (Z.ltb_spec (Date_now tick - at_) COOLDOWN_MS).
      * left. exists at_. done.
      * right; left. exists at_. repeat split; try done.
        rewrite resetKey_currentIndex, resetKey_lookup, decide_True by done.
        rewrite Hsome; simpl. by rewrite resetKey_keys.
    + right; right.
      destruct Hcheck as [[? ->]|[? ->]]; [left|right];
        (split; [intros ? [= <-]; done | done]).
  - right; right.
    destruct Hcheck as [[? ->]|[? ->]]; [left|right]; (split; [done | done]).
Qed.


Lemma cooldown_reset_widen t1 t2 t1' t2' s s' :
  t1' ≤ t1 → t2 ≤ t2' →
  cooldown_reset Date_now t1 t2 s s' → cooldown_reset Date_now t1' t2' s s'.
Proof.
  intros ? ? [->|[-> (a & n & ? & ? & ? & ?)]]; [by left|right].
  split; [done|]. exists a, n. repeat split; try done; lia.
Qed.

(** [getNextKey] on a well-formed pool returns one of its keys, keeps the
    pool well formed, and only clears statuses whose cooldown is over. *)
Lemma getNextKey_loop_spec remaining start this tick :
  pool_wf this → start < length (keys this) →
  ∃ key this' tick',
    getNextKey_loop Date_now remaining start this tick =
      (Normal (Some key), this', tick') ∧
    key ∈ keys this ∧ pool_wf this' ∧ keys this' = keys this ∧ tick ≤ tick' ∧
    ∀ i s, keyStatuses this !! i = Some s →
           ∃ s', keyStatuses this' !! i = Some s' ∧
                 cooldown_reset Date_now tick tick' s s'.
Proof.
  revert this tick.
  induction remaining as [|remaining IH]; intros this tick Hwf Hstart.
  - destruct (lookup_lt_is_Some_2 (keys this) start Hstart) as [key Hkey].
    exists key, this, tick. cbn [getNextKey_loop]. rewrite Hkey.
    split_and!; try done.
    + eapply list_elem_of_lookup_2; eauto.
    + intros i s Hi. exists s. split; [done | by left].
  - destruct (getNextKey_loop_cases remaining start this tick Hwf)
      as (s & Hs & [(a & Ha & Htr & Hlt & ->)|[(a & Ha & Htr & Hge & ->)
                   |[(Hnf & Hmax & ->)|(Hnf & Hmax & ->)]]]).
    + destruct (IH (advance this) (S tick)) as (key & this' & tick' & -> & ? & ? & ? & ? & Hev);
        [by apply wf_advance | done |].
      exists key, this', tick'. split_and!; try done; try lia.
      intros i s0 Hi. destruct (Hev i s0 Hi) as (s' & ? & ?).
      exists s'. split; [done|]. eapply cooldown_reset_widen; [| |done]; lia.
    + pose proof Hwf as [Hc Hdom].
      destruct (lookup_lt_is_Some_2 (keys this) _ Hc) as [key Hkey].
      exists key, (advance (resetKey (currentIndex this) this)), (S tick).
      rewrite Hkey. split_and!; try done; try lia.
      * eapply list_elem_of_lookup_2; eauto.
      * by apply wf_advance, wf_resetKey.
      * simpl. apply resetKey_keys.
      * intros i s0 Hi. cbn [advance set_currentIndex keyStatuses].
        rewrite resetKey_lookup. case_decide as Hic.
        -- subst i. rewrite Hi; simpl. eexists; split; [done|]. right.
           rewrite Hs in Hi; injection Hi as <-. split; [done|].
           exists a, tick. split_and!; try done; lia.
        -- exists s0. split; [done | by left].
    + destruct (IH (advance this) tick) as (key & this' & tick' & -> & ? & ? & ? & ? & Hev);
        [by apply wf_advance | done |].
      exists key, this', tick'. split_and!; try done.
    + pose proof Hwf as [Hc Hdom].
      destruct (lookup_lt_is_Some_2 (keys this) _ Hc) as [key Hkey].
      exists key, (advance this), tick.
      rewrite Hkey. split_and!; try done.
      * eapply list_elem_of_lookup_2; eauto.
      * by apply wf_advance.
      * intros i s0 Hi. exists s0. split; [done | by left].
Qed.

Lemma getNextKey_spec this tick :
  pool_wf this →
  ∃ key this' tick',
    getNextKey Date_now this tick = (Normal (Some key), this', tick') ∧
    key ∈ keys this ∧ pool_wf this' ∧ keys this' = keys this ∧ tick ≤ tick' ∧
    ∀ i s, keyStatuses this !! i = Some s →
           ∃ s', keyStatuses this' !! i = Some s' ∧
                 cooldown_reset Date_now tick tick' s s'.
Proof. intros Hwf. unfold getNextKey. apply getNextKey_loop_spec; [done | by destruct Hwf]. Qed.

Lemma indexOf_Some l k i : indexOf l k = Some i → l !! i = Some k.
Proof.
  revert i. induction l as [|y l IH]; intros i; simpl; [done|].
  destruct (String.eqb_spec y k) as [->|Hne].
  - by intros [= <-].
  - destruct (indexOf l k) as [j|]; simpl; [|done].
    intros [= <-]. simpl. by apply IH.
Qed.

Lemma indexOf_NoDup l k i : NoDup l → l !! i = Some k → indexOf l k = Some i.
Proof.
  intros Hnd Hi.
  assert (k ∈ l) as Hin by (eapply list_elem_of_lookup_2; eauto).
  assert (is_Some (indexOf l k)) as [j Hj].
  { clear Hi Hnd. induction l as [|y l IH]; [by apply elem_of_nil in Hin|].
    simpl. destruct (String.eqb_spec y k); [by eexists|].
    apply elem_of_cons in Hin as [->|Hin]; [done|].
    destruct (IH Hin) as [j ->]. by eexists. }
  rewrite Hj. f_equal. apply indexOf_Some in Hj.
  eapply NoDup_lookup; eauto.
Qed.

Lemma keyStatuses_marked idx x this :
  keyStatuses (if (currentIndex (set_keyStatus idx x this) =? idx)%nat
               then advance (set_keyStatus idx x this)
               else set_keyStatus idx x this) =
  <[idx := x]> (keyStatuses this).
Proof. by destruct (currentIndex (set_keyStatus idx x this) =? idx)%nat. Qed.

(** [markKeyFailed] on a well-formed pool. *)
Lemma markKeyFailed_spec key this tick :
  pool_wf this →
  ∃ this' tick',
    markKeyFailed Date_now key this tick = (Normal tt, this', tick') ∧
    pool_wf this' ∧ keys this' = keys this ∧ tick ≤ tick' ∧
    ∀ i s, keyStatuses this !! i = Some s →
      ∃ s', keyStatuses this' !! i = Some s' ∧
        (s' = s ∨
         (∃ k, key = Some k ∧ indexOf (keys this) k = Some i) ∧ tick' = S tick ∧
         s' = {| index := index s; failedAt := Some (Date_now tick);
                 failureCount := (failureCount s + 1)%Z |}).
Proof.
  intros Hwf. unfold markKeyFailed.
  assert (∀ i s, keyStatuses this !! i = Some s →
      ∃ s', keyStatuses this !! i = Some s' ∧
        (s' = s ∨
         (∃ k, key = Some k ∧ indexOf (keys this) k = Some i) ∧ tick = S tick ∧
         s' = {| index := index s; failedAt := Some (Date_now tick);
                 failureCount := (failureCount s + 1)%Z |})) as Hsame
    by (intros i s Hi; exists s; split; [done | by left]).
  destruct key as [k|]; [|by exists this, tick].
  destruct (indexOf (keys this) k) as [idx|] eqn:Hidx; [|by exists this, tick].
  clear Hsame.
  pose proof (indexOf_Some _ _ _ Hidx) as Hk.
  apply lookup_lt_Some in Hk.
  destruct (proj2 (proj2 Hwf idx) Hk) as [s Hs]. rewrite Hs.
  eexists _, _. split; [done|].
  assert (pool_wf (set_keyStatus idx
            {| index := index s; failedAt := Some (Date_now tick);
               failureCount := (failureCount s + 1)%Z |} this)) as Hwf1
    by (by apply wf_set_keyStatus).
  split_and!.
  - case_match; [by apply wf_advance | apply Hwf1].
  - by case_match.
  - lia.
  - intros i s0 Hi.
    rewrite keyStatuses_marked, lookup_insert. case_decide as Hii.
    + subst i. rewrite Hs in Hi; injection Hi as <-.
      eexists; split; [done|]. right. split_and!; eauto.
    + exists s0. split; [done | by left].
Qed.


(** *** Round-robin selection *)

Lemma getNextKey_untouched this tick s :
  pool_wf this →
  keyStatuses this !! currentIndex this = Some s →
  (∀ at_, failedAt s = Some at_ → num_truthy at_ = false) →
  (failureCount s < MAX_FAILURES)%Z →
  getNextKey Date_now this tick =
    (Normal (keys this !! currentIndex this), advance this, tick).
Proof.
  intros Hwf Hs Hnf Hcount. unfold getNextKey.
  destruct (length (keys this)) as [|n] eqn:Hlen; [destruct Hwf; lia|].
  destruct (getNextKey_loop_cases n (currentIndex this) this tick Hwf)
    as (s' & Hs' & Hcases).
  rewrite Hs in Hs'; injection Hs' as <-.
  destruct Hcases as [(a & Ha & Htr & _)|[(a & Ha & Htr & _)
                     |[(_ & Hmax & _)|(_ & _ & ->)]]]; try done.
  - rewrite (Hnf _ Ha) in Htr; done.
  - rewrite (Hnf _ Ha) in Htr; done.
  - lia.
Qed.

Lemma set_currentIndex_same this :
  set_currentIndex (currentIndex this) this = this.
Proof. by destruct this. Qed.

Lemma getNextKey_n_untouched n this tick :
  pool_wf this →
  (∀ i s, keyStatuses this !! i = Some s →
          failedAt s = None ∧ failureCount s = 0%Z) →
  getNextKey_n Date_now n this tick =
    (map (λ d, Normal (keys this !! ((currentIndex this + d) mod length (keys this))))
         (seq 0 n),
     set_currentIndex ((currentIndex this + n) mod length (keys this)) this,
     tick).
Proof.
  revert this. induction n as [|n IH]; intros this Hwf Hnf.
  - cbn [getNextKey_n seq map]. rewrite Nat.add_0_r, Nat.mod_small by (by destruct Hwf).
    by rewrite set_currentIndex_same.
  - cbn [getNextKey_n].
    destruct (proj2 (proj2 Hwf (currentIndex this)) (proj1 Hwf)) as [s Hs].
    destruct (Hnf _ _ Hs) as [Hat Hcount].
    rewrite (getNextKey_untouched this tick s Hwf Hs);
      [|by rewrite Hat|by rewrite Hcount].
    rewrite IH; [|by apply wf_advance|done].
    cbn [seq map advance set_currentIndex keys currentIndex].
    assert (length (keys this) ≠ 0) as Hlen by (destruct Hwf; lia).
    f_equal. f_equal.
    + f_equal.
      * by rewrite Nat.add_0_r, Nat.mod_small by (by destruct Hwf).
      * rewrite <- seq_shift, map_map. apply map_ext. intros d.
        rewrite Nat.Div0.add_mod_idemp_l. do 3 f_equal. lia.
    + unfold set_currentIndex, advance; cbn [keys keyStatuses set_currentIndex].
      f_equal. rewrite Nat.Div0.add_mod_idemp_l. f_equal. lia.
Qed.

Lemma rotate_nat_add_mod (base offset len : nat) :
  rotate_nat_add base offset len = (base + offset) mod len.
Proof.
  unfold rotate_nat_add. by rewrite <- Nat2Z.inj_add, <- Nat2Z.inj_mod, Nat2Z.id.
Qed.

Lemma cyclic_reads_rotate (l : list string) (c : nat) :
  c < length l →
  map (λ d, Normal (l !! ((c + d) mod length l))) (seq 0 (length l)) =
  map (λ k, Normal (Some k)) (rotate c l).
Proof.
  intros Hc. apply list_eq. intros i.
  rewrite !list_lookup_fmap.
  destruct (decide (i < length l)) as [Hi|Hi].
  - rewrite lookup_seq_lt by done. rewrite lookup_rotate_r by done. simpl.
    rewrite rotate_nat_add_mod.
    destruct (lookup_lt_is_Some_2 l ((c + i) mod length l)) as [k ->]; [|done].
    apply Nat.mod_upper_bound. lia.
  - rewrite lookup_seq_ge by lia.
    rewrite (lookup_ge_None_2 (rotate c l)); [done|].
    rewrite length_rotate. lia.
Qed.

Lemma rotate_Permutation {A} (l : list A) (c : nat) : rotate c l ≡ₚ l.
Proof.
  unfold rotate. rewrite Permutation_app_comm. by rewrite take_drop.
Qed.

(** The state after [j] calls on a fresh pool. *)
Lemma fresh_after_calls apiKeys j tick :
  getNextKey_n Date_now j (constructor apiKeys) tick =
    (map (λ d, Normal (keys (constructor apiKeys)
                         !! (d mod length (keys (constructor apiKeys)))))
       (seq 0 j),
     set_currentIndex (j mod length (keys (constructor apiKeys)))
       (constructor apiKeys),
     tick).
Proof.
  rewrite getNextKey_n_untouched; [done|apply constructor_wf|].
  intros i s. unfold constructor at 1; cbn [keyStatuses].
  rewrite init_statuses_lookup. case_decide; [|done]. by intros [= <-].
Qed.

(** C5. From a freshly constructed pool of N keys on which no failure has
    been marked (after any number [j] of earlier [getNextKey()] calls,
    which leave the cursor at [j mod N]), N consecutive [getNextKey()]
    calls return the keys in cyclic order starting at the cursor: the
    results are the key list rotated by the cursor, a permutation of the
    key list, and the pool is back in the state it started from. *)
Theorem C5_round_robin_fairness apiKeys j tick :
  let fresh := constructor apiKeys in
  let N := length (keys fresh) in
  let '(_, pool, tick1) := getNextKey_n Date_now j fresh tick in
  currentIndex pool = j mod N ∧
  getNextKey_n Date_now N pool tick1 =
    (map (λ k, Normal (Some k)) (rotate (currentIndex pool) (keys fresh)),
     pool, tick1) ∧
  rotate (currentIndex pool) (keys fresh) ≡ₚ keys fresh.
Proof.
  cbv zeta. rewrite fresh_after_calls.
  set (fresh := constructor apiKeys). set (N := length (keys fresh)).
  assert (0 < N) as HN by apply constructor_keys_nonempty.
  assert (j mod N < N) as Hj by (apply Nat.mod_upper_bound; lia).
  split; [done|]. split; [|apply rotate_Permutation].
  rewrite getNextKey_n_untouched.
  - cbn [set_currentIndex keys currentIndex]. subst N.
    rewrite cyclic_reads_rotate by done. f_equal. f_equal.
    unfold set_currentIndex; cbn [keys keyStatuses]. f_equal.
    rewrite <- Nat.Div0.add_mod_idemp_r, Nat.Div0.mod_same, Nat.add_0_r.
    by rewrite Nat.Div0.mod_mod.
  - split; cbn [set_currentIndex keys currentIndex keyStatuses]; [done|].
    apply constructor_wf.
  - intros i s. cbn [set_currentIndex keyStatuses].
    unfold fresh, constructor; cbn [keyStatuses].
    rewrite init_statuses_lookup. case_decide; [|done]. by intros [= <-].
Qed.


(** *** The failure counter *)

Lemma run_call_spec c this tick :
  pool_wf this →
  (∀ i s, keyStatuses this !! i = Some s → (0 ≤ failureCount s)%Z) →
  pool_wf (run_call Date_now c (this, tick)).1 ∧
  keys (run_call Date_now c (this, tick)).1 = keys this ∧
  (∀ i s, keyStatuses (run_call Date_now c (this, tick)).1 !! i = Some s →
          (0 ≤ failureCount s)%Z) ∧
  ∀ i s s',
    keyStatuses this !! i = Some s →
    keyStatuses (run_call Date_now c (this, tick)).1 !! i = Some s' →
    failureCount_step Date_now c (keys this) tick
      (run_call Date_now c (this, tick)).2 i s s'.
Proof.
  intros Hwf Hpos. destruct c as [|key|idx]; cbn [run_call fst snd].
  - destruct (getNextKey_spec this tick Hwf)
      as (key & this' & tick' & -> & _ & Hwf' & Hkeys & Hle & Hev).
    cbn [fst snd]. split_and!; try done.
    + intros i s' Hi'.
      assert (is_Some (keyStatuses this !! i)) as [s Hi].
      { apply Hwf. rewrite <- Hkeys. apply Hwf'. by eexists. }
      destruct (Hev i s Hi) as (s2 & Hs2 & Hcr).
      rewrite Hs2 in Hi'; injection Hi' as <-.
      destruct Hcr as [->|[-> _]]; [by eapply Hpos | done].
    + intros i s s' Hi Hi'.
      destruct (Hev i s Hi) as (s2 & Hs2 & Hcr).
      rewrite Hs2 in Hi'; injection Hi' as <-.
      destruct Hcr as [->|[-> (a & n & ? & ? & ? & ?)]]; [by left|].
      right; right. split; [done|]. right. split; [done|]. by exists a, n.
  - destruct (markKeyFailed_spec key this tick Hwf)
      as (this' & tick' & -> & Hwf' & Hkeys & Hle & Hev).
    cbn [fst snd]. split_and!; try done.
    + intros i s' Hi'.
      assert (is_Some (keyStatuses this !! i)) as [s Hi].
      { apply Hwf. rewrite <- Hkeys. apply Hwf'. by eexists. }
      destruct (Hev i s Hi) as (s2 & Hs2 & Hcr).
      rewrite Hs2 in Hi'; injection Hi' as <-.
      destruct Hcr as [->|(_ & _ & ->)]; [by eapply Hpos|].
      cbn [failureCount]. specialize (Hpos i s Hi). lia.
    + intros i s s' Hi Hi'.
      destruct (Hev i s Hi) as (s2 & Hs2 & Hcr).
      rewrite Hs2 in Hi'; injection Hi' as <-.
      destruct Hcr as [->|((k & -> & Hk) & _ & ->)]; [by left|].
      right; left. split; [done|]. by exists k.
  - split_and!.
    + by apply wf_resetKey.
    + apply resetKey_keys.
    + intros i s'. rewrite resetKey_lookup. case_decide.
      * destruct (keyStatuses this !! i); simpl; [|done]. by intros [= <-].
      * apply Hpos.
    + intros i s s' Hi. rewrite resetKey_lookup. case_decide as Hidx.
      * subst idx. rewrite Hi; simpl. intros [= <-].
        right; right. split; [done | by left].
      * rewrite Hi. intros [= <-]. by left.
Qed.

Lemma run_calls_invariant cs this tick :
  pool_wf this →
  (∀ i s, keyStatuses this !! i = Some s → (0 ≤ failureCount s)%Z) →
  pool_wf (run_calls Date_now cs (this, tick)).1 ∧
  keys (run_calls Date_now cs (this, tick)).1 = keys this ∧
  ∀ i s, keyStatuses (run_calls Date_now cs (this, tick)).1 !! i = Some s →
         (0 ≤ failureCount s)%Z.
Proof.
  revert this tick. induction cs as [|c cs IH]; intros this tick Hwf Hpos.
  - done.
  - cbn [run_calls fold_left].
    destruct (run_call_spec c this tick Hwf Hpos) as (Hwf' & Hkeys & Hpos' & _).
    destruct (run_call Date_now c (this, tick)) as [this' tick'].
    destruct (IH this' tick' Hwf' Hpos') as (? & Hkeys' & ?).
    cbn [fst] in Hkeys. split_and!; try done. by rewrite <- Hkeys.
Qed.

(** Every state a pool reaches from its construction is well formed. *)
Lemma reachable_wf apiKeys cs :
  pool_wf (run_calls Date_now cs (constructor apiKeys, 0)).1.
Proof.
  apply run_calls_invariant; [apply constructor_wf|].
  intros i s. unfold constructor; cbn [keyStatuses].
  rewrite init_statuses_lookup. case_decide; [|done]. by intros [= <-].
Qed.

(** C7, as the code has it. In every state a pool reaches from its
    construction, every key's [failureCount] is a non-negative integer,
    and any further call changes it in one of three ways only: it is left
    alone; [markKeyFailed] on that key adds one; or it is set to 0, by
    [resetKey] on that slot or by a [getNextKey] call one of whose clock
    readings found the key's cooldown over.  Nothing bounds the count by
    [MAX_FAILURES]. *)
Theorem C7_failureCount_evolution apiKeys cs c :
  let '(this, tick) := run_calls Date_now cs (constructor apiKeys, 0) in
  let '(this', tick') := run_call Date_now c (this, tick) in
  (∀ i s, keyStatuses this !! i = Some s → (0 ≤ failureCount s)%Z) ∧
  ∀ i s s',
    keyStatuses this !! i = Some s →
    keyStatuses this' !! i = Some s' →
    failureCount_step Date_now c (keys this) tick tick' i s s'.
Proof.
  assert (∀ i s, keyStatuses (constructor apiKeys) !! i = Some s →
                 (0 ≤ failureCount s)%Z) as Hpos0.
  { intros i s. unfold constructor; cbn [keyStatuses].
    rewrite init_statuses_lookup. case_decide; [|done]. by intros [= <-]. }
  destruct (run_calls_invariant cs _ 0 (constructor_wf apiKeys) Hpos0)
    as (Hwf & _ & Hpos).
  destruct (run_calls Date_now cs (constructor apiKeys, 0)) as [this tick].
  cbn [fst] in *.
  destruct (run_call_spec c this tick Hwf Hpos) as (_ & _ & _ & Hstep).
  destruct (run_call Date_now c (this, tick)) as [this' tick'].
  by split.
Qed.


Lemma markKeyFailed_found k idx s this tick :
  indexOf (keys this) k = Some idx →
  keyStatuses this !! idx = Some s →
  ∃ this',
    markKeyFailed Date_now (Some k) this tick = (Normal tt, this', S tick) ∧
    keys this' = keys this ∧
    keyStatuses this' =
      <[idx := {| index := index s; failedAt := Some (Date_now tick);
                  failureCount := (failureCount s + 1)%Z |}]> (keyStatuses this).
Proof.
  intros Hidx Hs. unfold markKeyFailed. rewrite Hidx, Hs.
  eexists. split; [done|].
  split; by destruct (currentIndex _ =? idx)%nat.
Qed.

(** *** Cooldown *)

Lemma candidate_next (c j N d remaining : nat) :
  c < N → c ≠ j → d < S remaining → (c + d) mod N = j →
  ∃ d', d' < remaining ∧ ((c + 1) mod N + d') mod N = j.
Proof.
  intros Hc Hcj Hd Hj. destruct d as [|d'].
  - rewrite Nat.add_0_r, Nat.mod_small in Hj by done. done.
  - exists d'. split; [lia|].
    rewrite Nat.Div0.add_mod_idemp_l. rewrite <- Hj. f_equal. lia.
Qed.

Lemma candidate_first (c j N : nat) :
  c < N → j < N → ∃ d, d < N ∧ (c + d) mod N = j.
Proof.
  intros Hc Hj. exists ((j + N - c) mod N). split.
  - apply Nat.mod_upper_bound. lia.
  - rewrite Nat.Div0.add_mod_idemp_r.
    replace (c + (j + N - c)) with (j + N) by lia.
    rewrite <- Nat.Div0.add_mod_idemp_r, Nat.Div0.mod_same, Nat.add_0_r.
    by apply Nat.mod_small.
Qed.

Lemma getNextKey_loop_avoids remaining start this tick tick0 idx j at_ :
  num_truthy at_ = true →
  (∀ n, tick0 ≤ n → (Date_now n - at_ < COOLDOWN_MS)%Z) →
  j ≠ idx → tick0 ≤ tick →
  cooldown_inv Date_now tick0 idx j at_ this →
  (∃ d, d < remaining ∧ (currentIndex this + d) mod length (keys this) = j) →
  ∃ i key this' tick',
    getNextKey_loop Date_now remaining start this tick =
      (Normal (Some key), this', tick') ∧
    keys this !! i = Some key ∧ i ≠ idx ∧
    cooldown_inv Date_now tick0 idx j at_ this' ∧
    keys this' = keys this ∧ tick ≤ tick'.
Proof.
  intros Htr Hclock Hji. revert this tick.
  induction remaining as [|remaining IH];
    intros this tick Htick (Hwf & (sx & Hsx & Hsxat) & (sj & Hsj & Hsel)) (d & Hd & Hdj);
    [lia|].
  pose proof Hwf as [Hc Hdom].
  assert (∀ tick1, tick ≤ tick1 → currentIndex this ≠ j →
    ∃ i key this' tick',
      getNextKey_loop Date_now remaining start (advance this) tick1 =
        (Normal (Some key), this', tick') ∧
      keys this !! i = Some key ∧ i ≠ idx ∧
      cooldown_inv Date_now tick0 idx j at_ this' ∧
      keys this' = keys this ∧ tick ≤ tick') as Hskip.
  { intros tick1 Htick1 Hcj.
    destruct (IH (advance this) tick1) as (i & key & this' & tick' & ? & ? & ? & ? & ? & ?).
    - lia.
    - split; [by apply wf_advance|]. split; [by exists sx | by exists sj].
    - eapply candidate_next; eauto.
    - exists i, key, this', tick'. split_and!; try done. lia. }
  destruct (getNextKey_loop_cases remaining start this tick Hwf)
    as (s & Hs & [(a & Ha & Hatr & Hlt & ->)|[(a & Ha & Hatr & Hge & ->)
                 |[(Hnf & Hmax & ->)|(Hnf & Hmax & ->)]]]).
  - (* in cooldown: passed over *)
    apply Hskip; [lia|]. intros Hcj. rewrite Hcj in Hs.
    rewrite Hsj in Hs; injection Hs as ->.
    unfold selectable in Hsel. rewrite Ha, Hatr in Hsel.
    specialize (Hsel tick Htick). lia.
  - (* cooldown over: cleared and selected *)
    destruct (decide (currentIndex this = idx)) as [Hci|Hci].
    { subst idx. rewrite Hsx in Hs; injection Hs as ->.
      rewrite Hsxat in Ha; injection Ha as ->.
      specialize (Hclock tick Htick). lia. }
    destruct (lookup_lt_is_Some_2 (keys this) _ Hc) as [key Hkey].
    exists (currentIndex this), key,
      (advance (resetKey (currentIndex this) this)), (S tick). rewrite Hkey.
    split_and!; try done; try lia.
    + split; [by apply wf_advance, wf_resetKey|].
      cbn [advance set_currentIndex keyStatuses]. split.
      * exists sx. by rewrite resetKey_lookup, decide_False.
      * rewrite resetKey_lookup. case_decide as Hcj.
        -- rewrite Hsj. eexists; split; [done|].
           unfold selectable; simpl. done.
        -- by exists sj.
    + cbn [advance set_currentIndex keys]. apply resetKey_keys.
  - (* no live failure, quarantined: passed over *)
    apply Hskip; [lia|]. intros Hcj. rewrite Hcj in Hs.
    rewrite Hsj in Hs; injection Hs as ->.
    unfold selectable in Hsel.
    destruct (failedAt s) as [a|] eqn:Ha; [rewrite (Hnf a) in Hsel by done|]; lia.
  - (* no live failure: selected *)
    destruct (decide (currentIndex this = idx)) as [Hci|Hci].
    { subst idx. rewrite Hsx in Hs; injection Hs as ->.
      rewrite (Hnf _ Hsxat) in Htr. done. }
    destruct (lookup_lt_is_Some_2 (keys this) _ Hc) as [key Hkey].
    exists (currentIndex this), key, (advance this), tick. rewrite Hkey.
    split_and!; try done.
    split; [by apply wf_advance|]. split; [by exists sx | by exists sj].
Qed.

Lemma getNextKey_n_avoids m this tick tick0 idx j at_ :
  num_truthy at_ = true →
  (∀ n, tick0 ≤ n → (Date_now n - at_ < COOLDOWN_MS)%Z) →
  j ≠ idx → tick0 ≤ tick →
  cooldown_inv Date_now tick0 idx j at_ this →
  Forall (λ r, ∃ i key, r = Normal (Some key) ∧ keys this !! i = Some key ∧ i ≠ idx)
         (getNextKey_n Date_now m this tick).1.1.
Proof.
  intros Htr Hclock Hji. revert this tick.
  induction m as [|m IH]; intros this tick Htick Hinv; [by constructor|].
  cbn [getNextKey_n]. unfold getNextKey.
  destruct (getNextKey_loop_avoids (length (keys this)) (currentIndex this)
              this tick tick0 idx j at_ Htr Hclock Hji Htick Hinv)
    as (i & key & this' & tick' & -> & Hkey & Hi & Hinv' & Hkeys & Hle).
  { destruct Hinv as (Hwf & _ & (sj & Hsj & _)).
    apply candidate_first; [apply (proj1 Hwf)|].
    apply (proj2 Hwf). by exists sj. }
  specialize (IH this' tick' ltac:(lia) Hinv').
  destruct (getNextKey_n Date_now m this' tick') as [[rs this2] tick2].
  cbn [fst] in *. constructor.
  - by exists i, key.
  - by rewrite <- Hkeys.
Qed.

(** *** Quarantine *)



(** C4, as the code has it. In a pool of distinct keys, after
    [markKeyFailed(k)] stamps a (non-zero) failure time on [k], every
    [getNextKey()] call made while the clock readings stay less than
    [COOLDOWN_MS] after that time returns a key different from [k], however
    many calls are made, provided the pool holds another key that is
    selectable (no live cooldown, fewer than [MAX_FAILURES] failures).  When
    every key is passed over, [getNextKey] falls back to the key under the
    starting cursor, which can be [k]. *)
Theorem C4_cooldown_isolation this tick k idx j sj m :
  pool_wf this → NoDup (keys this) → keys this !! idx = Some k →
  j ≠ idx → keyStatuses this !! j = Some sj → selectable Date_now (S tick) sj →
  Date_now tick ≠ 0%Z →
  (∀ n, tick < n → (Date_now n - Date_now tick < COOLDOWN_MS)%Z) →
  let '(_, marked, tick1) := markKeyFailed Date_now (Some k) this tick in
  Forall (λ r, ∃ key, r = Normal (Some key) ∧ key ≠ k)
         (getNextKey_n Date_now m marked tick1).1.1.
Proof.
  intros Hwf Hnd Hk Hji Hsj Hsel Hnz Hclock.
  destruct (markKeyFailed_spec (Some k) this tick Hwf)
    as (marked & tick1 & Heq & Hwf1 & Hkeys & Hle & Hev).
  rewrite Heq.
  pose proof (indexOf_NoDup _ _ _ Hnd Hk) as Hidx.
  assert (is_Some (keyStatuses this !! idx)) as [sx Hsx]
    by (apply Hwf; by eapply lookup_lt_Some).
  destruct (Hev idx sx Hsx) as (sx' & Hsx' & Hcase).
  assert (failedAt sx' = Some (Date_now tick) ∧ tick1 = S tick) as [Hat ->].
  { destruct (markKeyFailed_found k idx sx this tick Hidx Hsx)
      as (this' & Heq' & _ & Hst).
    rewrite Heq' in Heq. injection Heq as <- <-. split; [|done].
    rewrite Hst, lookup_insert_eq in Hsx'. by injection Hsx' as <-. }
  assert (keyStatuses marked !! j = Some sj) as Hsj'.
  { destruct (Hev j sj Hsj) as (s' & Hs' & [->|((k' & [= <-] & Hk') & _)]); [done|].
    rewrite Hidx in Hk'. by injection Hk' as ->. }
  eapply List.Forall_impl;
    [|apply (getNextKey_n_avoids m marked (S tick) (S tick) idx j (Date_now tick))].
  - intros r (i & key & -> & Hkey & Hi). exists key. split; [done|].
    intros ->. apply Hi. rewrite Hkeys in Hkey.
    eapply NoDup_lookup; eauto.
  - unfold num_truthy. by destruct (Z.eqb_spec (Date_now tick) 0).
  - intros n Hn. apply Hclock. lia.
  - done.
  - done.
  - split; [done|]. split; [by exists sx' | by exists sj].
Qed.

End PoolFacts.


(** C7, the sentence as written fails: nothing caps the counter.  Four
    [markKeyFailed] calls on the only key of a pool, inside its cooldown
    window, leave its [failureCount] at 4, above [MAX_FAILURES]. *)
Lemma C7_counterexample :
  let '(this, _) :=
    run_calls frozen_clock
      [MarkKeyFailed (Some "k1"); MarkKeyFailed (Some "k1");
       MarkKeyFailed (Some "k1"); MarkKeyFailed (Some "k1")]
      (ApiKeyRotation.constructor (inr ["k1"]), 0) in
  ∃ s, ApiKeyRotation.keyStatuses this !! 0 = Some s ∧
       (ApiKeyRotation.MAX_FAILURES < ApiKeyRotation.failureCount s)%Z.
Proof. vm_compute. eexists. split; [reflexivity | reflexivity]. Qed.

(** C4, the sentence as written fails: in a pool with the single key
    [k1], the [getNextKey()] call that follows [markKeyFailed(k1)] with no
    time elapsed finds every key in cooldown and falls back to [k1]. *)
Lemma C4_counterexample :
  let '(_, marked, tick) :=
    ApiKeyRotation.markKeyFailed frozen_clock (Some "k1")
      (ApiKeyRotation.constructor (inr ["k1"])) 0 in
  (frozen_clock tick - frozen_clock 0 < ApiKeyRotation.COOLDOWN_MS)%Z ∧
  (ApiKeyRotation.getNextKey frozen_clock marked tick).1.1 = Normal (Some "k1").
Proof. vm_compute. done. Qed.



(** C4 at a concrete input: the fresh pool [k1, k2], [k1] marked failed,
    then five [getNextKey()] calls with the clock standing still. *)
Lemma C4_cooldown_isolation_witness :
  let '(_, marked, tick1) :=
    ApiKeyRotation.markKeyFailed frozen_clock (Some "k1")
      (ApiKeyRotation.constructor (inr ["k1"; "k2"])) 0 in
  Forall (λ r, ∃ key, r = Normal (Some key) ∧ key ≠ "k1")
         (getNextKey_n frozen_clock 5 marked tick1).1.1.
Proof.
  apply (C4_cooldown_isolation frozen_clock
           (ApiKeyRotation.constructor (inr ["k1"; "k2"])) 0 "k1" 0 1
           {| ApiKeyRotation.index := 1; ApiKeyRotation.failedAt := None;
              ApiKeyRotation.failureCount := 0 |} 5).
  - apply constructor_wf.
  - apply (bool_decide_unpack _). vm_compute. exact I.
  - reflexivity.
  - lia.
  - vm_compute. reflexivity.
  - vm_compute. reflexivity.
  - discriminate.
  - intros n _. vm_compute. reflexivity.
Defined.

(** C7 at a concrete input: in the pool with the single key [k1], already
    marked failed once, a second [markKeyFailed(k1)] takes the count of
    slot 0 from 1 to 2. *)
Lemma C7_failureCount_evolution_witness :
  failureCount_step frozen_clock (MarkKeyFailed (Some "k1")) ["k1"] 1 2 0
    {| ApiKeyRotation.index := 0; ApiKeyRotation.failedAt := Some 1000%Z;
       ApiKeyRotation.failureCount := 1 |}
    {| ApiKeyRotation.index := 0; ApiKeyRotation.failedAt := Some 1000%Z;
       ApiKeyRotation.failureCount := 2 |}.
Proof.
  pose proof (C7_failureCount_evolution frozen_clock (inr ["k1"])
                [MarkKeyFailed (Some "k1")] (MarkKeyFailed (Some "k1"))) as H.
  destruct (run_calls frozen_clock [MarkKeyFailed (Some "k1")]
              (ApiKeyRotation.constructor (inr ["k1"]), 0)) as [this tick] eqn:E1.
  destruct (run_call frozen_clock (MarkKeyFailed (Some "k1")) (this, tick))
    as [this' tick'] eqn:E2.
  vm_compute in E1. injection E1 as <- <-.
  vm_compute in E2. injection E2 as <- <-.
  destruct H as [_ H]. apply (H 0); reflexivity.
Defined.

(** * Properties of the provider adapters *)

Lemma isRateLimitError_text (msg fallback : string) :
  isRateLimitError msg = true → str_or (Some msg) fallback = msg.
Proof. destruct msg; [discriminate | done]. Qed.

Section GroqFacts.

Import Types GroqService.

Variable Date_now : nat -> Z.
Variable network : nat -> Wire.Request -> Wire.Response.
Variables (lastMessage : Message) (history : list Message) (config : ModelConfig).

(** Every request of a call carries the same body. *)
Lemma Groq_loop_requests remaining retryCount this io yielded :
  ∃ reqs,
    Wire.sent (streamMessage_loop Date_now network remaining retryCount lastMessage history config this io yielded).2
      = Wire.sent io ++ reqs ∧
    (0 < remaining → reqs ≠ []) ∧
    Forall (λ req, ∃ key,
              req = Wire.GroqCreate key (body_of lastMessage history config)) reqs.
Proof.
  revert retryCount this io yielded.
  induction remaining as [|remaining IH]; intros retryCount this io yielded.
  - exists []. cbn. split_and!; [by rewrite app_nil_r | lia | constructor].
  - cbn [streamMessage_loop]. unfold Wire.send.
    set (req := Wire.GroqCreate (groq this) (body_of lastMessage history config)).
    set (io1 := {| Wire.tick := Wire.tick io; Wire.sent := Wire.sent io ++ [req] |}).
    assert (∃ reqs, Wire.sent io1 = Wire.sent io ++ reqs ∧
              (0 < S remaining → reqs ≠ []) ∧
              Forall (λ req, ∃ key,
                req = Wire.GroqCreate key (body_of lastMessage history config)) reqs)
      as Hone.
    { exists [req]. split_and!; [done | done |]. repeat constructor. by eexists. }
    destruct (Wire.failure (network (length (Wire.sent io)) req)) as [e|]; [|done].
    destruct (isRateLimitError (errorMessage_of e) && (retryCount <? MAX_RETRIES - 1));
      [|done].
    destruct (ApiKeyRotation.markKeyFailed Date_now (currentKey this)
                (keyRotation this) (Wire.tick io1)) as [[[[]|e1] kr] tick1]; [|done].
    destruct (reinitializeWithNewKey Date_now (set_keyRotation kr this) tick1)
      as [[[[]|e2] this'] tick2]; [|done].
    destruct (IH (S retryCount) this' (Wire.set_tick tick2 io1)
                (yielded ++ outputs_of (Wire.chunks (network (length (Wire.sent io)) req))))
      as (reqs & -> & _ & Hall).
    exists (req :: reqs). cbn [Wire.set_tick Wire.sent io1].
    split_and!; [by rewrite <- app_assoc | done |].
    constructor; [by eexists | done].
Qed.

(** One rotation: mark the current key, take the next one. *)
Lemma Groq_rotate this tick :
  pool_wf (keyRotation this) →
  ∃ kr tick1 this' tick2,
    ApiKeyRotation.markKeyFailed Date_now (currentKey this) (keyRotation this) tick
      = (Normal tt, kr, tick1) ∧
    reinitializeWithNewKey Date_now (set_keyRotation kr this) tick1
      = (Normal tt, this', tick2) ∧
    pool_wf (keyRotation this').
Proof.
  intros Hwf.
  destruct (markKeyFailed_spec Date_now (currentKey this) _ tick Hwf)
    as (kr & tick1 & Hmark & Hwf1 & _).
  destruct (getNextKey_spec Date_now kr tick1 Hwf1)
    as (key & kr' & tick2 & Hnext & _ & Hwf2 & _).
  exists kr, tick1, (set_client (Some key) (set_keyRotation kr' (set_keyRotation kr this))), tick2.
  split_and!; [done | | done].
  unfold reinitializeWithNewKey. cbn [set_keyRotation keyRotation]. by rewrite Hnext.
Qed.

Lemma Groq_loop_rate_limited remaining retryCount this io yielded :
  (∀ n req, ∃ e, Wire.failure (network n req) = Some e ∧
                 isRateLimitError (errorMessage_of e) = true) →
  pool_wf (keyRotation this) →
  0 < remaining → remaining + retryCount = MAX_RETRIES →
  ∃ out e this' io' reqs,
    streamMessage_loop Date_now network remaining retryCount lastMessage history config this io yielded
      = (out, Throw (new_Error (errorMessage_of e)), this', io') ∧
    isRateLimitError (errorMessage_of e) = true ∧
    Wire.sent io' = Wire.sent io ++ reqs ∧ length reqs = remaining ∧
    ∃ front req_last,
      reqs = front ++ [req_last] ∧
      Wire.failure (network (length (Wire.sent io) + length front) req_last)
        = Some e.
Proof.
  intros Hnet. revert retryCount this io yielded.
  induction remaining as [|remaining IH]; intros retryCount this io yielded Hwf Hpos Hsum;
    [lia|].
  cbn [streamMessage_loop]. unfold Wire.send.
  set (req := Wire.GroqCreate (groq this) (body_of lastMessage history config)).
  destruct (Hnet (length (Wire.sent io)) req) as (e & He & Hrl).
  rewrite He, Hrl. cbn [andb].
  destruct (decide (remaining = 0)) as [->|Hrem].
  - assert (retryCount = 2) as -> by (unfold MAX_RETRIES in Hsum; lia).
    cbn [Nat.ltb Nat.leb MAX_RETRIES Nat.sub].
    rewrite isRateLimitError_text by done.
    eexists _, e, _, _, [req]. split_and!; try done.
    exists [], req. split; [done|]. cbn [length]. by rewrite Nat.add_0_r.
  - assert ((retryCount <? MAX_RETRIES - 1) = true) as ->
      by (apply Nat.ltb_lt; unfold MAX_RETRIES in *; lia).
    destruct (Groq_rotate this (Wire.tick io) Hwf)
      as (kr & tick1 & this' & tick2 & Hmark & Hre & Hwf').
    cbn [Wire.tick]. rewrite Hmark, Hre.
    edestruct (IH (S retryCount) this')
      as (out & e' & this2 & io2 & reqs & -> & ? & Hsent & Hlen & front & req_last
          & Hreqs & Hlast);
      [done | lia | lia |].
    eexists out, e', this2, io2, (req :: reqs).
    split_and!; [done | done | | simpl; lia |].
    + rewrite Hsent. cbn [Wire.set_tick Wire.sent]. by rewrite <- app_assoc.
    + exists (req :: front), req_last. split; [by rewrite Hreqs|].
      cbn [Wire.set_tick Wire.sent] in Hlast. rewrite length_app in Hlast.
      cbn [length] in Hlast |- *.
      by replace (length (Wire.sent io) + S (length front))
        with (length (Wire.sent io) + 1 + length front) by lia.
Qed.

Lemma Groq_rate_limited this io :
  (∀ n req, ∃ e, Wire.failure (network n req) = Some e ∧
                 isRateLimitError (errorMessage_of e) = true) →
  pool_wf (keyRotation this) →
  ∃ out e this' io' reqs,
    streamMessage Date_now network lastMessage history config this io
      = (out, Throw (new_Error (errorMessage_of e)), this', io') ∧
    isRateLimitError (errorMessage_of e) = true ∧
    Wire.sent io' = Wire.sent io ++ reqs ∧ length reqs = 3 ∧
    ∃ front req_last,
      reqs = front ++ [req_last] ∧
      Wire.failure (network (length (Wire.sent io) + length front) req_last)
        = Some e.
Proof.
  intros Hnet Hwf. unfold streamMessage.
  apply Groq_loop_rate_limited; [done | done | unfold MAX_RETRIES; lia | done].
Qed.

Lemma Groq_other_error this io e :
  (∀ req, Wire.failure (network (length (Wire.sent io)) req) = Some e) →
  isRateLimitError (errorMessage_of e) = false →
  ∃ out this' io' req,
    streamMessage Date_now network lastMessage history config this io
      = (out,
         Throw (new_Error (str_or (Some (errorMessage_of e))
                             "Failed to generate response from Groq")),
         this', io') ∧
    Wire.sent io' = Wire.sent io ++ [req].
Proof.
  intros Hnet Hrl. unfold streamMessage. cbn [streamMessage_loop MAX_RETRIES].
  unfold Wire.send. rewrite Hnet, Hrl. cbn [andb].
  by eexists _, _, _, _.
Qed.

End GroqFacts.

Section OpenRouterFacts.

Import Types OpenRouterService.

Variable Date_now : nat -> Z.
Variable network : nat -> Wire.Request -> Wire.Response.
Variables (lastMessage : Message) (history : list Message) (config : ModelConfig).

(** Every request of a call carries the same body. *)
Lemma OpenRouter_loop_requests remaining retryCount this io yielded :
  ∃ reqs,
    Wire.sent (streamMessage_loop Date_now network remaining retryCount lastMessage history config this io yielded).2
      = Wire.sent io ++ reqs ∧
    (0 < remaining → reqs ≠ []) ∧
    Forall (λ req, ∃ key,
              req = Wire.OpenRouterCreate key (body_of lastMessage history config)) reqs.
Proof.
  revert retryCount this io yielded.
  induction remaining as [|remaining IH]; intros retryCount this io yielded.
  - exists []. cbn. split_and!; [by rewrite app_nil_r | lia | constructor].
  - cbn [streamMessage_loop]. unfold Wire.send.
    set (req := Wire.OpenRouterCreate (openrouter this) (body_of lastMessage history config)).
    set (io1 := {| Wire.tick := Wire.tick io; Wire.sent := Wire.sent io ++ [req] |}).
    assert (∃ reqs, Wire.sent io1 = Wire.sent io ++ reqs ∧
              (0 < S remaining → reqs ≠ []) ∧
              Forall (λ req, ∃ key,
                req = Wire.OpenRouterCreate key (body_of lastMessage history config)) reqs)
      as Hone.
    { exists [req]. split_and!; [done | done |]. repeat constructor. by eexists. }
    destruct (Wire.failure (network (length (Wire.sent io)) req)) as [e|]; [|done].
    destruct (isRateLimitError (errorMessage_of e) && (retryCount <? MAX_RETRIES - 1));
      [|done].
    destruct (ApiKeyRotation.markKeyFailed Date_now (currentKey this)
                (keyRotation this) (Wire.tick io1)) as [[[[]|e1] kr] tick1]; [|done].
    destruct (reinitializeWithNewKey Date_now (set_keyRotation kr this) tick1)
      as [[[[]|e2] this'] tick2]; [|done].
    destruct (IH (S retryCount) this' (Wire.set_tick tick2 io1)
                (yielded ++ outputs_of (Wire.chunks (network (length (Wire.sent io)) req))))
      as (reqs & -> & _ & Hall).
    exists (req :: reqs). cbn [Wire.set_tick Wire.sent io1].
    split_and!; [by rewrite <- app_assoc | done |].
    constructor; [by eexists | done].
Qed.

(** One rotation: mark the current key, take the next one. *)
Lemma OpenRouter_rotate this tick :
  pool_wf (keyRotation this) →
  ∃ kr tick1 this' tick2,
    ApiKeyRotation.markKeyFailed Date_now (currentKey this) (keyRotation this) tick
      = (Normal tt, kr, tick1) ∧
    reinitializeWithNewKey Date_now (set_keyRotation kr this) tick1
      = (Normal tt, this', tick2) ∧
    pool_wf (keyRotation this').
Proof.
  intros Hwf.
  destruct (markKeyFailed_spec Date_now (currentKey this) _ tick Hwf)
    as (kr & tick1 & Hmark & Hwf1 & _).
  destruct (getNextKey_spec Date_now kr tick1 Hwf1)
    as (key & kr' & tick2 & Hnext & _ & Hwf2 & _).
  exists kr, tick1, (set_client (Some key) (set_keyRotation kr' (set_keyRotation kr this))), tick2.
  split_and!; [done | | done].
  unfold reinitializeWithNewKey. cbn [set_keyRotation keyRotation]. by rewrite Hnext.
Qed.

Lemma OpenRouter_loop_rate_limited remaining retryCount this io yielded :
  (∀ n req, ∃ e, Wire.failure (network n req) = Some e ∧
                 isRateLimitError (errorMessage_of e) = true) →
  pool_wf (keyRotation this) →
  0 < remaining → remaining + retryCount = MAX_RETRIES →
  ∃ out e this' io' reqs,
    streamMessage_loop Date_now network remaining retryCount lastMessage history config this io yielded
      = (out, Throw (new_Error (errorMessage_of e)), this', io') ∧
    isRateLimitError (errorMessage_of e) = true ∧
    Wire.sent io' = Wire.sent io ++ reqs ∧ length reqs = remaining ∧
    ∃ front req_last,
      reqs = front ++ [req_last] ∧
      Wire.failure (network (length (Wire.sent io) + length front) req_last)
        = Some e.
Proof.
  intros Hnet. revert retryCount this io yielded.
  induction remaining as [|remaining IH]; intros retryCount this io yielded Hwf Hpos Hsum;
    [lia|].
  cbn [streamMessage_loop]. unfold Wire.send.
  set (req := Wire.OpenRouterCreate (openrouter this) (body_of lastMessage history config)).
  destruct (Hnet (length (Wire.sent io)) req) as (e & He & Hrl).
  rewrite He, Hrl. cbn [andb].
  destruct (decide (remaining = 0)) as [->|Hrem].
  - assert (retryCount = 2) as -> by (unfold MAX_RETRIES in Hsum; lia).
    cbn [Nat.ltb Nat.leb MAX_RETRIES Nat.sub].
    rewrite isRateLimitError_text by done.
    eexists _, e, _, _, [req]. split_and!; try done.
    exists [], req. split; [done|]. cbn [length]. by rewrite Nat.add_0_r.
  - assert ((retryCount <? MAX_RETRIES - 1) = true) as ->
      by (apply Nat.ltb_lt; unfold MAX_RETRIES in *; lia).
    destruct (OpenRouter_rotate this (Wire.tick io) Hwf)
      as (kr & tick1 & this' & tick2 & Hmark & Hre & Hwf').
    cbn [Wire.tick]. rewrite Hmark, Hre.
    edestruct (IH (S retryCount) this')
      as (out & e' & this2 & io2 & reqs & -> & ? & Hsent & Hlen & front & req_last
          & Hreqs & Hlast);
      [done | lia | lia |].
    eexists out, e', this2, io2, (req :: reqs).
    split_and!; [done | done | | simpl; lia |].
    + rewrite Hsent. cbn [Wire.set_tick Wire.sent]. by rewrite <- app_assoc.
    + exists (req :: front), req_last. split; [by rewrite Hreqs|].
      cbn [Wire.set_tick Wire.sent] in Hlast. rewrite length_app in Hlast.
      cbn [length] in Hlast |- *.
      by replace (length (Wire.sent io) + S (length front))
        with (length (Wire.sent io) + 1 + length front) by lia.
Qed.

Lemma OpenRouter_rate_limited this io :
  (∀ n req, ∃ e, Wire.failure (network n req) = Some e ∧
                 isRateLimitError (errorMessage_of e) = true) →
  pool_wf (keyRotation this) →
  ∃ out e this' io' reqs,
    streamMessage Date_now network lastMessage history config this io
      = (out, Throw (new_Error (errorMessage_of e)), this', io') ∧
    isRateLimitError (errorMessage_of e) = true ∧
    Wire.sent io' = Wire.sent io ++ reqs ∧ length reqs = 3 ∧
    ∃ front req_last,
      reqs = front ++ [req_last] ∧
      Wire.failure (network (length (Wire.sent io) + length front) req_last)
        = Some e.
Proof.
  intros Hnet Hwf. unfold streamMessage.
  apply OpenRouter_loop_rate_limited; [done | done | unfold MAX_RETRIES; lia | done].
Qed.

Lemma OpenRouter_other_error this io e :
  (∀ req, Wire.failure (network (length (Wire.sent io)) req) = Some e) →
  isRateLimitError (errorMessage_of e) = false →
  ∃ out this' io' req,
    streamMessage Date_now network lastMessage history config this io
      = (out,
         Throw (new_Error (str_or (Some (errorMessage_of e))
                             "Failed to generate response from OpenRouter")),
         this', io') ∧
    Wire.sent io' = Wire.sent io ++ [req].
Proof.
  intros Hnet Hrl. unfold streamMessage. cbn [streamMessage_loop MAX_RETRIES].
  unfold Wire.send. rewrite Hnet, Hrl. cbn [andb].
  by eexists _, _, _, _.
Qed.

End OpenRouterFacts.

Section GeminiFacts.

Import Types GeminiService.

Variable Date_now : nat -> Z.
Variable network : nat -> Wire.Request -> Wire.Response.
Variables (lastMessage : Message) (history : list Message) (config : ModelConfig).

(** Every request of a call is sent into a session that [initChat] built
    from [config] and [history], and carries the same message. *)
Lemma Gemini_loop_requests remaining retryCount this io yielded :
  ∃ reqs,
    Wire.sent (streamMessage_loop Date_now network remaining retryCount
                 lastMessage history config this io yielded).2
      = Wire.sent io ++ reqs ∧
    (0 < remaining → reqs ≠ []) ∧
    Forall (λ req, ∃ this0 session,
              chat (initChat config history this0) = Some session ∧
              req = Wire.GeminiSendMessageStream session
                      (if (length (parts_of lastMessage) =? 1)%nat
                       then Wire.PayloadText (content lastMessage)
                       else Wire.PayloadParts (parts_of lastMessage))) reqs.
Proof.
  revert retryCount this io yielded.
  induction remaining as [|remaining IH]; intros retryCount this io yielded.
  - exists []. cbn. split_and!; [by rewrite app_nil_r | lia | constructor].
  - cbn [streamMessage_loop]. rewrite orb_true_r.
    set (this1 := initChat config history this).
    destruct (chat this1) as [session|] eqn:Hchat; [|by cbn in Hchat].
    unfold Wire.send.
    set (req := Wire.GeminiSendMessageStream session _).
    set (io1 := {| Wire.tick := Wire.tick io; Wire.sent := Wire.sent io ++ [req] |}).
    assert (∃ this0 session0,
              chat (initChat config history this0) = Some session0 ∧
              req = Wire.GeminiSendMessageStream session0
                      (if (length (parts_of lastMessage) =? 1)%nat
                       then Wire.PayloadText (content lastMessage)
                       else Wire.PayloadParts (parts_of lastMessage))) as Hreq
      by (by exists this, session).
    destruct (Wire.failure (network (length (Wire.sent io)) req)) as [e|].
    2:{ exists [req]. split_and!; [done | done |]. by repeat constructor. }
    destruct (isRateLimitError (errorMessage_of e) && (retryCount <? MAX_RETRIES - 1)).
    2:{ exists [req]. split_and!; [done | done |]. by repeat constructor. }
    destruct (ApiKeyRotation.markKeyFailed Date_now (currentKey this1)
                (keyRotation this1) (Wire.tick io1)) as [[[[]|e1] kr] tick1].
    2:{ exists [req]. split_and!; [done | done |]. by repeat constructor. }
    destruct (reinitializeWithNewKey Date_now (set_keyRotation kr this1) tick1)
      as [[[[]|e2] this'] tick2].
    2:{ exists [req]. split_and!; [done | done |]. by repeat constructor. }
    destruct (IH (S retryCount) this' (Wire.set_tick tick2 io1)
                (yielded ++ map output_of (Wire.chunks (network (length (Wire.sent io)) req))))
      as (reqs & -> & _ & Hall).
    exists (req :: reqs). cbn [Wire.set_tick Wire.sent io1].
    split_and!; [by rewrite <- app_assoc | done |].
    by constructor.
Qed.

Lemma Gemini_rotate this tick :
  pool_wf (keyRotation this) →
  ∃ kr tick1 this' tick2,
    ApiKeyRotation.markKeyFailed Date_now (currentKey this) (keyRotation this) tick
      = (Normal tt, kr, tick1) ∧
    reinitializeWithNewKey Date_now (set_keyRotation kr this) tick1
      = (Normal tt, this', tick2) ∧
    pool_wf (keyRotation this').
Proof.
  intros Hwf.
  destruct (markKeyFailed_spec Date_now (currentKey this) _ tick Hwf)
    as (kr & tick1 & Hmark & Hwf1 & _).
  destruct (getNextKey_spec Date_now kr tick1 Hwf1)
    as (key & kr' & tick2 & Hnext & _ & Hwf2 & _).
  exists kr, tick1, (set_client (Some key) (set_keyRotation kr' (set_keyRotation kr this))), tick2.
  split_and!; [done | | done].
  unfold reinitializeWithNewKey. cbn [set_keyRotation keyRotation]. by rewrite Hnext.
Qed.

Lemma Gemini_loop_rate_limited remaining retryCount this io yielded :
  (∀ n req, ∃ e, Wire.failure (network n req) = Some e ∧
                 isRateLimitError (errorMessage_of e) = true) →
  pool_wf (keyRotation this) →
  0 < remaining → remaining + retryCount = MAX_RETRIES →
  ∃ out e this' io' reqs,
    streamMessage_loop Date_now network remaining retryCount lastMessage history
      config this io yielded
      = (out, Throw (new_Error (errorMessage_of e)), this', io') ∧
    isRateLimitError (errorMessage_of e) = true ∧
    Wire.sent io' = Wire.sent io ++ reqs ∧ length reqs = remaining ∧
    ∃ front req_last,
      reqs = front ++ [req_last] ∧
      Wire.failure (network (length (Wire.sent io) + length front) req_last)
        = Some e.
Proof.
  intros Hnet. revert retryCount this io yielded.
  induction remaining as [|remaining IH]; intros retryCount this io yielded Hwf Hpos Hsum;
    [lia|].
  cbn [streamMessage_loop]. rewrite orb_true_r.
  set (this1 := initChat config history this).
  destruct (chat this1) as [session|] eqn:Hchat; [|by cbn in Hchat].
  unfold Wire.send.
  set (req := Wire.GeminiSendMessageStream session _).
  destruct (Hnet (length (Wire.sent io)) req) as (e & He & Hrl).
  rewrite He, Hrl. cbn [andb].
  destruct (decide (remaining = 0)) as [->|Hrem].
  - assert (retryCount = 2) as -> by (unfold MAX_RETRIES in Hsum; lia).
    cbn [Nat.ltb Nat.leb MAX_RETRIES Nat.sub].
    rewrite isRateLimitError_text by done.
    eexists _, e, _, _, [req]. split_and!; try done.
    exists [], req. split; [done|]. cbn [length]. by rewrite Nat.add_0_r.
  - assert ((retryCount <? MAX_RETRIES - 1) = true) as ->
      by (apply Nat.ltb_lt; unfold MAX_RETRIES in *; lia).
    destruct (Gemini_rotate this1 (Wire.tick io) Hwf)
      as (kr & tick1 & this' & tick2 & Hmark & Hre & Hwf').
    cbn [Wire.tick]. rewrite Hmark, Hre.
    edestruct (IH (S retryCount) this')
      as (out & e' & this2 & io2 & reqs & -> & ? & Hsent & Hlen & front & req_last
          & Hreqs & Hlast);
      [done | lia | lia |].
    eexists out, e', this2, io2, (req :: reqs).
    split_and!; [done | done | | simpl; lia |].
    + rewrite Hsent. cbn [Wire.set_tick Wire.sent]. by rewrite <- app_assoc.
    + exists (req :: front), req_last. split; [by rewrite Hreqs|].
      cbn [Wire.set_tick Wire.sent] in Hlast. rewrite length_app in Hlast.
      cbn [length] in Hlast |- *.
      by replace (length (Wire.sent io) + S (length front))
        with (length (Wire.sent io) + 1 + length front) by lia.
Qed.

Lemma Gemini_rate_limited this io :
  (∀ n req, ∃ e, Wire.failure (network n req) = Some e ∧
                 isRateLimitError (errorMessage_of e) = true) →
  pool_wf (keyRotation this) →
  ∃ out e this' io' reqs,
    streamMessage Date_now network lastMessage history config this io
      = (out, Throw (new_Error (errorMessage_of e)), this', io') ∧
    isRateLimitError (errorMessage_of e) = true ∧
    Wire.sent io' = Wire.sent io ++ reqs ∧ length reqs = 3 ∧
    ∃ front req_last,
      reqs = front ++ [req_last] ∧
      Wire.failure (network (length (Wire.sent io) + length front) req_last)
        = Some e.
Proof.
  intros Hnet Hwf. unfold streamMessage.
  apply Gemini_loop_rate_limited; [done | done | unfold MAX_RETRIES; lia | done].
Qed.

Lemma Gemini_other_error this io e :
  (∀ req, Wire.failure (network (length (Wire.sent io)) req) = Some e) →
  isRateLimitError (errorMessage_of e) = false →
  ∃ out this' io' req,
    streamMessage Date_now network lastMessage history config this io
      = (out,
         Throw (new_Error (str_or (Some (errorMessage_of e))
                             "Failed to generate response from Gemini")),
         this', io') ∧
    Wire.sent io' = Wire.sent io ++ [req].
Proof.
  intros Hnet Hrl. unfold streamMessage. cbn [streamMessage_loop MAX_RETRIES].
  rewrite orb_true_r.
  set (this1 := initChat config history this).
  destruct (chat this1) as [session|] eqn:Hchat; [|by cbn in Hchat].
  unfold Wire.send. rewrite Hnet, Hrl. cbn [andb].
  by eexists _, _, _, _.
Qed.

End GeminiFacts.

(** ** Every adapter *)

Lemma append_empty_r (s : string) : String.append s "" = s.
Proof.
  induction s as [|c s IH]; [done|].
  change (String c (String.append s "") = String c s). by rewrite IH.
Qed.

Lemma slice_0_m1_take {A} (l : list A) : slice_0_m1 l = take (length l - 1) l.
Proof.
  unfold slice_0_m1. induction l as [|x l IH]; [done|].
  destruct l as [|y l]; [done|].
  change (removelast (x :: y :: l)) with (x :: removelast (y :: l)).
  rewrite IH. simpl. by rewrite Nat.sub_0_r.
Qed.

Lemma Gemini_parts_text (msg : Types.Message) :
  parts_text (GeminiService.parts_of msg) = Types.content msg.
Proof.
  unfold GeminiService.parts_of.
  destruct (Types.attachment msg); simpl; apply append_empty_r.
Qed.

Lemma Gemini_payload_text (msg : Types.Message) :
  parts_text (payload_parts
    (if (length (GeminiService.parts_of msg) =? 1)%nat
     then Wire.PayloadText (Types.content msg)
     else Wire.PayloadParts (GeminiService.parts_of msg))) = Types.content msg.
Proof.
  unfold GeminiService.parts_of.
  destruct (Types.attachment msg); simpl; apply append_empty_r.
Qed.

Lemma Groq_turns lastMessage history :
  chat_turns (GroqService.messages_of lastMessage history) =
  map turn_of (slice_0_m1 history) ++ [(Types.RoleUser, Types.content lastMessage)].
Proof.
  unfold GroqService.messages_of, chat_turns.
  induction (slice_0_m1 history) as [|msg l IH]; [done|].
  cbn [map flat_map app]. rewrite IH.
  unfold turn_of. by destruct (Types.role msg).
Qed.

Lemma OpenRouter_turns lastMessage history :
  chat_turns (OpenRouterService.messages_of lastMessage history) =
  map turn_of (slice_0_m1 history) ++ [(Types.RoleUser, Types.content lastMessage)].
Proof.
  unfold OpenRouterService.messages_of, chat_turns.
  induction (slice_0_m1 history) as [|msg l IH]; [done|].
  cbn [map flat_map app]. rewrite IH.
  unfold turn_of. by destruct (Types.role msg).
Qed.

Lemma turns_length (history : list Types.Message) (newest : Types.Role * string) :
  1 ≤ length history →
  length (map turn_of (take (length history - 1) history) ++ [newest])
  = length history.
Proof.
  intros Hlen. rewrite length_app, length_map, length_take. simpl. lia.
Qed.

Lemma Gemini_request_read lastMessage history config this0 session :
  GeminiService.chat (GeminiService.initChat config history this0) = Some session →
  let req :=
    Wire.GeminiSendMessageStream session
      (if (length (GeminiService.parts_of lastMessage) =? 1)%nat
       then Wire.PayloadText (Types.content lastMessage)
       else Wire.PayloadParts (GeminiService.parts_of lastMessage)) in
  request_turns req =
    map turn_of (take (length history - 1) history)
    ++ [(Types.RoleUser, Types.content lastMessage)] ∧
  request_system req =
    [str_or (Types.systemInstruction config) DEFAULT_SYSTEM_INSTRUCTION].
Proof.
  intros [= <-]. split; [|done].
  cbn [request_turns Wire.history]. rewrite Gemini_payload_text.
  rewrite map_map, slice_0_m1_take. f_equal.
  apply map_ext. intros msg. cbn [Wire.role Wire.parts].
  by rewrite Gemini_parts_text.
Qed.

Lemma chat_system_none (ms : list Wire.ChatMessage) :
  Forall (λ m, Wire.msg_role m ≠ Wire.system) ms →
  flat_map (λ m, match Wire.msg_role m with
                 | Wire.system => [chat_content_text (Wire.msg_content m)]
                 | _ => []
                 end) ms = [].
Proof.
  induction 1 as [|m ms Hm _ IH]; [done|].
  cbn [flat_map]. rewrite IH. by destruct (Wire.msg_role m).
Qed.

Lemma Groq_request_read key lastMessage history config :
  let req := Wire.GroqCreate key (GroqService.body_of lastMessage history config) in
  request_turns req =
    map turn_of (take (length history - 1) history)
    ++ [(Types.RoleUser, Types.content lastMessage)] ∧
  request_system req =
    [str_or (Types.systemInstruction config) "You are a helpful AI assistant."].
Proof.
  split.
  - cbn [request_turns GroqService.body_of Wire.messages].
    change (chat_turns (?m :: ?ms)) with (chat_turns ms).
    by rewrite Groq_turns, slice_0_m1_take.
  - cbn [request_system GroqService.body_of Wire.messages flat_map
           Wire.msg_role Wire.msg_content chat_content_text].
    rewrite chat_system_none; [done|].
    unfold GroqService.messages_of. apply Forall_app. split.
    + apply Forall_map, Forall_true. intros msg. cbn.
      by destruct (Types.role msg).
    + by repeat constructor.
Qed.

Lemma OpenRouter_request_read key lastMessage history config :
  let req :=
    Wire.OpenRouterCreate key (OpenRouterService.body_of lastMessage history config) in
  request_turns req =
    map turn_of (take (length history - 1) history)
    ++ [(Types.RoleUser, Types.content lastMessage)] ∧
  request_system req =
    [str_or (Types.systemInstruction config) "You are a helpful AI assistant."].
Proof.
  split.
  - cbn [request_turns OpenRouterService.body_of Wire.messages].
    change (chat_turns (?m :: ?ms)) with (chat_turns ms).
    by rewrite OpenRouter_turns, slice_0_m1_take.
  - cbn [request_system OpenRouterService.body_of Wire.messages flat_map
           Wire.msg_role Wire.msg_content chat_content_text].
    rewrite chat_system_none; [done|].
    unfold OpenRouterService.messages_of. apply Forall_app. split.
    + apply Forall_map, Forall_true. intros msg. cbn.
      by destruct (Types.role msg).
    + by repeat constructor.
Qed.

Section AdapterFacts.

Variable Date_now : nat -> Z.
Variable network : nat -> Wire.Request -> Wire.Response.

(** C1, as the code has it. With a well-formed credential pool: if every
    invocation of the underlying streaming call raises a
    rate-limit-classified error, [streamMessage] makes exactly
    [MAX_RETRIES] = 3 requests and then raises an [Error] carrying the
    message of the error the third, last request raised, not the
    exhausted-retries error that follows the loop; if the first invocation
    raises an error that is not rate-limit-classified, [streamMessage]
    makes exactly one request and raises at once an [Error] carrying that
    error's message (the adapter's own failure text when the message is
    empty). *)
Theorem C1_retry_bound (a : Adapter) lastMessage history config
    (this : AdapterState a) (io : Wire.IO) :
  pool_wf (adapter_keyRotation a this) →
  ((∀ n req, ∃ e, Wire.failure (network n req) = Some e ∧
                  isRateLimitError (errorMessage_of e) = true) →
   ∃ out e this' io' req1 req2 req3,
     adapter_streamMessage Date_now network a lastMessage history config this io
       = (out, Throw (new_Error (errorMessage_of e)), this', io') ∧
     Wire.sent io' = Wire.sent io ++ [req1; req2; req3] ∧
     Wire.failure (network (length (Wire.sent io) + 2) req3) = Some e ∧
     isRateLimitError (errorMessage_of e) = true ∧
     new_Error (errorMessage_of e) ≠ new_Error exhausted_retries_text) ∧
  (∀ e, (∀ req, Wire.failure (network (length (Wire.sent io)) req) = Some e) →
        isRateLimitError (errorMessage_of e) = false →
   ∃ out this' io' req,
     adapter_streamMessage Date_now network a lastMessage history config this io
       = (out,
          Throw (new_Error (str_or (Some (errorMessage_of e)) (adapter_failure_text a))),
          this', io') ∧
     Wire.sent io' = Wire.sent io ++ [req]).
Proof.
  intros Hwf. split.
  - intros Hnet.
    assert (∃ out e this' io' reqs,
      adapter_streamMessage Date_now network a lastMessage history config this io
        = (out, Throw (new_Error (errorMessage_of e)), this', io') ∧
      isRateLimitError (errorMessage_of e) = true ∧
      Wire.sent io' = Wire.sent io ++ reqs ∧ length reqs = 3 ∧
      ∃ front req_last,
        reqs = front ++ [req_last] ∧
        Wire.failure (network (length (Wire.sent io) + length front) req_last)
          = Some e)
      as (out & e & this' & io' & reqs & Heq & Hrl & Hsent & Hlen & front & req3
          & Hreqs & Hlast).
    { destruct a; cbn [adapter_streamMessage].
      - by apply Gemini_rate_limited.
      - by apply Groq_rate_limited.
      - by apply OpenRouter_rate_limited. }
    subst reqs. rewrite length_app in Hlen. cbn [length] in Hlen.
    destruct front as [|req1 [|req2 [|req front]]]; cbn [length] in Hlen; try lia.
    exists out, e, this', io', req1, req2, req3. split_and!; try done.
    intros Hsame. injection Hsame as Hmsg _. rewrite Hmsg in Hrl. done.
  - intros e Hnet Hrl. destruct a; cbn [adapter_streamMessage adapter_failure_text].
    + by apply Gemini_other_error.
    + by apply Groq_other_error.
    + by apply OpenRouter_other_error.
Qed.

(** C6. For every history of length L >= 1, every request that an
    adapter's [streamMessage] issues (there is at least one) submits as
    conversation the first L-1 entries of [history], in order, followed by
    [lastMessage] as the newest (user) turn: L turns in all, neither the
    duplicated last entry of [history] nor a turn less; and it carries the
    system instruction (of [config], or the adapter's default). *)
Theorem C6_history_exclusion (a : Adapter) lastMessage history config
    (this : AdapterState a) (io : Wire.IO) :
  1 ≤ length history →
  ∃ reqs,
    Wire.sent (adapter_streamMessage Date_now network a lastMessage history
                 config this io).2 = Wire.sent io ++ reqs ∧
    reqs ≠ [] ∧
    Forall (λ req,
              request_adapter req = a ∧
              request_turns req =
                map turn_of (take (length history - 1) history)
                ++ [(Types.RoleUser, Types.content lastMessage)] ∧
              length (request_turns req) = length history ∧
              request_system req =
                [str_or (Types.systemInstruction config)
                   (adapter_default_instruction a)]) reqs.
Proof.
  intros Hlen. destruct a; cbn [adapter_streamMessage adapter_default_instruction].
  - destruct (Gemini_loop_requests Date_now network lastMessage history config
                GeminiService.MAX_RETRIES 0 this io [])
      as (reqs & Hsent & Hne & Hall).
    exists reqs. split_and!; [done | apply Hne; unfold GeminiService.MAX_RETRIES; lia |].
    eapply List.Forall_impl; [|exact Hall].
    intros req (this0 & session & Hs & ->).
    destruct (Gemini_request_read lastMessage history config this0 session Hs)
      as [Hturns Hsys].
    split_and!; [done | exact Hturns | | exact Hsys].
    rewrite Hturns. by apply turns_length.
  - destruct (Groq_loop_requests Date_now network lastMessage history config
                GroqService.MAX_RETRIES 0 this io [])
      as (reqs & Hsent & Hne & Hall).
    exists reqs. split_and!; [done | apply Hne; unfold GroqService.MAX_RETRIES; lia |].
    eapply List.Forall_impl; [|exact Hall].
    intros req (key & ->).
    destruct (Groq_request_read key lastMessage history config) as [Hturns Hsys].
    split_and!; [done | exact Hturns | | exact Hsys].
    rewrite Hturns. by apply turns_length.
  - destruct (OpenRouter_loop_requests Date_now network lastMessage history config
                OpenRouterService.MAX_RETRIES 0 this io [])
      as (reqs & Hsent & Hne & Hall).
    exists reqs.
    split_and!; [done | apply Hne; unfold OpenRouterService.MAX_RETRIES; lia |].
    eapply List.Forall_impl; [|exact Hall].
    intros req (key & ->).
    destruct (OpenRouter_request_read key lastMessage history config) as [Hturns Hsys].
    split_and!; [done | exact Hturns | | exact Hsys].
    rewrite Hturns. by apply turns_length.
Qed.


Lemma newest_message_last (first : Wire.ChatMessage) (ms : list Wire.ChatMessage)
    (newest : Wire.ChatMessage) :
  list.last (first :: ms ++ [newest]) = Some newest.
Proof. change (first :: ms ++ [newest]) with ((first :: ms) ++ [newest]). apply last_snoc. Qed.

(** C8, as the code has it. When [lastMessage] carries an attachment, the
    Gemini adapter sends the message as two parts, the text and the
    attachment as inline data (mime type and payload); the Groq and
    OpenRouter adapters send the text alone as the newest user turn, with
    no binary part. *)
Theorem C8_attachment_by_adapter (a : Adapter) lastMessage history config
    (this : AdapterState a) (io : Wire.IO) att :
  Types.attachment lastMessage = Some att →
  ∃ reqs,
    Wire.sent (adapter_streamMessage Date_now network a lastMessage history
                 config this io).2 = Wire.sent io ++ reqs ∧
    reqs ≠ [] ∧
    Forall (λ req,
              request_adapter req = a ∧
              match a with
              | Gemini =>
                  ∃ session,
                    req = Wire.GeminiSendMessageStream session
                            (Wire.PayloadParts
                               [Wire.TextPart (Types.content lastMessage);
                                Wire.InlineDataPart (Types.mimeType att)
                                  (Types.data att)])
              | Groq | OpenRouter =>
                  request_newest_binary req = 0 ∧
                  list.last (request_turns req)
                    = Some (Types.RoleUser, Types.content lastMessage)
              end) reqs.
Proof.
  intros Hatt. destruct a; cbn [adapter_streamMessage].
  - destruct (Gemini_loop_requests Date_now network lastMessage history config
                GeminiService.MAX_RETRIES 0 this io [])
      as (reqs & Hsent & Hne & Hall).
    exists reqs. split_and!; [done | apply Hne; unfold GeminiService.MAX_RETRIES; lia |].
    eapply List.Forall_impl; [|exact Hall].
    intros req (this0 & session & Hs & ->). split; [done|].
    exists session. unfold GeminiService.parts_of. by rewrite Hatt.
  - destruct (Groq_loop_requests Date_now network lastMessage history config
                GroqService.MAX_RETRIES 0 this io [])
      as (reqs & Hsent & Hne & Hall).
    exists reqs. split_and!; [done | apply Hne; unfold GroqService.MAX_RETRIES; lia |].
    eapply List.Forall_impl; [|exact Hall].
    intros req (key & ->). split_and!; [done | |].
    + cbn [request_newest_binary GroqService.body_of Wire.messages].
      unfold GroqService.messages_of. by rewrite newest_message_last.
    + destruct (Groq_request_read key lastMessage history config) as [-> _].
      apply last_snoc.
  - destruct (OpenRouter_loop_requests Date_now network lastMessage history config
                OpenRouterService.MAX_RETRIES 0 this io [])
      as (reqs & Hsent & Hne & Hall).
    exists reqs.
    split_and!; [done | apply Hne; unfold OpenRouterService.MAX_RETRIES; lia |].
    eapply List.Forall_impl; [|exact Hall].
    intros req (key & ->). split_and!; [done | |].
    + cbn [request_newest_binary OpenRouterService.body_of Wire.messages].
      unfold OpenRouterService.messages_of. by rewrite newest_message_last.
    + destruct (OpenRouter_request_read key lastMessage history config) as [-> _].
      apply last_snoc.
Qed.

End AdapterFacts.

(** C1 at concrete inputs: the Groq adapter against an upstream that is
    rate limited with a different message at each request, and against
    one that rejects the request. *)
Lemma C1_retry_bound_witness :
  (∃ out e this' io' req1 req2 req3,
     adapter_streamMessage frozen_clock net_three_limits Groq msg_question
       [msg_question] DEFAULT_MODEL_CONFIG groq0 io0
       = (out, Throw (new_Error (errorMessage_of e)), this', io') ∧
     Wire.sent io' = Wire.sent io0 ++ [req1; req2; req3] ∧
     Wire.failure (net_three_limits (length (Wire.sent io0) + 2) req3) = Some e ∧
     isRateLimitError (errorMessage_of e) = true ∧
     new_Error (errorMessage_of e) ≠ new_Error exhausted_retries_text) ∧
  (∃ out this' io' req,
     adapter_streamMessage frozen_clock net_bad_request Groq msg_question
       [msg_question] DEFAULT_MODEL_CONFIG groq0 io0
       = (out,
          Throw (new_Error (str_or (Some (errorMessage_of (new_Error "400 Bad Request")))
                              (adapter_failure_text Groq))),
          this', io') ∧
     Wire.sent io' = Wire.sent io0 ++ [req]).
Proof.
  split.
  - apply (proj1 (C1_retry_bound frozen_clock net_three_limits Groq msg_question
                    [msg_question] DEFAULT_MODEL_CONFIG groq0 io0
                    (reachable_wf frozen_clock (inl "q1,q2") [GetNextKey]))).
    intros n req. eexists. split; [reflexivity|].
    destruct n as [|[|n]]; reflexivity.
  - apply (proj2 (C1_retry_bound frozen_clock net_bad_request Groq msg_question
                    [msg_question] DEFAULT_MODEL_CONFIG groq0 io0
                    (reachable_wf frozen_clock (inl "q1,q2") [GetNextKey]))
             (new_Error "400 Bad Request")).
    + intros req. reflexivity.
    + reflexivity.
Defined.

(** The error raised is the one of the third request: with a different
    message at each request, the call ends with the third message. *)
Example retry_raises_last_error :
  (GroqService.streamMessage frozen_clock net_three_limits msg_question
     [msg_question] DEFAULT_MODEL_CONFIG groq0 io0).1.1.2
  = Throw (new_Error "RESOURCE_EXHAUSTED").
Proof. vm_compute. reflexivity. Qed.

(** C1, the sentence as written fails: against an upstream that always
    answers 429, the Groq adapter makes three requests and then raises the
    upstream error, not the exhausted-retries error. *)
Lemma C1_counterexample :
  let '(_, r, _, io') :=
    GroqService.streamMessage frozen_clock net_rate_limited msg_question
      [msg_question] DEFAULT_MODEL_CONFIG groq0 io0 in
  length (Wire.sent io') = 3 ∧
  r = Throw (new_Error "429 Too Many Requests") ∧
  r ≠ Throw (new_Error exhausted_retries_text).
Proof. vm_compute. split_and!; [reflexivity | reflexivity | discriminate]. Qed.

(** C6 at a concrete input: a history of three entries sent through the
    Gemini adapter. *)
Lemma C6_history_exclusion_witness :
  ∃ reqs,
    Wire.sent (adapter_streamMessage frozen_clock net_answering Gemini msg_photo
                 [msg_question; msg_answer; msg_photo] DEFAULT_MODEL_CONFIG
                 gemini0 io0).2 = Wire.sent io0 ++ reqs ∧
    reqs ≠ [] ∧
    Forall (λ req,
              request_adapter req = Gemini ∧
              request_turns req =
                map turn_of (take (length [msg_question; msg_answer; msg_photo] - 1)
                               [msg_question; msg_answer; msg_photo])
                ++ [(Types.RoleUser, Types.content msg_photo)] ∧
              length (request_turns req)
                = length [msg_question; msg_answer; msg_photo] ∧
              request_system req =
                [str_or (Types.systemInstruction DEFAULT_MODEL_CONFIG)
                   (adapter_default_instruction Gemini)]) reqs.
Proof.
  apply (C6_history_exclusion frozen_clock net_answering Gemini msg_photo
           [msg_question; msg_answer; msg_photo] DEFAULT_MODEL_CONFIG gemini0 io0).
  simpl. lia.
Defined.

(** C8 at a concrete input: a message with a PNG attachment sent through
    the Gemini adapter. *)
Lemma C8_attachment_by_adapter_witness :
  ∃ reqs,
    Wire.sent (adapter_streamMessage frozen_clock net_answering Gemini msg_photo
                 [msg_photo] DEFAULT_MODEL_CONFIG gemini0 io0).2
      = Wire.sent io0 ++ reqs ∧
    reqs ≠ [] ∧
    Forall (λ req,
              request_adapter req = Gemini ∧
              ∃ session,
                req = Wire.GeminiSendMessageStream session
                        (Wire.PayloadParts
                           [Wire.TextPart (Types.content msg_photo);
                            Wire.InlineDataPart "image/png" "iVBORw0KGgo="])) reqs.
Proof.
  apply (C8_attachment_by_adapter frozen_clock net_answering Gemini msg_photo
           [msg_photo] DEFAULT_MODEL_CONFIG gemini0 io0
           (Types.mkAttachment "image/png" "iVBORw0KGgo=")).
  reflexivity.
Defined.

(** C8, the sentence as written fails: the Groq adapter, given a message
    with a PNG attachment, issues one request whose newest turn is the
    text alone; the attachment is nowhere in the payload. *)
Lemma C8_counterexample :
  let '(_, _, _, io') :=
    GroqService.streamMessage frozen_clock net_answering msg_photo [msg_photo]
      DEFAULT_MODEL_CONFIG groq0 io0 in
  Types.attachment msg_photo = Some (Types.mkAttachment "image/png" "iVBORw0KGgo=") ∧
  map request_newest_binary (Wire.sent io') = [0] ∧
  map (λ req, match req with
              | Wire.GroqCreate _ body => list.last (Wire.messages body)
              | _ => None
              end) (Wire.sent io')
    = [Some {| Wire.msg_role := Wire.user;
               Wire.msg_content := Wire.TextContent "Describe this image" |}].
Proof. vm_compute. done. Qed.

(** * Properties of the provider factory *)

(** The example worlds are what loading the modules produces. *)
Example world0_is_init :
  AIProviderFactory.init frozen_clock env_both [DEFAULT_MODEL_CONFIG]
    DEFAULT_MODEL_CONFIG = Normal world0.
Proof. vm_compute. reflexivity. Qed.

Example world_unconfigured_is_init :
  AIProviderFactory.init frozen_clock env_none [DEFAULT_MODEL_CONFIG]
    DEFAULT_MODEL_CONFIG = Normal world_unconfigured.
Proof. vm_compute. reflexivity. Qed.

(** A call served by the primary provider, and a call served by the
    fallback provider. *)
Example primary_serves :
  (AIProviderFactory.streamMessageWithFallback frozen_clock net_answering
     msg_question [msg_question] 0 world0).1
  = ([ AIProviderFactory.mkTaggedChunk "Hello" None (Some Types.GEMINI);
       AIProviderFactory.mkTaggedChunk " there" None (Some Types.GEMINI) ],
     Normal tt).
Proof. vm_compute. reflexivity. Qed.

Example all_providers_fail :
  (AIProviderFactory.streamMessageWithFallback frozen_clock net_bad_request
     msg_question [msg_question] 0 world0).1
  = ([], Throw (new_Error "All AI providers failed. Please check your API keys.")).
Proof. vm_compute. reflexivity. Qed.

Section FactoryFacts.

Import Types AIProviderFactory.

Variable Date_now : nat -> Z.
Variable network : nat -> Wire.Request -> Wire.Response.

Lemma getProvider_total p : getProvider p = Normal (provider_service p).
Proof. by destruct p. Qed.

(** A service call touches its own singleton and the request log only. *)
Lemma service_streamMessage_frame service lastMessage history config w :
  let w' := (service_streamMessage Date_now network service lastMessage history
               config w).2 in
  heap w' = heap w ∧ next w' = next w ∧ env w' = env w.
Proof.
  destruct service; unfold service_streamMessage.
  - by destruct (GeminiService.streamMessage _ _ _ _ _ _ _) as [[[? ?] ?] ?].
  - by destruct (GroqService.streamMessage _ _ _ _ _ _ _) as [[[? ?] ?] ?].
Qed.

Lemma fallback_loop_frame candidates primaryProvider lastMessage history config
    w yielded :
  let w' := (fallback_loop Date_now network candidates primaryProvider lastMessage
               history config w yielded).2 in
  next w ≤ next w' ∧ ∀ ref, ref < next w → heap w' ref = heap w ref.
Proof.
  revert w yielded.
  induction candidates as [|provider rest IH]; intros w yielded; [done|].
  cbn [fallback_loop]. case_decide; [apply IH|].
  rewrite getProvider_total. unfold spread.
  set (w2 := match provider with
             | GEMINI => assign_model (next w) "gemini-2.5-flash" _
             | GROQ => assign_model (next w) "llama-3.3-70b-versatile" _
             end).
  assert (next w2 = S (next w) ∧ ∀ ref, ref < next w → heap w2 ref = heap w ref)
    as [Hnext Hheap].
  { subst w2. destruct provider; cbn [assign_model next heap]; (split; [done|]);
      intros ref Href; rewrite !fn_lookup_insert_ne by lia; done. }
  pose proof (service_streamMessage_frame (provider_service provider) lastMessage
                history (next w) w2) as Hframe.
  destruct (service_streamMessage Date_now network (provider_service provider)
              lastMessage history (next w) w2) as [[out r] w3].
  cbn [snd] in Hframe. destruct Hframe as (Hh3 & Hn3 & _).
  destruct r as [[]|e].
  - cbn [snd]. rewrite Hh3, Hn3, Hnext. split; [lia | done].
  - specialize (IH w3 (yielded ++ map (tag provider) out)).
    cbn zeta in IH. destruct IH as [Hle Hsame].
    split; [lia|]. intros ref Href.
    rewrite Hsame by lia. rewrite Hh3. by apply Hheap.
Qed.

(** C10. [streamMessageWithFallback] leaves every configuration object
    that exists when it is called as it was, the caller's [config]
    included, whether it ends by completing the stream or by raising: the
    default model of a fallback provider is written into a fresh copy. *)
Theorem C10_config_not_mutated lastMessage history config w :
  let w' := (streamMessageWithFallback Date_now network lastMessage history
               config w).2 in
  ∀ ref, ref < next w → heap w' ref = heap w ref.
Proof.
  cbv zeta. intros ref Href. unfold streamMessageWithFallback.
  set (primaryProvider := match provider (heap w config) with
                          | Some p => p
                          | None => GEMINI
                          end).
  destruct (includes_provider _ _).
  - rewrite getProvider_total.
    pose proof (service_streamMessage_frame (provider_service primaryProvider)
                  lastMessage history config w) as Hframe.
    destruct (service_streamMessage _ _ _ _ _ _ _) as [[out r] w1].
    cbn [snd] in Hframe. destruct Hframe as (Hh1 & Hn1 & _).
    destruct r as [[]|e].
    + cbn [snd]. by rewrite Hh1.
    + destruct (fallback_loop_frame (getAvailableProviders (env w))
                  primaryProvider lastMessage history config w1
                  (map (tag primaryProvider) out)) as [_ Hsame].
      rewrite Hsame by lia. by rewrite Hh1.
  - by apply fallback_loop_frame.
Qed.

(** C9. When no provider has a configured credential source, the list of
    available providers is empty and [streamMessageWithFallback] raises at
    once the error that tells the user to check the API keys; it yields
    nothing and leaves the world as it was: no adapter was invoked, no
    request issued, no key rotated. *)
Theorem C9_no_provider_configured lastMessage history config w :
  (∀ p, isProviderAvailable (env w) p = false) →
  getAvailableProviders (env w) = [] ∧
  streamMessageWithFallback Date_now network lastMessage history config w
    = ([],
       Throw (new_Error "All AI providers failed. Please check your API keys."),
       w).
Proof.
  intros Hnone.
  assert (getAvailableProviders (env w) = []) as Havail.
  { unfold getAvailableProviders. cbn [List.filter].
    by rewrite (Hnone GEMINI), (Hnone GROQ). }
  split; [done|].
  unfold streamMessageWithFallback. rewrite Havail.
  cbn [includes_provider existsb]. done.
Qed.

(** The requests of a service call all go to that service's backend. *)
Lemma service_streamMessage_requests p lastMessage history config w :
  ∃ reqs,
    Wire.sent (io (service_streamMessage Date_now network (provider_service p)
                     lastMessage history config w).2)
      = Wire.sent (io w) ++ reqs ∧
    Forall (λ req, request_adapter req = provider_adapter p) reqs.
Proof.
  destruct p; cbn [provider_service service_streamMessage provider_adapter].
  - destruct (Gemini_loop_requests Date_now network lastMessage history
                (heap w config) GeminiService.MAX_RETRIES 0 (gemini w) (io w) [])
      as (reqs & Hsent & _ & Hall).
    unfold GeminiService.streamMessage.
    destruct (GeminiService.streamMessage_loop _ _ _ _ _ _ _ _ _ _)
      as [[[? ?] ?] io'].
    exists reqs. split; [done|].
    eapply List.Forall_impl; [|exact Hall]. by intros req (? & ? & _ & ->).
  - destruct (Groq_loop_requests Date_now network lastMessage history
                (heap w config) GroqService.MAX_RETRIES 0 (groq w) (io w) [])
      as (reqs & Hsent & _ & Hall).
    unfold GroqService.streamMessage.
    destruct (GroqService.streamMessage_loop _ _ _ _ _ _ _ _ _ _)
      as [[[? ?] ?] io'].
    exists reqs. split; [done|].
    eapply List.Forall_impl; [|exact Hall]. by intros req (? & ->).
Qed.

Lemma both_available e p q :
  includes_provider (getAvailableProviders e) p = true →
  includes_provider (getAvailableProviders e) q = true →
  q ≠ p →
  getAvailableProviders e = [GEMINI; GROQ].
Proof.
  unfold getAvailableProviders. cbn [List.filter].
  destruct (isProviderAvailable e GEMINI), (isProviderAvailable e GROQ);
    destruct p, q; done.
Qed.

Lemma tagged_with_other p q (out : list Chunk) :
  q ≠ p →
  List.filter (λ c, bool_decide (chunk_provider c = Some q)) (map (tag p) out) = [].
Proof.
  intros Hqp. induction out as [|c out IH]; [done|].
  cbn [map List.filter]. rewrite bool_decide_false; [done|].
  cbn [tag chunk_provider]. by intros [= ->].
Qed.

Lemma tagged_with_same q (out : list Chunk) :
  List.filter (λ c, bool_decide (chunk_provider c = Some q)) (map (tag q) out)
  = map (tag q) out.
Proof.
  induction out as [|c out IH]; [done|].
  cbn [map List.filter]. rewrite bool_decide_true by done. by rewrite IH.
Qed.

(** C3, as the code has it. With both providers configured, when the
    stream of the primary provider [p] raises and the stream of the other
    provider [q] completes, [streamMessageWithFallback] completes.  What
    it yields is the chunks [p] had delivered when it raised, tagged [p],
    followed by the chunks of [q], tagged [q]: the chunks tagged [q] are
    the chunks of [q], in order, and the chunks are all tagged [q] exactly
    when [p] had delivered none.  [q] is run on a new configuration
    object that has the default model of [q] as [model] and the fields of
    the caller's configuration elsewhere; and after the requests of [p]
    every request issued goes to the backend of [q]: once [q] has
    succeeded nothing else is invoked. *)
Theorem C3_fallback_cascade lastMessage history config w p q out1 e w1 out2 w2 :
  primary_of (heap w config) = p →
  includes_provider (getAvailableProviders (env w)) p = true →
  includes_provider (getAvailableProviders (env w)) q = true →
  q ≠ p →
  service_streamMessage Date_now network (provider_service p) lastMessage
    history config w = (out1, Throw e, w1) →
  service_streamMessage Date_now network (provider_service q) lastMessage
    history (next w1)
    (assign_model (next w1) (default_model q) (spread config w1).2)
    = (out2, Normal tt, w2) →
  streamMessageWithFallback Date_now network lastMessage history config w
    = (map (tag p) out1 ++ map (tag q) out2, Normal tt, w2) ∧
  List.filter (λ c, bool_decide (chunk_provider c = Some q))
    (streamMessageWithFallback Date_now network lastMessage history config w).1.1
    = map (tag q) out2 ∧
  (Forall (λ c, chunk_provider c = Some q)
     (streamMessageWithFallback Date_now network lastMessage history config w).1.1
   ↔ out1 = []) ∧
  heap w2 (next w1)
    = {| model := default_model q;
         temperature := temperature (heap w config);
         topK := topK (heap w config);
         topP := topP (heap w config);
         maxTokens := maxTokens (heap w config);
         thinkingBudget := thinkingBudget (heap w config);
         systemInstruction := systemInstruction (heap w config);
         useSearch := useSearch (heap w config);
         provider := provider (heap w config) |} ∧
  ∃ reqs1 reqs2,
    Wire.sent (io w1) = Wire.sent (io w) ++ reqs1 ∧
    Wire.sent (io w2) = Wire.sent (io w1) ++ reqs2 ∧
    Forall (λ req, request_adapter req = provider_adapter p) reqs1 ∧
    Forall (λ req, request_adapter req = provider_adapter q) reqs2.
Proof.
  intros Hp Hip Hiq Hqp H1 H2.
  pose proof (both_available _ _ _ Hip Hiq Hqp) as Havail.
  pose proof (service_streamMessage_frame (provider_service p) lastMessage
                history config w) as Hf1.
  pose proof (service_streamMessage_requests p lastMessage history config w)
    as (reqs1 & Hs1 & Hall1).
  rewrite H1 in Hf1, Hs1. cbn [snd] in Hf1, Hs1. destruct Hf1 as (Hh1 & Hn1 & He1).
  pose proof (service_streamMessage_frame (provider_service q) lastMessage
                history (next w1)
                (assign_model (next w1) (default_model q) (spread config w1).2))
    as Hf2.
  pose proof (service_streamMessage_requests q lastMessage history (next w1)
                (assign_model (next w1) (default_model q) (spread config w1).2))
    as (reqs2 & Hs2 & Hall2).
  rewrite H2 in Hf2, Hs2. cbn [snd] in Hf2, Hs2. destruct Hf2 as (Hh2 & _ & _).
  assert (streamMessageWithFallback Date_now network lastMessage history config w
          = (map (tag p) out1 ++ map (tag q) out2, Normal tt, w2)) as Hrun.
  { unfold streamMessageWithFallback.
    change (match provider (heap w config) with
            | Some p0 => p0
            | None => GEMINI
            end) with (primary_of (heap w config)).
    rewrite Hp, Hip, getProvider_total, H1, Havail.
    destruct p, q; try done; cbn [fallback_loop].
    + rewrite decide_True, decide_False by done.
      rewrite getProvider_total. unfold spread in *. cbn [snd] in H2.
      unfold default_model in H2. by rewrite H2.
    + rewrite decide_False by done.
      rewrite getProvider_total. unfold spread in *. cbn [snd] in H2.
      unfold default_model in H2. by rewrite H2. }
  rewrite Hrun. cbn [fst]. split_and!.
  - done.
  - rewrite List.filter_app, tagged_with_other, tagged_with_same by done. done.
  - split.
    + intros Hall. destruct out1 as [|c out1]; [done|].
      cbn [map app] in Hall. inversion Hall as [|? ? Hc _].
      cbn [tag chunk_provider] in Hc. injection Hc as ->. done.
    + intros ->. cbn [map app]. apply Forall_map, Forall_true. done.
  - rewrite Hh2. unfold spread. cbn [snd assign_model heap].
    rewrite !fn_lookup_insert. by rewrite Hh1.
  - exists reqs1, reqs2. split_and!; done.
Qed.

End FactoryFacts.

(** C3 at a concrete input: Gemini delivers one chunk and fails with 503,
    Groq answers in two chunks. *)
Lemma C3_fallback_cascade_witness :
  ∃ w1 w2,
    AIProviderFactory.streamMessageWithFallback frozen_clock net_gemini_down
      msg_question [msg_question] 0 world0
    = ([ AIProviderFactory.mkTaggedChunk "Hel" None (Some Types.GEMINI);
         AIProviderFactory.mkTaggedChunk "Hello" None (Some Types.GROQ);
         AIProviderFactory.mkTaggedChunk " there" None (Some Types.GROQ) ],
       Normal tt, w2) ∧
    List.filter
      (λ c, bool_decide (AIProviderFactory.chunk_provider c = Some Types.GROQ))
      (AIProviderFactory.streamMessageWithFallback frozen_clock net_gemini_down
         msg_question [msg_question] 0 world0).1.1
    = [ AIProviderFactory.mkTaggedChunk "Hello" None (Some Types.GROQ);
        AIProviderFactory.mkTaggedChunk " there" None (Some Types.GROQ) ] ∧
    Types.model (AIProviderFactory.heap w2 (AIProviderFactory.next w1))
      = "llama-3.3-70b-versatile" ∧
    Types.temperature (AIProviderFactory.heap w2 (AIProviderFactory.next w1))
      = Types.temperature DEFAULT_MODEL_CONFIG ∧
    ∃ reqs1 reqs2,
      Wire.sent (AIProviderFactory.io w1) = reqs1 ∧
      Wire.sent (AIProviderFactory.io w2)
        = Wire.sent (AIProviderFactory.io w1) ++ reqs2 ∧
      Forall (λ req, request_adapter req = Gemini) reqs1 ∧
      Forall (λ req, request_adapter req = Groq) reqs2.
Proof.
  set (r1 := AIProviderFactory.service_streamMessage frozen_clock net_gemini_down
               AIProviderFactory.geminiService msg_question [msg_question] 0 world0).
  set (w1 := r1.2).
  set (r2 := AIProviderFactory.service_streamMessage frozen_clock net_gemini_down
               AIProviderFactory.groqService msg_question [msg_question]
               (AIProviderFactory.next w1)
               (AIProviderFactory.assign_model (AIProviderFactory.next w1)
                  (default_model Types.GROQ)
                  (AIProviderFactory.spread 0 w1).2)).
  set (w2 := r2.2).
  destruct (C3_fallback_cascade frozen_clock net_gemini_down msg_question
              [msg_question] 0 world0 Types.GEMINI Types.GROQ
              [Types.mkChunk "Hel" None] (new_Error "503 Service Unavailable") w1
              [Types.mkChunk "Hello" None; Types.mkChunk " there" None] w2)
    as (Hrun & Htagged & _ & Hmodel & reqs1 & reqs2 & Hs1 & Hs2 & Ha1 & Ha2).
  - reflexivity.
  - reflexivity.
  - reflexivity.
  - discriminate.
  - vm_compute. reflexivity.
  - vm_compute. reflexivity.
  - exists w1, w2.
    split_and!; [exact Hrun | exact Htagged | by rewrite Hmodel | by rewrite Hmodel |].
    exists reqs1, reqs2. split_and!; [exact Hs1 | exact Hs2 | exact Ha1 | exact Ha2].
Defined.

(** C3, the sentence as written fails: with Gemini and Groq configured,
    Gemini delivering one chunk before it raises (503) and Groq
    completing, the stream of [streamMessageWithFallback] completes but
    its first chunk is tagged Gemini: the chunks are not all tagged with
    the provider that succeeded. *)
Lemma C3_counterexample :
  let '(out, r, _) :=
    AIProviderFactory.streamMessageWithFallback frozen_clock net_gemini_down
      msg_question [msg_question] 0 world0 in
  r = Normal tt ∧
  (AIProviderFactory.service_streamMessage frozen_clock net_gemini_down
     AIProviderFactory.geminiService msg_question [msg_question] 0 world0).1.2
    = Throw (new_Error "503 Service Unavailable") ∧
  head out = Some (AIProviderFactory.mkTaggedChunk "Hel" None (Some Types.GEMINI)) ∧
  ¬ Forall (λ c, AIProviderFactory.chunk_provider c = Some Types.GROQ) out.
Proof.
  vm_compute. split_and!; [reflexivity | reflexivity | reflexivity |].
  intros Hall. inversion Hall as [|? ? Hc _]. discriminate Hc.
Qed.

(** C9 at a concrete input: the world loaded with no credential. *)
Lemma C9_no_provider_configured_witness :
  AIProviderFactory.getAvailableProviders
    (AIProviderFactory.env world_unconfigured) = [] ∧
  AIProviderFactory.streamMessageWithFallback frozen_clock net_answering
    msg_question [msg_question] 0 world_unconfigured
  = ([],
     Throw (new_Error "All AI providers failed. Please check your API keys."),
     world_unconfigured).
Proof.
  apply (C9_no_provider_configured frozen_clock net_answering msg_question
           [msg_question] 0 world_unconfigured).
  intros p. destruct p; reflexivity.
Defined.

(** C10 at a concrete input: after a call that falls back from Gemini to
    Groq, the caller's configuration (reference 0) is what it was. *)
Lemma C10_config_not_mutated_witness :
  AIProviderFactory.heap
    (AIProviderFactory.streamMessageWithFallback frozen_clock net_gemini_down
       msg_question [msg_question] 0 world0).2 0
  = AIProviderFactory.heap world0 0.
Proof.
  apply (C10_config_not_mutated frozen_clock net_gemini_down msg_question
           [msg_question] 0 world0 0).
  simpl. lia.
Defined.

(** * Further properties of the credential pool *)

Section PoolMore.

Import ApiKeyRotation.

Variable Date_now : nat -> Z.

(** X1. the class invariant.  Whatever calls are made on a pool after its
    construction, its key list is the one it was built with and is not
    empty, the cursor points inside it, and [keyStatuses] holds an entry
    for exactly the positions of the key list. *)
Theorem pool_invariant apiKeys cs :
  let this := (run_calls Date_now cs (constructor apiKeys, 0)).1 in
  keys this = keys (constructor apiKeys) ∧
  keys this ≠ [] ∧
  currentIndex this < length (keys this) ∧
  ∀ i, is_Some (keyStatuses this !! i) ↔ i < length (keys this).
Proof.
  cbv zeta.
  assert (∀ i s, keyStatuses (constructor apiKeys) !! i = Some s →
                 (0 ≤ failureCount s)%Z) as Hpos0.
  { intros i s. unfold constructor; cbn [keyStatuses].
    rewrite init_statuses_lookup. case_decide; [|done]. by intros [= <-]. }
  destruct (run_calls_invariant Date_now cs _ 0 (constructor_wf apiKeys) Hpos0)
    as ([Hc Hdom] & Hkeys & _).
  split_and!; try done.
  intros Hnil. rewrite Hnil in Hc. simpl in Hc. lia.
Qed.

Lemma getNextKey_loop_reads remaining start this tick :
  pool_wf this →
  (getNextKey_loop Date_now remaining start this tick).2 ≤ tick + remaining.
Proof.
  revert this tick. induction remaining as [|remaining IH]; intros this tick Hwf.
  - cbn. lia.
  - destruct (getNextKey_loop_cases Date_now remaining start this tick Hwf)
      as (s & Hs & [(a & _ & _ & _ & ->)|[(a & _ & _ & _ & ->)
                   |[(_ & _ & ->)|(_ & _ & ->)]]]).
    + specialize (IH (advance this) (S tick) (wf_advance _ Hwf)). lia.
    + cbn. lia.
    + specialize (IH (advance this) tick (wf_advance _ Hwf)). lia.
    + cbn. lia.
Qed.

(** X2. [getNextKey] never fails.  In every state a pool reaches from its
    construction, [getNextKey()] returns normally a key of the pool (never
    [undefined], never an exception, also when every key has failed), and
    reads the clock at most once per key. *)
Theorem getNextKey_always_returns apiKeys cs :
  let '(this, tick) := run_calls Date_now cs (constructor apiKeys, 0) in
  ∃ key this' tick',
    getNextKey Date_now this tick = (Normal (Some key), this', tick') ∧
    key ∈ keys this ∧ tick ≤ tick' ≤ tick + length (keys this).
Proof.
  pose proof (reachable_wf Date_now apiKeys cs) as Hwf.
  destruct (run_calls Date_now cs (constructor apiKeys, 0)) as [this tick].
  cbn [fst] in Hwf.
  destruct (getNextKey_spec Date_now this tick Hwf)
    as (key & this' & tick' & Heq & Hin & _ & _ & Hle & _).
  exists key, this', tick'. split_and!; try done.
  pose proof (getNextKey_loop_reads (length (keys this)) (currentIndex this)
                this tick Hwf) as Hreads.
  unfold getNextKey in Heq. by rewrite Heq in Hreads.
Qed.

Lemma getNextKey_loop_all_cooling remaining start this tick :
  pool_wf this →
  (∀ i s, keyStatuses this !! i = Some s →
     ∃ at_, failedAt s = Some at_ ∧ num_truthy at_ = true ∧
            ∀ n, tick ≤ n → (Date_now n - at_ < COOLDOWN_MS)%Z) →
  getNextKey_loop Date_now remaining start this tick =
    (Normal (keys this !! start),
     set_currentIndex ((currentIndex this + remaining) mod length (keys this)) this,
     tick + remaining).
Proof.
  revert this tick. induction remaining as [|remaining IH]; intros this tick Hwf Hcool.
  - cbn [getNextKey_loop]. rewrite !Nat.add_0_r.
    rewrite Nat.mod_small by (by destruct Hwf).
    by rewrite set_currentIndex_same.
  - destruct (getNextKey_loop_cases Date_now remaining start this tick Hwf)
      as (s & Hs & Hcases).
    destruct (Hcool _ _ Hs) as (a & Ha & Htr & Hwin).
    destruct Hcases as [(a' & Ha' & _ & _ & ->)|[(a' & Ha' & _ & Hge & _)
                       |[(Hnf & _)|(Hnf & _)]]].
    + rewrite IH; [|by apply wf_advance|].
      * cbn [advance set_currentIndex keys currentIndex].
        rewrite Nat.Div0.add_mod_idemp_l. unfold set_currentIndex; cbn [keys keyStatuses].
        replace (currentIndex this + 1 + remaining)
          with (currentIndex this + S remaining) by lia.
        replace (S tick + remaining) with (tick + S remaining) by lia.
        done.
      * intros i s0 Hi. destruct (Hcool i s0 Hi) as (a0 & ? & ? & Hw).
        exists a0. split_and!; try done. intros n Hn. apply Hw. lia.
    + rewrite Ha in Ha'; injection Ha' as <-. specialize (Hwin tick ltac:(lia)). lia.
    + rewrite (Hnf _ Ha) in Htr. done.
    + rewrite (Hnf _ Ha) in Htr. done.
Qed.

(** X3. the last resort.  When every key of a well-formed pool is inside
    its cooldown window at every clock reading of the call, [getNextKey()]
    returns the key under the cursor, the one it started with, after
    reading the clock once per key, and leaves the pool exactly as it was,
    cursor included. *)
Theorem getNextKey_last_resort this tick :
  pool_wf this →
  (∀ i s, keyStatuses this !! i = Some s →
     ∃ at_, failedAt s = Some at_ ∧ at_ ≠ 0%Z ∧
            ∀ n, tick ≤ n → (Date_now n - at_ < COOLDOWN_MS)%Z) →
  ∃ key,
    keys this !! currentIndex this = Some key ∧
    getNextKey Date_now this tick =
      (Normal (Some key), this, tick + length (keys this)).
Proof.
  intros Hwf Hcool.
  destruct (lookup_lt_is_Some_2 (keys this) _ (proj1 Hwf)) as [key Hkey].
  exists key. split; [done|]. unfold getNextKey.
  rewrite getNextKey_loop_all_cooling; [|done|].
  - rewrite Hkey. do 2 f_equal.
    rewrite <- Nat.Div0.add_mod_idemp_r, Nat.Div0.mod_same, Nat.add_0_r.
    rewrite Nat.mod_small by (by destruct Hwf). apply set_currentIndex_same.
  - intros i s Hi. destruct (Hcool i s Hi) as (a & ? & Hnz & ?).
    exists a. split_and!; try done.
    unfold num_truthy. by destruct (Z.eqb_spec a 0).
Qed.

Lemma indexOf_None l k : k ∉ l → indexOf l k = None.
Proof.
  induction l as [|y l IH]; [done|]. intros Hnot.
  apply not_elem_of_cons in Hnot as [Hne Hnot]. simpl.
  destruct (String.eqb_spec y k); [congruence|]. by rewrite IH.
Qed.

(** X4. an unknown key.  [markKeyFailed] with a credential that is not in
    the pool (or with [undefined]) changes nothing: no status, not the
    cursor, and the clock is not read. *)
Theorem markKeyFailed_unknown_key key this tick :
  (∀ k, key = Some k → k ∉ keys this) →
  markKeyFailed Date_now key this tick = (Normal tt, this, tick).
Proof.
  intros Hnot. unfold markKeyFailed. destruct key as [k|]; [|done].
  by rewrite indexOf_None by (by apply Hnot).
Qed.

(** The first [getNextKey()] on a new pool returns its first key and reads
    no clock. *)
Lemma getNextKey_fresh apiKeys tick :
  ∃ key kr,
    getNextKey Date_now (constructor apiKeys) tick = (Normal (Some key), kr, tick) ∧
    pool_wf kr ∧ keys kr = keys (constructor apiKeys) ∧
    keys (constructor apiKeys) !! 0 = Some key.
Proof.
  pose proof (fresh_after_calls Date_now apiKeys 1 tick) as Hfresh.
  destruct (getNextKey_spec Date_now (constructor apiKeys) tick (constructor_wf apiKeys))
    as (key & kr & tick' & Hnext & _ & Hwf & Hkeys & _).
  cbn [getNextKey_n seq map] in Hfresh. rewrite Hnext in Hfresh.
  rewrite Nat.Div0.mod_0_l in Hfresh.
  injection Hfresh as Hkey _ Htick. subst tick'.
  by exists key, kr.
Qed.

End PoolMore.

(** At a concrete input: two keys, both marked failed, the clock standing
    still. *)
Lemma getNextKey_last_resort_witness :
  let this :=
    (run_calls frozen_clock
       [MarkKeyFailed (Some "k1"); MarkKeyFailed (Some "k2")]
       (ApiKeyRotation.constructor (inr ["k1"; "k2"]), 0)).1 in
  ∃ key,
    ApiKeyRotation.keys this !! ApiKeyRotation.currentIndex this = Some key ∧
    ApiKeyRotation.getNextKey frozen_clock this 2 =
      (Normal (Some key), this, 2 + length (ApiKeyRotation.keys this)).
Proof.
  intros this.
  apply (getNextKey_last_resort frozen_clock this 2).
  - apply reachable_wf.
  - intros i s Hi. exists 1000%Z.
    assert (i < 2) as Hlt.
    { change 2 with (length (ApiKeyRotation.keys this)).
      apply (proj2 (reachable_wf frozen_clock _ _)). by exists s. }
    destruct i as [|[|i]]; [| |lia]; vm_compute in Hi;
      injection Hi as <-; (split_and!; [reflexivity | discriminate |]);
      intros n _; vm_compute; reflexivity.
Defined.

(** At a concrete input: the placeholder pool is told that a real key
    failed. *)
Lemma markKeyFailed_unknown_key_witness :
  ApiKeyRotation.markKeyFailed frozen_clock (Some "sk-live")
    (ApiKeyRotation.constructor (inl "")) 0
  = (Normal tt, ApiKeyRotation.constructor (inl ""), 0).
Proof.
  apply (markKeyFailed_unknown_key frozen_clock (Some "sk-live")
           (ApiKeyRotation.constructor (inl "")) 0).
  intros k [= <-]. vm_compute. intros H.
  apply list_elem_of_singleton in H. discriminate.
Defined.

(** ** Reading the key list *)

Lemma append_cons (c : ascii) (s t : string) :
  String.append (String c s) t = String c (String.append s t).
Proof. reflexivity. Qed.

Lemma append_snoc_cons (cur : string) (c : ascii) (k : string) :
  String.append (String.append cur (String c "")) k
  = String.append cur (String c k).
Proof.
  induction cur as [|d cur IH]; [done|].
  rewrite !append_cons. by rewrite IH.
Qed.

Lemma has_comma_cons (c : ascii) (k : string) :
  has_comma (String c k) = Ascii.eqb c "," || has_comma k.
Proof.
  unfold has_comma. cbn [includes String.prefix].
  destruct (ascii_dec "," c) as [<-|Hne].
  - by destruct k.
  - destruct (Ascii.eqb_spec c ","); [congruence | done].
Qed.

Lemma split_comma_aux_piece (k rest cur : string) :
  has_comma k = false →
  ApiKeyRotation.split_comma_aux (String.append k rest) cur
  = ApiKeyRotation.split_comma_aux rest (String.append cur k).
Proof.
  revert cur. induction k as [|c k IH]; intros cur Hk.
  - by rewrite append_empty_r.
  - rewrite has_comma_cons in Hk. apply orb_false_elim in Hk as [Hc Hk].
    rewrite append_cons. cbn [ApiKeyRotation.split_comma_aux]. rewrite Hc.
    rewrite IH by done. by rewrite append_snoc_cons.
Qed.

Lemma split_comma_aux_concat (ks : list string) (k cur : string) :
  Forall (λ k, has_comma k = false) (k :: ks) →
  ApiKeyRotation.split_comma_aux (String.concat "," (k :: ks)) cur
  = String.append cur k :: ks.
Proof.
  revert k cur. induction ks as [|k2 ks IH]; intros k cur Hall.
  - cbn [String.concat]. rewrite <- (append_empty_r k) at 1.
    rewrite split_comma_aux_piece by (by inversion Hall). done.
  - inversion Hall as [|? ? Hk Hrest]; subst.
    change (String.concat "," (k :: k2 :: ks))
      with (String.append k (String "," (String.concat "," (k2 :: ks)))).
    rewrite split_comma_aux_piece by done.
    cbn [ApiKeyRotation.split_comma_aux Ascii.eqb Bool.eqb].
    by rewrite IH.
Qed.

(** X5. writing and reading back.  A non-empty list of credentials, each
    without a comma, without surrounding white space and not empty, joined
    with commas into one configuration string, is the key list of the pool
    built from that string: same keys, same order. *)
Theorem constructor_reads_joined_keys (ks : list string) :
  ks ≠ [] → Forall clean_key ks →
  ApiKeyRotation.keys (ApiKeyRotation.constructor (inl (String.concat "," ks))) = ks.
Proof.
  intros Hne Hclean. destruct ks as [|k ks]; [done|].
  unfold ApiKeyRotation.constructor; cbn [ApiKeyRotation.keys].
  unfold ApiKeyRotation.split_comma.
  rewrite split_comma_aux_concat.
  2:{ eapply List.Forall_impl; [|exact Hclean]. by intros ? (_ & ? & _). }
  change (String.append "" k) with k.
  assert (List.filter (λ key, (0 <? String.length key)%nat)
            (map ApiKeyRotation.trim (k :: ks)) = k :: ks) as ->.
  { clear Hne. induction Hclean as [|x l (Hx & _ & Htrim) _ IH]; [done|].
    cbn [map List.filter]. rewrite Htrim, IH.
    destruct x; [done|]. done. }
  done.
Qed.

Lemma constructor_reads_joined_keys_witness :
  ApiKeyRotation.keys
    (ApiKeyRotation.constructor (inl (String.concat "," ["sk-a1"; "sk-b2"; "sk-c3"])))
  = ["sk-a1"; "sk-b2"; "sk-c3"].
Proof.
  apply (constructor_reads_joined_keys ["sk-a1"; "sk-b2"; "sk-c3"]).
  - discriminate.
  - repeat constructor; try discriminate; reflexivity.
Defined.

(** ** Duplicate keys *)

Section Duplicates.

Import ApiKeyRotation.

Variable Date_now : nat -> Z.

Lemma indexOf_first l k i j :
  indexOf l k = Some i → j < i → l !! j ≠ Some k.
Proof.
  revert i j. induction l as [|y l IH]; intros i j; simpl; [done|].
  destruct (String.eqb_spec y k) as [->|Hne].
  - intros [= <-]. lia.
  - destruct (indexOf l k) as [i'|] eqn:Hi'; simpl; [|done].
    intros [= <-] Hj. destruct j as [|j]; simpl.
    + by intros [= ?].
    + eapply IH; [done | lia].
Qed.

Lemma run_call_keeps_shadowed c this tick i j k :
  pool_wf this →
  keys this !! j = Some k → keys this !! i = Some k → j < i →
  keyStatuses this !! i = Some (fresh_status i) →
  keyStatuses (run_call Date_now c (this, tick)).1 !! i = Some (fresh_status i).
Proof.
  intros Hwf Hj Hi Hji Hfresh. destruct c as [|key|idx]; cbn [run_call fst snd].
  - destruct (getNextKey_spec Date_now this tick Hwf)
      as (? & this' & tick' & -> & _ & _ & _ & _ & Hev).
    destruct (Hev i _ Hfresh) as (s' & Hs' & [->|[-> _]]); done.
  - destruct (markKeyFailed_spec Date_now key this tick Hwf)
      as (this' & tick' & -> & _ & _ & _ & Hev).
    destruct (Hev i _ Hfresh) as (s' & Hs' & [->|((k' & -> & Hk') & _)]); [done|].
    exfalso. pose proof (indexOf_Some _ _ _ Hk') as Hik.
    rewrite Hi in Hik. injection Hik as <-.
    by eapply indexOf_first.
  - rewrite resetKey_lookup. case_decide; by rewrite Hfresh.
Qed.

(** X6. a credential listed twice.  [markKeyFailed] finds a key by its
    first position, so a later position that holds the same credential is
    never marked: whatever calls are made on the pool, the status of that
    later slot stays as the constructor made it (no failure, no cooldown). *)
Theorem duplicate_key_never_marked apiKeys cs i j k :
  keys (constructor apiKeys) !! j = Some k →
  keys (constructor apiKeys) !! i = Some k →
  j < i →
  keyStatuses (run_calls Date_now cs (constructor apiKeys, 0)).1 !! i
    = Some (fresh_status i).
Proof.
  intros Hj Hi Hji.
  assert (∀ cs this tick,
    pool_wf this → keys this = keys (constructor apiKeys) →
    (∀ i s, keyStatuses this !! i = Some s → (0 ≤ failureCount s)%Z) →
    keyStatuses this !! i = Some (fresh_status i) →
    keyStatuses (run_calls Date_now cs (this, tick)).1 !! i = Some (fresh_status i))
    as Hgen.
  { clear cs. induction cs as [|c cs IH]; intros this tick Hwf Hkeys Hpos Hfresh; [done|].
    cbn [run_calls fold_left].
    pose proof (run_call_keeps_shadowed c this tick i j k Hwf) as Hkeep.
    rewrite Hkeys in Hkeep. specialize (Hkeep Hj Hi Hji Hfresh).
    destruct (run_call_spec Date_now c this tick Hwf Hpos) as (Hwf' & Hkeys' & Hpos' & _).
    destruct (run_call Date_now c (this, tick)) as [this' tick'].
    cbn [fst] in *. apply IH; try done. by rewrite Hkeys'. }
  apply Hgen.
  - apply constructor_wf.
  - done.
  - intros i' s. unfold constructor; cbn [keyStatuses].
    rewrite init_statuses_lookup. case_decide; [|done]. by intros [= <-].
  - unfold constructor at 1; cbn [keyStatuses]. rewrite init_statuses_lookup.
    rewrite decide_True; [done|]. by eapply lookup_lt_Some.
Qed.

End Duplicates.

(** At a concrete input: the credential [k] listed twice, failed twice. *)
Lemma duplicate_key_never_marked_witness :
  ApiKeyRotation.keyStatuses
    (run_calls frozen_clock
       [MarkKeyFailed (Some "k"); GetNextKey; MarkKeyFailed (Some "k")]
       (ApiKeyRotation.constructor (inr ["k"; "k"]), 0)).1 !! 1
  = Some (fresh_status 1).
Proof.
  apply (duplicate_key_never_marked frozen_clock (inr ["k"; "k"])
           [MarkKeyFailed (Some "k"); GetNextKey; MarkKeyFailed (Some "k")] 1 0 "k").
  - reflexivity.
  - reflexivity.
  - lia.
Defined.

(** ** getAvailableKeyCount *)

Section Counting.

Import ApiKeyRotation.

Variable Date_now : nat -> Z.

Lemma constructor_status apiKeys i :
  i < length (keys (constructor apiKeys)) →
  keyStatuses (constructor apiKeys) !! i = Some (fresh_status i).
Proof.
  intros Hi. unfold constructor at 1; cbn [keyStatuses].
  rewrite init_statuses_lookup.
  change (length _) with (length (keys (constructor apiKeys))).
  by rewrite decide_True.
Qed.

Lemma count_status_step acc s :
  (count_status Date_now acc s).1
    = acc.1 + (if status_counted (Date_now acc.2) s then 1 else 0) ∧
  acc.1 ≤ (count_status Date_now acc s).1 ≤ S acc.1 ∧
  acc.2 ≤ (count_status Date_now acc s).2 ≤ S acc.2.
Proof.
  destruct acc as [count tick]. unfold count_status, status_counted. cbn [fst snd].
  destruct (failureCount s <? MAX_FAILURES)%Z; cbn [andb]; [|cbn [fst snd]; lia].
  destruct (failedAt s) as [a|]; [|cbn [fst snd]; lia].
  destruct (num_truthy a); cbn [negb orb]; [|cbn [fst snd]; lia].
  destruct (COOLDOWN_MS <=? Date_now tick - a)%Z; cbn [fst snd]; lia.
Qed.

Lemma count_fold_bounds this l acc :
  let r := fold_left (λ acc idx, match keyStatuses this !! idx with
                                 | Some status => count_status Date_now acc status
                                 | None => acc
                                 end) l acc in
  acc.1 ≤ r.1 ≤ acc.1 + length l ∧ acc.2 ≤ r.2 ≤ acc.2 + length l.
Proof.
  revert acc. induction l as [|i l IH]; intros acc; cbn [fold_left length]; [lia|].
  specialize (IH (match keyStatuses this !! i with
                  | Some status => count_status Date_now acc status
                  | None => acc
                  end)).
  cbv zeta in IH.
  destruct (keyStatuses this !! i) as [s|]; [|lia].
  pose proof (count_status_step acc s). lia.
Qed.

Lemma count_fold_untouched this l acc :
  (∀ i, i ∈ l → ∃ s, keyStatuses this !! i = Some s ∧
                     failedAt s = None ∧ (failureCount s < MAX_FAILURES)%Z) →
  fold_left (λ acc idx, match keyStatuses this !! idx with
                        | Some status => count_status Date_now acc status
                        | None => acc
                        end) l acc
  = (acc.1 + length l, acc.2).
Proof.
  revert acc. induction l as [|i l IH]; intros acc Hall; cbn [fold_left length].
  - destruct acc. cbn. f_equal. lia.
  - destruct (Hall i) as (s & -> & Hat & Hcount); [by left|].
    rewrite IH by (intros i' Hi'; apply Hall; by right).
    destruct acc as [count tick]. unfold count_status. rewrite Hat.
    apply Z.ltb_lt in Hcount. rewrite Hcount. cbn. f_equal. lia.
Qed.

(** X7. the count of available keys is at most the number of keys, it is
    obtained with at most one clock reading per key, and for a pool that
    has just been constructed it is the number of keys, with no clock
    reading at all. *)
Theorem getAvailableKeyCount_bounds this tick apiKeys :
  (getAvailableKeyCount Date_now this tick).1 ≤ getKeyCount this ∧
  tick ≤ (getAvailableKeyCount Date_now this tick).2 ≤ tick + getKeyCount this ∧
  getAvailableKeyCount Date_now (constructor apiKeys) tick
    = (getKeyCount (constructor apiKeys), tick).
Proof.
  unfold getAvailableKeyCount, getKeyCount.
  pose proof (count_fold_bounds this (seq 0 (length (keys this))) (0, tick)) as Hb.
  cbv zeta in Hb. rewrite length_seq in Hb. cbn [fst snd] in Hb.
  split_and!; try lia.
  rewrite count_fold_untouched; [by rewrite length_seq|].
  intros i Hi. apply elem_of_seq in Hi.
  exists (fresh_status i). by rewrite constructor_status by lia.
Qed.

Lemma repeated_failures_state k idx m :
  ∀ this tick s0,
    pool_wf this → indexOf (keys this) k = Some idx →
    keyStatuses this !! idx = Some s0 →
    let st := run_calls Date_now (replicate (S m) (MarkKeyFailed (Some k)))
                (this, tick) in
    st.2 = tick + S m ∧ keys st.1 = keys this ∧
    keyStatuses st.1 =
      <[idx := {| index := index s0;
                  failedAt := Some (Date_now (tick + m));
                  failureCount := (failureCount s0 + Z.of_nat (S m))%Z |}]>
        (keyStatuses this).
Proof.
  induction m as [|m IH]; intros this tick s0 Hwf Hidx Hs0;
    destruct (markKeyFailed_found Date_now k idx s0 this tick Hidx Hs0)
      as (this1 & Heq & Hkeys1 & Hst1);
    destruct (markKeyFailed_spec Date_now (Some k) this tick Hwf)
      as (this1' & tick1' & Heq' & Hwf1 & _);
    rewrite Heq in Heq'; injection Heq' as <- <-.
  - cbn [replicate run_calls fold_left run_call fst snd]. rewrite Heq. cbn [fst snd].
    rewrite Nat.add_0_r. split; [lia|]. split; [done|].
    by rewrite Hst1.
  - change (replicate (S (S m)) (MarkKeyFailed (Some k)))
      with (MarkKeyFailed (Some k) :: replicate (S m) (MarkKeyFailed (Some k))).
    cbn [run_calls fold_left]. cbn [run_call fst snd]. rewrite Heq.
    specialize (IH this1 (S tick)
                  {| index := index s0; failedAt := Some (Date_now tick);
                     failureCount := (failureCount s0 + 1)%Z |} Hwf1).
    rewrite Hkeys1 in IH. specialize (IH Hidx).
    rewrite Hst1, lookup_insert_eq in IH. specialize (IH eq_refl).
    cbv zeta in IH. unfold run_calls in IH. destruct IH as (Ht & Hk & Hs).
    split_and!; [lia | by rewrite Hk |].
    rewrite Hs, insert_insert_eq. cbn [index failureCount].
    replace (S tick + m) with (tick + S m) by lia.
    replace (failureCount s0 + 1 + Z.of_nat (S m))%Z
      with (failureCount s0 + Z.of_nat (S (S m)))%Z by lia.
    done.
Qed.

(** X8. availability after failures of one key.  In a pool of distinct
    keys without any failure, after [m+1] consecutive [markKeyFailed(k)]
    calls (the last one at a non-zero time), [getAvailableKeyCount()]
    leaves [k] out while the time read is less than [COOLDOWN_MS] after
    the last failure and counts every key again once that time has
    passed, as long as [k] failed fewer than [MAX_FAILURES] times; from
    the third failure on [k] is left out whatever the time, and the clock
    is not even read. *)
Theorem getAvailableKeyCount_after_failures this tick k idx m :
  pool_wf this → NoDup (keys this) → keys this !! idx = Some k →
  (∀ i s, keyStatuses this !! i = Some s →
          failedAt s = None ∧ failureCount s = 0%Z) →
  Date_now (tick + m) ≠ 0%Z →
  let '(marked, tick1) :=
    run_calls Date_now (replicate (S m) (MarkKeyFailed (Some k))) (this, tick) in
  tick1 = tick + S m ∧
  getAvailableKeyCount Date_now marked tick1 =
    if (Z.of_nat (S m) <? MAX_FAILURES)%Z
    then if (COOLDOWN_MS <=? Date_now tick1 - Date_now (tick + m))%Z
         then (getKeyCount this, S tick1)
         else (getKeyCount this - 1, S tick1)
    else (getKeyCount this - 1, tick1).
Proof.
  intros Hwf Hnd Hk Hfresh Hnz.
  pose proof (indexOf_NoDup _ _ _ Hnd Hk) as Hidx.
  pose proof (lookup_lt_Some _ _ _ Hk) as Hlt.
  destruct (proj2 (proj2 Hwf idx) Hlt) as [s0 Hs0].
  destruct (Hfresh _ _ Hs0) as [Hat0 Hc0].
  pose proof (repeated_failures_state k idx m this tick s0 Hwf Hidx Hs0) as Hst.
  cbv zeta in Hst.
  destruct (run_calls Date_now (replicate (S m) (MarkKeyFailed (Some k))) (this, tick))
    as [marked tick1].
  cbn [fst snd] in Hst. destruct Hst as (-> & Hkeys & Hstat).
  split; [done|].
  unfold getAvailableKeyCount, getKeyCount. rewrite Hkeys.
  assert (seq 0 (length (keys this))
          = seq 0 idx ++ idx :: seq (S idx) (length (keys this) - S idx)) as ->.
  { replace (length (keys this)) with (idx + S (length (keys this) - S idx)) at 1 by lia.
    rewrite seq_app. done. }
  assert (∀ l acc, (∀ i, i ∈ l → i ≠ idx ∧ i < length (keys this)) →
    fold_left (λ acc idx0, match keyStatuses marked !! idx0 with
                           | Some status => count_status Date_now acc status
                           | None => acc
                           end) l acc = (acc.1 + length l, acc.2)) as Hother.
  { intros l acc Hl. apply count_fold_untouched. intros i Hi.
    destruct (Hl i Hi) as [Hne Hil].
    destruct (proj2 (proj2 Hwf i) Hil) as [s Hs].
    exists s. rewrite Hstat, lookup_insert_ne by done.
    destruct (Hfresh _ _ Hs) as [? Hc]. split_and!; try done. by rewrite Hc. }
  rewrite fold_left_app. rewrite (Hother (seq 0 idx)).
  2:{ intros i Hi. apply elem_of_seq in Hi. lia. }
  assert (keyStatuses marked !! idx =
            Some {| index := index s0; failedAt := Some (Date_now (tick + m));
                    failureCount := (failureCount s0 + Z.of_nat (S m))%Z |}) as Hmk
    by (rewrite Hstat; apply lookup_insert_eq).
  cbn [fold_left fst snd]. rewrite Hmk.
  rewrite length_seq.
  assert (num_truthy (Date_now (tick + m)) = true) as Htr
    by (unfold num_truthy; by destruct (Z.eqb_spec (Date_now (tick + m)) 0)).
  unfold count_status at 2. cbn [failureCount failedAt]. rewrite Hc0, Htr.
  change (0 + Z.of_nat (S m))%Z with (Z.of_nat (S m)).
  destruct (Z.of_nat (S m) <? MAX_FAILURES)%Z.
  - destruct (COOLDOWN_MS <=? Date_now (tick + S m) - Date_now (tick + m))%Z;
      (rewrite (Hother (seq (S idx) _)); [|intros i Hi; apply elem_of_seq in Hi; lia]);
      cbn [fst snd]; rewrite length_seq; f_equal; lia.
  - rewrite (Hother (seq (S idx) _)); [|intros i Hi; apply elem_of_seq in Hi; lia].
    cbn [fst snd]. rewrite length_seq. f_equal. lia.
Qed.




End Counting.

(** At a concrete input: the scenario of a pool [k1, k2] whose key [k1]
    failed twice, queried before and after the jump of the clock. *)
Lemma getAvailableKeyCount_after_failures_witness :
  let '(marked, tick1) :=
    run_calls jumping_clock (replicate 2 (MarkKeyFailed (Some "k1")))
      (ApiKeyRotation.constructor (inl "k1,k2"), 0) in
  tick1 = 0 + 2 ∧
  ApiKeyRotation.getAvailableKeyCount jumping_clock marked tick1 =
    if (Z.of_nat 2 <? ApiKeyRotation.MAX_FAILURES)%Z
    then if (ApiKeyRotation.COOLDOWN_MS <=? jumping_clock tick1 - jumping_clock (0 + 1))%Z
         then (ApiKeyRotation.getKeyCount (ApiKeyRotation.constructor (inl "k1,k2")),
               S tick1)
         else (ApiKeyRotation.getKeyCount (ApiKeyRotation.constructor (inl "k1,k2")) - 1,
               S tick1)
    else (ApiKeyRotation.getKeyCount (ApiKeyRotation.constructor (inl "k1,k2")) - 1,
          tick1).
Proof.
  apply (getAvailableKeyCount_after_failures jumping_clock
           (ApiKeyRotation.constructor (inl "k1,k2")) 0 "k1" 0 1).
  - apply constructor_wf.
  - apply (bool_decide_unpack _). vm_compute. exact I.
  - reflexivity.
  - intros i s. unfold ApiKeyRotation.constructor; cbn [ApiKeyRotation.keyStatuses].
    rewrite init_statuses_lookup. case_decide; [|done]. by intros [= <-].
  - vm_compute. discriminate.
Defined.


(** * Further properties of the provider adapters *)

Section GroqMore.

Import Types GroqService.

Variable Date_now : nat -> Z.
Variable network : nat -> Wire.Request -> Wire.Response.
Variables (lastMessage : Message) (history : list Message).

Lemma Groq_loop_request_count config remaining retryCount this io yielded :
  length (Wire.sent (streamMessage_loop Date_now network remaining retryCount
                       lastMessage history config this io yielded).2)
  ≤ length (Wire.sent io) + remaining.
Proof.
  revert retryCount this io yielded.
  induction remaining as [|remaining IH]; intros retryCount this io yielded.
  - cbn. lia.
  - cbn [streamMessage_loop]. unfold Wire.send.
    set (req := Wire.GroqCreate (groq this) (body_of lastMessage history config)).
    set (io1 := {| Wire.tick := Wire.tick io; Wire.sent := Wire.sent io ++ [req] |}).
    assert (length (Wire.sent io1) = S (length (Wire.sent io))) as Hone
      by (cbn; rewrite length_app; cbn; lia).
    destruct (Wire.failure (network (length (Wire.sent io)) req)) as [e|];
      [|cbn [snd]; lia].
    destruct (isRateLimitError (errorMessage_of e) && (retryCount <? MAX_RETRIES - 1));
      [|cbn [snd]; lia].
    destruct (ApiKeyRotation.markKeyFailed Date_now (currentKey this)
                (keyRotation this) (Wire.tick io1)) as [[[[]|e1] kr] tick1];
      [|cbn [snd Wire.set_tick Wire.sent]; lia].
    destruct (reinitializeWithNewKey Date_now (set_keyRotation kr this) tick1)
      as [[[[]|e2] this'] tick2]; [|cbn [snd Wire.set_tick Wire.sent]; lia].
    specialize (IH (S retryCount) this' (Wire.set_tick tick2 io1)
                  (yielded ++ outputs_of (Wire.chunks (network (length (Wire.sent io)) req)))).
    cbn [Wire.set_tick Wire.sent] in IH. lia.
Qed.

Lemma Groq_outputs_text_only chunks : Forall text_only (outputs_of chunks).
Proof.
  unfold outputs_of. induction chunks as [|c chunks IH]; [constructor|].
  cbn [flat_map]. apply Forall_app. split; [|done].
  destruct (Wire.raw_text c) as [s|]; [|constructor].
  destruct s; [constructor|]. by repeat constructor.
Qed.

Lemma Groq_loop_text_only config remaining retryCount this io yielded :
  Forall text_only yielded →
  Forall text_only
    (streamMessage_loop Date_now network remaining retryCount lastMessage history
       config this io yielded).1.1.1.
Proof.
  revert retryCount this io yielded.
  induction remaining as [|remaining IH]; intros retryCount this io yielded Hy; [done|].
  cbn [streamMessage_loop]. unfold Wire.send.
  set (req := Wire.GroqCreate (groq this) (body_of lastMessage history config)).
  set (io1 := {| Wire.tick := Wire.tick io; Wire.sent := Wire.sent io ++ [req] |}).
  assert (Forall text_only
            (yielded ++ outputs_of (Wire.chunks (network (length (Wire.sent io)) req))))
    as Hy1 by (apply Forall_app; split; [done | apply Groq_outputs_text_only]).
  destruct (Wire.failure (network (length (Wire.sent io)) req)) as [e|]; [|done].
  destruct (isRateLimitError (errorMessage_of e) && (retryCount <? MAX_RETRIES - 1));
    [|done].
  destruct (ApiKeyRotation.markKeyFailed Date_now (currentKey this)
              (keyRotation this) (Wire.tick io1)) as [[[[]|e1] kr] tick1]; [|done].
  destruct (reinitializeWithNewKey Date_now (set_keyRotation kr this) tick1)
    as [[[[]|e2] this'] tick2]; [|done].
  by apply IH.
Qed.

(** The fields of [config] the request body is built from. *)
Lemma Groq_loop_config_fields config config' remaining retryCount this io yielded :
  body_of lastMessage history config = body_of lastMessage history config' →
  streamMessage_loop Date_now network remaining retryCount lastMessage history
    config this io yielded
  = streamMessage_loop Date_now network remaining retryCount lastMessage history
      config' this io yielded.
Proof.
  intros Hbody. revert retryCount this io yielded.
  induction remaining as [|remaining IH]; intros retryCount this io yielded; [done|].
  cbn [streamMessage_loop]. rewrite Hbody.
  destruct (Wire.send network _ io) as [response io1].
  destruct (Wire.failure response) as [e|]; [|done].
  destruct (isRateLimitError (errorMessage_of e) && (retryCount <? MAX_RETRIES - 1));
    [|done].
  destruct (ApiKeyRotation.markKeyFailed Date_now (currentKey this)
              (keyRotation this) (Wire.tick io1)) as [[[[]|e1] kr] tick1]; [|done].
  destruct (reinitializeWithNewKey Date_now (set_keyRotation kr this) tick1)
    as [[[[]|e2] this'] tick2]; [|done].
  apply IH.
Qed.

Lemma Groq_first_attempt_succeeds config this io resp :
  (∀ req, network (length (Wire.sent io)) req = resp) →
  Wire.failure resp = None →
  ∃ req,
    streamMessage Date_now network lastMessage history config this io
      = (outputs_of (Wire.chunks resp), Normal tt, this,
         {| Wire.tick := Wire.tick io; Wire.sent := Wire.sent io ++ [req] |}) ∧
    request_key req = groq this.
Proof.
  intros Hnet Hok. unfold streamMessage. cbn [streamMessage_loop MAX_RETRIES].
  unfold Wire.send. rewrite Hnet, Hok. by eexists.
Qed.

Lemma Groq_retry_rotates config this io resp1 resp2 e :
  pool_wf (keyRotation this) →
  (∀ req, network (length (Wire.sent io)) req = resp1) →
  Wire.failure resp1 = Some e → isRateLimitError (errorMessage_of e) = true →
  (∀ req, network (S (length (Wire.sent io))) req = resp2) →
  Wire.failure resp2 = None →
  ∃ kr1 tick1 key kr2 tick2 this' io' req1 req2,
    ApiKeyRotation.markKeyFailed Date_now (currentKey this) (keyRotation this)
      (Wire.tick io) = (Normal tt, kr1, tick1) ∧
    ApiKeyRotation.getNextKey Date_now kr1 tick1 = (Normal (Some key), kr2, tick2) ∧
    streamMessage Date_now network lastMessage history config this io
      = (outputs_of (Wire.chunks resp1) ++ outputs_of (Wire.chunks resp2),
         Normal tt, this', io') ∧
    Wire.sent io' = Wire.sent io ++ [req1; req2] ∧
    request_key req1 = groq this ∧ request_key req2 = Some key ∧
    keyRotation this' = kr2 ∧ currentKey this' = Some key ∧ Wire.tick io' = tick2.
Proof.
  intros Hwf Hnet1 Hfail Hrl Hnet2 Hok.
  destruct (markKeyFailed_spec Date_now (currentKey this) _ (Wire.tick io) Hwf)
    as (kr1 & tick1 & Hmark & Hwf1 & _).
  destruct (getNextKey_spec Date_now kr1 tick1 Hwf1)
    as (key & kr2 & tick2 & Hnext & _).
  eexists kr1, tick1, key, kr2, tick2, _, _, _, _.
  split; [exact Hmark|]. split; [exact Hnext|].
  unfold streamMessage. cbn [streamMessage_loop MAX_RETRIES].
  unfold Wire.send. rewrite Hnet1, Hfail, Hrl. cbn [andb Nat.ltb Nat.leb Nat.sub].
  cbn [Wire.tick]. rewrite Hmark. unfold reinitializeWithNewKey.
  cbn [set_keyRotation keyRotation]. rewrite Hnext.
  cbn [Wire.set_tick Wire.sent]. rewrite length_app. cbn [length].
  rewrite Nat.add_1_r, Hnet2, Hok.
  split_and!; try reflexivity.
  all: try (by rewrite <- app_assoc).
  all: reflexivity.
Qed.

Lemma Groq_loop_keeps_invariant config remaining retryCount this io yielded :
  client_inv (keyRotation this) (groq this) (currentKey this) →
  let this' := (streamMessage_loop Date_now network remaining retryCount
                  lastMessage history config this io yielded).1.2 in
  client_inv (keyRotation this') (groq this') (currentKey this') ∧
  ApiKeyRotation.keys (keyRotation this') = ApiKeyRotation.keys (keyRotation this).
Proof.
  cbv zeta. revert retryCount this io yielded.
  induction remaining as [|remaining IH]; intros retryCount this io yielded Hinv;
    [done|].
  cbn [streamMessage_loop]. unfold Wire.send.
  set (req := Wire.GroqCreate (groq this) (body_of lastMessage history config)).
  set (io1 := {| Wire.tick := Wire.tick io; Wire.sent := Wire.sent io ++ [req] |}).
  destruct (Wire.failure (network (length (Wire.sent io)) req)) as [e|]; [|done].
  destruct (isRateLimitError (errorMessage_of e) && (retryCount <? MAX_RETRIES - 1));
    [|done].
  destruct Hinv as (Hwf & Hclient & k & Hk & Hin).
  destruct (markKeyFailed_spec Date_now (currentKey this) _ (Wire.tick io1) Hwf)
    as (kr1 & tick1 & Hmark & Hwf1 & Hkeys1 & _).
  rewrite Hmark. unfold reinitializeWithNewKey. cbn [set_keyRotation keyRotation].
  destruct (getNextKey_spec Date_now kr1 tick1 Hwf1)
    as (key & kr2 & tick2 & Hnext & Hkey & Hwf2 & Hkeys2 & _).
  rewrite Hnext.
  match goal with
  | |- context [streamMessage_loop _ _ _ _ _ _ _ ?t ?i ?y] =>
      destruct (IH (S retryCount) t i y) as [Hinv' Hkeys']
  end.
  { split_and!; [done | done |]. exists key. split; [done|].
    cbn [set_client set_keyRotation keyRotation]. by rewrite Hkeys2. }
  split; [done|]. rewrite Hkeys'. cbn [set_client set_keyRotation keyRotation].
  by rewrite Hkeys2, Hkeys1.
Qed.

Lemma Groq_init_invariant env tick :
  ∃ this tick',
    init Date_now env tick = (Normal this, tick') ∧
    client_inv (keyRotation this) (groq this) (currentKey this) ∧
    ApiKeyRotation.keys (keyRotation this)
      = ApiKeyRotation.keys (ApiKeyRotation.constructor (inl (adapter_apiKeys Groq env))) ∧
    currentKey this
      = ApiKeyRotation.keys (keyRotation this) !! 0.
Proof.
  unfold init. cbn [adapter_apiKeys].
  set (apiKeys := str_or (GROQ_API_KEY env) "").
  destruct (getNextKey_fresh Date_now (inl apiKeys) tick)
    as (key & kr & Hnext & Hwf & Hkeys & Hkey).
  rewrite Hnext. eexists _, _. split; [reflexivity|].
  cbn [keyRotation groq currentKey]. split_and!; [|done|by rewrite Hkeys].
  split_and!; [done | done |].
  exists key. split; [done|]. rewrite Hkeys. by eapply list_elem_of_lookup_2.
Qed.

End GroqMore.


Section OpenRouterMore.

Import Types OpenRouterService.

Variable Date_now : nat -> Z.
Variable network : nat -> Wire.Request -> Wire.Response.
Variables (lastMessage : Message) (history : list Message).

Lemma OpenRouter_loop_request_count config remaining retryCount this io yielded :
  length (Wire.sent (streamMessage_loop Date_now network remaining retryCount
                       lastMessage history config this io yielded).2)
  ≤ length (Wire.sent io) + remaining.
Proof.
  revert retryCount this io yielded.
  induction remaining as [|remaining IH]; intros retryCount this io yielded.
  - cbn. lia.
  - cbn [streamMessage_loop]. unfold Wire.send.
    set (req := Wire.OpenRouterCreate (openrouter this) (body_of lastMessage history config)).
    set (io1 := {| Wire.tick := Wire.tick io; Wire.sent := Wire.sent io ++ [req] |}).
    assert (length (Wire.sent io1) = S (length (Wire.sent io))) as Hone
      by (cbn; rewrite length_app; cbn; lia).
    destruct (Wire.failure (network (length (Wire.sent io)) req)) as [e|];
      [|cbn [snd]; lia].
    destruct (isRateLimitError (errorMessage_of e) && (retryCount <? MAX_RETRIES - 1));
      [|cbn [snd]; lia].
    destruct (ApiKeyRotation.markKeyFailed Date_now (currentKey this)
                (keyRotation this) (Wire.tick io1)) as [[[[]|e1] kr] tick1];
      [|cbn [snd Wire.set_tick Wire.sent]; lia].
    destruct (reinitializeWithNewKey Date_now (set_keyRotation kr this) tick1)
      as [[[[]|e2] this'] tick2]; [|cbn [snd Wire.set_tick Wire.sent]; lia].
    specialize (IH (S retryCount) this' (Wire.set_tick tick2 io1)
                  (yielded ++ outputs_of (Wire.chunks (network (length (Wire.sent io)) req)))).
    cbn [Wire.set_tick Wire.sent] in IH. lia.
Qed.

Lemma OpenRouter_outputs_text_only chunks : Forall text_only (outputs_of chunks).
Proof.
  unfold outputs_of. induction chunks as [|c chunks IH]; [constructor|].
  cbn [flat_map]. apply Forall_app. split; [|done].
  destruct (Wire.raw_text c) as [s|]; [|constructor].
  destruct s; [constructor|]. by repeat constructor.
Qed.

Lemma OpenRouter_loop_text_only config remaining retryCount this io yielded :
  Forall text_only yielded →
  Forall text_only
    (streamMessage_loop Date_now network remaining retryCount lastMessage history
       config this io yielded).1.1.1.
Proof.
  revert retryCount this io yielded.
  induction remaining as [|remaining IH]; intros retryCount this io yielded Hy; [done|].
  cbn [streamMessage_loop]. unfold Wire.send.
  set (req := Wire.OpenRouterCreate (openrouter this) (body_of lastMessage history config)).
  set (io1 := {| Wire.tick := Wire.tick io; Wire.sent := Wire.sent io ++ [req] |}).
  assert (Forall text_only
            (yielded ++ outputs_of (Wire.chunks (network (length (Wire.sent io)) req))))
    as Hy1 by (apply Forall_app; split; [done | apply OpenRouter_outputs_text_only]).
  destruct (Wire.failure (network (length (Wire.sent io)) req)) as [e|]; [|done].
  destruct (isRateLimitError (errorMessage_of e) && (retryCount <? MAX_RETRIES - 1));
    [|done].
  destruct (ApiKeyRotation.markKeyFailed Date_now (currentKey this)
              (keyRotation this) (Wire.tick io1)) as [[[[]|e1] kr] tick1]; [|done].
  destruct (reinitializeWithNewKey Date_now (set_keyRotation kr this) tick1)
    as [[[[]|e2] this'] tick2]; [|done].
  by apply IH.
Qed.

(** The fields of [config] the request body is built from. *)
Lemma OpenRouter_loop_config_fields config config' remaining retryCount this io yielded :
  body_of lastMessage history config = body_of lastMessage history config' →
  streamMessage_loop Date_now network remaining retryCount lastMessage history
    config this io yielded
  = streamMessage_loop Date_now network remaining retryCount lastMessage history
      config' this io yielded.
Proof.
  intros Hbody. revert retryCount this io yielded.
  induction remaining as [|remaining IH]; intros retryCount this io yielded; [done|].
  cbn [streamMessage_loop]. rewrite Hbody.
  destruct (Wire.send network _ io) as [response io1].
  destruct (Wire.failure response) as [e|]; [|done].
  destruct (isRateLimitError (errorMessage_of e) && (retryCount <? MAX_RETRIES - 1));
    [|done].
  destruct (ApiKeyRotation.markKeyFailed Date_now (currentKey this)
              (keyRotation this) (Wire.tick io1)) as [[[[]|e1] kr] tick1]; [|done].
  destruct (reinitializeWithNewKey Date_now (set_keyRotation kr this) tick1)
    as [[[[]|e2] this'] tick2]; [|done].
  apply IH.
Qed.

Lemma OpenRouter_first_attempt_succeeds config this io resp :
  (∀ req, network (length (Wire.sent io)) req = resp) →
  Wire.failure resp = None →
  ∃ req,
    streamMessage Date_now network lastMessage history config this io
      = (outputs_of (Wire.chunks resp), Normal tt, this,
         {| Wire.tick := Wire.tick io; Wire.sent := Wire.sent io ++ [req] |}) ∧
    request_key req = openrouter this.
Proof.
  intros Hnet Hok. unfold streamMessage. cbn [streamMessage_loop MAX_RETRIES].
  unfold Wire.send. rewrite Hnet, Hok. by eexists.
Qed.

Lemma OpenRouter_retry_rotates config this io resp1 resp2 e :
  pool_wf (keyRotation this) →
  (∀ req, network (length (Wire.sent io)) req = resp1) →
  Wire.failure resp1 = Some e → isRateLimitError (errorMessage_of e) = true →
  (∀ req, network (S (length (Wire.sent io))) req = resp2) →
  Wire.failure resp2 = None →
  ∃ kr1 tick1 key kr2 tick2 this' io' req1 req2,
    ApiKeyRotation.markKeyFailed Date_now (currentKey this) (keyRotation this)
      (Wire.tick io) = (Normal tt, kr1, tick1) ∧
    ApiKeyRotation.getNextKey Date_now kr1 tick1 = (Normal (Some key), kr2, tick2) ∧
    streamMessage Date_now network lastMessage history config this io
      = (outputs_of (Wire.chunks resp1) ++ outputs_of (Wire.chunks resp2),
         Normal tt, this', io') ∧
    Wire.sent io' = Wire.sent io ++ [req1; req2] ∧
    request_key req1 = openrouter this ∧ request_key req2 = Some key ∧
    keyRotation this' = kr2 ∧ currentKey this' = Some key ∧ Wire.tick io' = tick2.
Proof.
  intros Hwf Hnet1 Hfail Hrl Hnet2 Hok.
  destruct (markKeyFailed_spec Date_now (currentKey this) _ (Wire.tick io) Hwf)
    as (kr1 & tick1 & Hmark & Hwf1 & _).
  destruct (getNextKey_spec Date_now kr1 tick1 Hwf1)
    as (key & kr2 & tick2 & Hnext & _).
  eexists kr1, tick1, key, kr2, tick2, _, _, _, _.
  split; [exact Hmark|]. split; [exact Hnext|].
  unfold streamMessage. cbn [streamMessage_loop MAX_RETRIES].
  unfold Wire.send. rewrite Hnet1, Hfail, Hrl. cbn [andb Nat.ltb Nat.leb Nat.sub].
  cbn [Wire.tick]. rewrite Hmark. unfold reinitializeWithNewKey.
  cbn [set_keyRotation keyRotation]. rewrite Hnext.
  cbn [Wire.set_tick Wire.sent]. rewrite length_app. cbn [length].
  rewrite Nat.add_1_r, Hnet2, Hok.
  split_and!; try reflexivity.
  all: try (by rewrite <- app_assoc).
  all: reflexivity.
Qed.

Lemma OpenRouter_loop_keeps_invariant config remaining retryCount this io yielded :
  client_inv (keyRotation this) (openrouter this) (currentKey this) →
  let this' := (streamMessage_loop Date_now network remaining retryCount
                  lastMessage history config this io yielded).1.2 in
  client_inv (keyRotation this') (openrouter this') (currentKey this') ∧
  ApiKeyRotation.keys (keyRotation this') = ApiKeyRotation.keys (keyRotation this).
Proof.
  cbv zeta. revert retryCount this io yielded.
  induction remaining as [|remaining IH]; intros retryCount this io yielded Hinv;
    [done|].
  cbn [streamMessage_loop]. unfold Wire.send.
  set (req := Wire.OpenRouterCreate (openrouter this) (body_of lastMessage history config)).
  set (io1 := {| Wire.tick := Wire.tick io; Wire.sent := Wire.sent io ++ [req] |}).
  destruct (Wire.failure (network (length (Wire.sent io)) req)) as [e|]; [|done].
  destruct (isRateLimitError (errorMessage_of e) && (retryCount <? MAX_RETRIES - 1));
    [|done].
  destruct Hinv as (Hwf & Hclient & k & Hk & Hin).
  destruct (markKeyFailed_spec Date_now (currentKey this) _ (Wire.tick io1) Hwf)
    as (kr1 & tick1 & Hmark & Hwf1 & Hkeys1 & _).
  rewrite Hmark. unfold reinitializeWithNewKey. cbn [set_keyRotation keyRotation].
  destruct (getNextKey_spec Date_now kr1 tick1 Hwf1)
    as (key & kr2 & tick2 & Hnext & Hkey & Hwf2 & Hkeys2 & _).
  rewrite Hnext.
  match goal with
  | |- context [streamMessage_loop _ _ _ _ _ _ _ ?t ?i ?y] =>
      destruct (IH (S retryCount) t i y) as [Hinv' Hkeys']
  end.
  { split_and!; [done | done |]. exists key. split; [done|].
    cbn [set_client set_keyRotation keyRotation]. by rewrite Hkeys2. }
  split; [done|]. rewrite Hkeys'. cbn [set_client set_keyRotation keyRotation].
  by rewrite Hkeys2, Hkeys1.
Qed.

Lemma OpenRouter_init_invariant env tick :
  ∃ this tick',
    init Date_now env tick = (Normal this, tick') ∧
    client_inv (keyRotation this) (openrouter this) (currentKey this) ∧
    ApiKeyRotation.keys (keyRotation this)
      = ApiKeyRotation.keys (ApiKeyRotation.constructor (inl (adapter_apiKeys OpenRouter env))) ∧
    currentKey this
      = ApiKeyRotation.keys (keyRotation this) !! 0.
Proof.
  unfold init. cbn [adapter_apiKeys].
  set (apiKeys := str_or (OPENROUTER_API_KEY env) "").
  destruct (getNextKey_fresh Date_now (inl apiKeys) tick)
    as (key & kr & Hnext & Hwf & Hkeys & Hkey).
  rewrite Hnext. eexists _, _. split; [reflexivity|].
  cbn [keyRotation openrouter currentKey]. split_and!; [|done|by rewrite Hkeys].
  split_and!; [done | done |].
  exists key. split; [done|]. rewrite Hkeys. by eapply list_elem_of_lookup_2.
Qed.

End OpenRouterMore.

Section GeminiMore.

Import Types GeminiService.

Variable Date_now : nat -> Z.
Variable network : nat -> Wire.Request -> Wire.Response.
Variables (lastMessage : Message) (history : list Message).

Lemma Gemini_chat_initialized config this :
  ∃ session, chat (initChat config history this) = Some session ∧
             Wire.apiKey session = ai this.
Proof. by eexists. Qed.

Lemma Gemini_loop_request_count config remaining retryCount this io yielded :
  length (Wire.sent (streamMessage_loop Date_now network remaining retryCount
                       lastMessage history config this io yielded).2)
  ≤ length (Wire.sent io) + remaining.
Proof.
  revert retryCount this io yielded.
  induction remaining as [|remaining IH]; intros retryCount this io yielded.
  - cbn. lia.
  - cbn [streamMessage_loop]. rewrite orb_true_r.
    set (this1 := initChat config history this).
    destruct (chat this1) as [session|] eqn:Hchat; [|by cbn in Hchat].
    unfold Wire.send.
    set (req := Wire.GeminiSendMessageStream session _).
    set (io1 := {| Wire.tick := Wire.tick io; Wire.sent := Wire.sent io ++ [req] |}).
    assert (length (Wire.sent io1) = S (length (Wire.sent io))) as Hone
      by (cbn; rewrite length_app; cbn; lia).
    destruct (Wire.failure (network (length (Wire.sent io)) req)) as [e|];
      [|cbn [snd]; lia].
    destruct (isRateLimitError (errorMessage_of e) && (retryCount <? MAX_RETRIES - 1));
      [|cbn [snd]; lia].
    destruct (ApiKeyRotation.markKeyFailed Date_now (currentKey this1)
                (keyRotation this1) (Wire.tick io1)) as [[[[]|e1] kr] tick1];
      [|cbn [snd Wire.set_tick Wire.sent]; lia].
    destruct (reinitializeWithNewKey Date_now (set_keyRotation kr this1) tick1)
      as [[[[]|e2] this'] tick2]; [|cbn [snd Wire.set_tick Wire.sent]; lia].
    specialize (IH (S retryCount) this' (Wire.set_tick tick2 io1)
                  (yielded ++ map output_of (Wire.chunks (network (length (Wire.sent io)) req)))).
    cbn [Wire.set_tick Wire.sent] in IH. lia.
Qed.

(** The fields of [config] the chat session is built from. *)
Lemma Gemini_loop_config_fields config config' remaining retryCount this io yielded :
  (∀ this0, initChat config history this0 = initChat config' history this0) →
  streamMessage_loop Date_now network remaining retryCount lastMessage history
    config this io yielded
  = streamMessage_loop Date_now network remaining retryCount lastMessage history
      config' this io yielded.
Proof.
  intros Hinit. revert retryCount this io yielded.
  induction remaining as [|remaining IH]; intros retryCount this io yielded; [done|].
  cbn [streamMessage_loop]. rewrite !orb_true_r. rewrite Hinit.
  set (this1 := initChat config' history this).
  destruct (chat this1) as [session|] eqn:Hchat; [|by cbn in Hchat].
  destruct (Wire.send network _ io) as [response io1].
  destruct (Wire.failure response) as [e|]; [|done].
  destruct (isRateLimitError (errorMessage_of e) && (retryCount <? MAX_RETRIES - 1));
    [|done].
  destruct (ApiKeyRotation.markKeyFailed Date_now (currentKey this1)
              (keyRotation this1) (Wire.tick io1)) as [[[[]|e1] kr] tick1]; [|done].
  destruct (reinitializeWithNewKey Date_now (set_keyRotation kr this1) tick1)
    as [[[[]|e2] this'] tick2]; [|done].
  apply IH.
Qed.

(** The session, the model and the search flag a call finds in the
    service are not read: the first thing an attempt does is to replace
    them. *)
Lemma Gemini_loop_session_replaced config remaining retryCount this this' io yielded :
  keyRotation this = keyRotation this' → ai this = ai this' →
  currentKey this = currentKey this' →
  streamMessage_loop Date_now network (S remaining) retryCount lastMessage history
    config this io yielded
  = streamMessage_loop Date_now network (S remaining) retryCount lastMessage history
      config this' io yielded.
Proof.
  intros Hkr Hai Hkey.
  assert (initChat config history this = initChat config history this') as Hinit
    by (unfold initChat; by rewrite Hkr, Hai, Hkey).
  cbn [streamMessage_loop]. rewrite !orb_true_r. by rewrite Hinit.
Qed.

Lemma Gemini_attempt_succeeds config remaining retryCount this io yielded resp :
  (∀ req, network (length (Wire.sent io)) req = resp) →
  Wire.failure resp = None →
  ∃ req,
    streamMessage_loop Date_now network (S remaining) retryCount lastMessage
      history config this io yielded
      = (yielded ++ map output_of (Wire.chunks resp), Normal tt,
         initChat config history this,
         {| Wire.tick := Wire.tick io; Wire.sent := Wire.sent io ++ [req] |}) ∧
    request_key req = ai this.
Proof.
  intros Hnet Hok. cbn [streamMessage_loop].
  rewrite orb_true_r. cbn [initChat chat].
  unfold Wire.send. rewrite Hnet, Hok. by eexists.
Qed.

Lemma Gemini_attempt_rate_limited config remaining retryCount this io yielded
    resp e kr1 tick1 key kr2 tick2 :
  (∀ req, network (length (Wire.sent io)) req = resp) →
  Wire.failure resp = Some e → isRateLimitError (errorMessage_of e) = true →
  retryCount < 2 →
  ApiKeyRotation.markKeyFailed Date_now (currentKey this) (keyRotation this)
    (Wire.tick io) = (Normal tt, kr1, tick1) →
  ApiKeyRotation.getNextKey Date_now kr1 tick1 = (Normal (Some key), kr2, tick2) →
  ∃ req this',
    streamMessage_loop Date_now network (S remaining) retryCount lastMessage
      history config this io yielded
      = streamMessage_loop Date_now network remaining (S retryCount) lastMessage
          history config this'
          {| Wire.tick := tick2; Wire.sent := Wire.sent io ++ [req] |}
          (yielded ++ map output_of (Wire.chunks resp)) ∧
    request_key req = ai this ∧
    keyRotation this' = kr2 ∧ ai this' = Some key ∧ currentKey this' = Some key.
Proof.
  intros Hnet Hfail Hrl Hrc Hmark Hnext. cbn [streamMessage_loop].
  rewrite orb_true_r. cbn [initChat chat keyRotation currentKey].
  unfold Wire.send. rewrite Hnet, Hfail, Hrl.
  replace (retryCount <? MAX_RETRIES - 1) with true
    by (symmetry; apply Nat.ltb_lt; cbn; lia).
  cbn [andb Wire.tick]. rewrite Hmark. unfold reinitializeWithNewKey.
  cbn [set_keyRotation keyRotation]. rewrite Hnext.
  by eexists _, _.
Qed.

Lemma Gemini_first_attempt_succeeds config this io resp :
  (∀ req, network (length (Wire.sent io)) req = resp) →
  Wire.failure resp = None →
  ∃ req,
    streamMessage Date_now network lastMessage history config this io
      = (map output_of (Wire.chunks resp), Normal tt, initChat config history this,
         {| Wire.tick := Wire.tick io; Wire.sent := Wire.sent io ++ [req] |}) ∧
    request_key req = ai this.
Proof.
  intros Hnet Hok. unfold streamMessage.
  by apply (Gemini_attempt_succeeds config 2 0 this io []).
Qed.

Lemma Gemini_retry_rotates config this io resp1 resp2 e :
  pool_wf (keyRotation this) →
  (∀ req, network (length (Wire.sent io)) req = resp1) →
  Wire.failure resp1 = Some e → isRateLimitError (errorMessage_of e) = true →
  (∀ req, network (S (length (Wire.sent io))) req = resp2) →
  Wire.failure resp2 = None →
  ∃ kr1 tick1 key kr2 tick2 this' io' req1 req2,
    ApiKeyRotation.markKeyFailed Date_now (currentKey this) (keyRotation this)
      (Wire.tick io) = (Normal tt, kr1, tick1) ∧
    ApiKeyRotation.getNextKey Date_now kr1 tick1 = (Normal (Some key), kr2, tick2) ∧
    streamMessage Date_now network lastMessage history config this io
      = (map output_of (Wire.chunks resp1) ++ map output_of (Wire.chunks resp2),
         Normal tt, this', io') ∧
    Wire.sent io' = Wire.sent io ++ [req1; req2] ∧
    request_key req1 = ai this ∧ request_key req2 = Some key ∧
    keyRotation this' = kr2 ∧ currentKey this' = Some key ∧ Wire.tick io' = tick2.
Proof.
  intros Hwf Hnet1 Hfail Hrl Hnet2 Hok.
  destruct (markKeyFailed_spec Date_now (currentKey this) _ (Wire.tick io) Hwf)
    as (kr1 & tick1 & Hmark & Hwf1 & _).
  destruct (getNextKey_spec Date_now kr1 tick1 Hwf1)
    as (key & kr2 & tick2 & Hnext & _).
  destruct (Gemini_attempt_rate_limited config 2 0 this io [] resp1 e kr1 tick1
              key kr2 tick2) as (req1 & this1 & Hstep1 & Hkey1 & Hkr & Hai & Hcur);
    [done | done | done | lia | done | done |].
  destruct (Gemini_attempt_succeeds config 1 1 this1
              {| Wire.tick := tick2; Wire.sent := Wire.sent io ++ [req1] |}
              (map output_of (Wire.chunks resp1)) resp2)
    as (req2 & Hstep2 & Hkey2); [|done|].
  { intros req. cbn [Wire.sent]. rewrite length_app. cbn [length].
    rewrite Nat.add_1_r. apply Hnet2. }
  exists kr1, tick1, key, kr2, tick2, (initChat config history this1),
    {| Wire.tick := tick2; Wire.sent := (Wire.sent io ++ [req1]) ++ [req2] |},
    req1, req2.
  split_and!; try done.
  - unfold streamMessage. change MAX_RETRIES with 3. by rewrite Hstep1.
  - cbn [Wire.sent]. by rewrite <- app_assoc.
  - by rewrite Hkey2.
Qed.

Lemma Gemini_loop_keeps_invariant config remaining retryCount this io yielded :
  client_inv (keyRotation this) (ai this) (currentKey this) →
  let this' := (streamMessage_loop Date_now network remaining retryCount
                  lastMessage history config this io yielded).1.2 in
  client_inv (keyRotation this') (ai this') (currentKey this') ∧
  ApiKeyRotation.keys (keyRotation this') = ApiKeyRotation.keys (keyRotation this).
Proof.
  cbv zeta. revert retryCount this io yielded.
  induction remaining as [|remaining IH]; intros retryCount this io yielded Hinv;
    [done|].
  cbn [streamMessage_loop]. rewrite orb_true_r.
  set (this1 := initChat config history this).
  destruct (chat this1) as [session|] eqn:Hchat; [|by cbn in Hchat].
  unfold Wire.send.
  set (req := Wire.GeminiSendMessageStream session _).
  set (io1 := {| Wire.tick := Wire.tick io; Wire.sent := Wire.sent io ++ [req] |}).
  destruct (Wire.failure (network (length (Wire.sent io)) req)) as [e|]; [|done].
  destruct (isRateLimitError (errorMessage_of e) && (retryCount <? MAX_RETRIES - 1));
    [|done].
  destruct Hinv as (Hwf & Hclient & k & Hk & Hin).
  change (keyRotation this1) with (keyRotation this).
  change (currentKey this1) with (currentKey this).
  destruct (markKeyFailed_spec Date_now (currentKey this) _ (Wire.tick io1) Hwf)
    as (kr1 & tick1 & Hmark & Hwf1 & Hkeys1 & _).
  rewrite Hmark. unfold reinitializeWithNewKey. cbn [set_keyRotation keyRotation].
  destruct (getNextKey_spec Date_now kr1 tick1 Hwf1)
    as (key & kr2 & tick2 & Hnext & Hkey & Hwf2 & Hkeys2 & _).
  rewrite Hnext.
  match goal with
  | |- context [streamMessage_loop _ _ _ _ _ _ _ ?t ?i ?y] =>
      destruct (IH (S retryCount) t i y) as [Hinv' Hkeys']
  end.
  { split_and!; [done | done |]. exists key. split; [done|].
    cbn [set_client set_keyRotation keyRotation]. by rewrite Hkeys2. }
  split; [done|]. rewrite Hkeys'. cbn [set_client set_keyRotation keyRotation].
  by rewrite Hkeys2, Hkeys1.
Qed.

Lemma Gemini_init_invariant env tick :
  ∃ this tick',
    init Date_now env tick = (Normal this, tick') ∧
    client_inv (keyRotation this) (ai this) (currentKey this) ∧
    ApiKeyRotation.keys (keyRotation this)
      = ApiKeyRotation.keys (ApiKeyRotation.constructor (inl (adapter_apiKeys Gemini env))) ∧
    currentKey this
      = ApiKeyRotation.keys (keyRotation this) !! 0.
Proof.
  unfold init. cbn [adapter_apiKeys].
  set (apiKeys := str_or (GEMINI_API_KEY env) _).
  destruct (getNextKey_fresh Date_now (inl apiKeys) tick)
    as (key & kr & Hnext & Hwf & Hkeys & Hkey).
  rewrite Hnext. eexists _, _. split; [reflexivity|].
  cbn [keyRotation ai currentKey]. split_and!; [|done|by rewrite Hkeys].
  split_and!; [done | done |].
  exists key. split; [done|]. rewrite Hkeys. by eapply list_elem_of_lookup_2.
Qed.

End GeminiMore.

(** * The adapters through their common interface: further properties *)

Section AdapterMore.

Variable Date_now : nat -> Z.
Variable network : nat -> Wire.Request -> Wire.Response.

(** X10. Whatever the upstream does and whatever state the adapter is in,
    one [streamMessage] call issues at least one and at most three
    requests, all of them to the adapter's own backend. *)
Theorem adapter_request_bound (a : Adapter) lastMessage history config
    (this : AdapterState a) (io : Wire.IO) :
  ∃ reqs,
    Wire.sent (adapter_streamMessage Date_now network a lastMessage history
                 config this io).2 = Wire.sent io ++ reqs ∧
    1 ≤ length reqs ≤ 3 ∧
    Forall (λ req, request_adapter req = a) reqs.
Proof.
  destruct a; cbn [adapter_streamMessage AdapterState] in *.
  - unfold GeminiService.streamMessage.
    destruct (Gemini_loop_requests Date_now network lastMessage history config
                GeminiService.MAX_RETRIES 0 this io []) as (reqs & Hsent & Hne & Hall).
    pose proof (Gemini_loop_request_count Date_now network lastMessage history
                  config GeminiService.MAX_RETRIES 0 this io []) as Hcount.
    rewrite Hsent, length_app in Hcount. unfold GeminiService.MAX_RETRIES in *.
    exists reqs. split_and!; [done | | lia |].
    + destruct reqs; [exfalso; apply Hne; [lia | done] | cbn; lia].
    + eapply List.Forall_impl; [|exact Hall]. by intros req (? & ? & _ & ->).
  - unfold GroqService.streamMessage.
    destruct (Groq_loop_requests Date_now network lastMessage history config
                GroqService.MAX_RETRIES 0 this io []) as (reqs & Hsent & Hne & Hall).
    pose proof (Groq_loop_request_count Date_now network lastMessage history
                  config GroqService.MAX_RETRIES 0 this io []) as Hcount.
    rewrite Hsent, length_app in Hcount. unfold GroqService.MAX_RETRIES in *.
    exists reqs. split_and!; [done | | lia |].
    + destruct reqs; [exfalso; apply Hne; [lia | done] | cbn; lia].
    + eapply List.Forall_impl; [|exact Hall]. by intros req (? & ->).
  - unfold OpenRouterService.streamMessage.
    destruct (OpenRouter_loop_requests Date_now network lastMessage history config
                OpenRouterService.MAX_RETRIES 0 this io []) as (reqs & Hsent & Hne & Hall).
    pose proof (OpenRouter_loop_request_count Date_now network lastMessage history
                  config OpenRouterService.MAX_RETRIES 0 this io []) as Hcount.
    rewrite Hsent, length_app in Hcount. unfold OpenRouterService.MAX_RETRIES in *.
    exists reqs. split_and!; [done | | lia |].
    + destruct reqs; [exfalso; apply Hne; [lia | done] | cbn; lia].
    + eapply List.Forall_impl; [|exact Hall]. by intros req (? & ->).
Qed.

(** X11. When the first upstream stream ends without an error, the call
    completes after that one request, made with the key of the adapter's
    client; it yields what the adapter makes of the chunks of that stream
    (Gemini one chunk per upstream chunk, the chat completion adapters
    one per non-empty text), reads no clock and leaves the key pool, the
    current key and the client as they were. *)
Theorem adapter_success_at_once (a : Adapter) lastMessage history config
    (this : AdapterState a) (io : Wire.IO) (resp : Wire.Response) :
  (∀ req, network (length (Wire.sent io)) req = resp) →
  Wire.failure resp = None →
  ∃ this' req,
    adapter_streamMessage Date_now network a lastMessage history config this io
      = (adapter_outputs a (Wire.chunks resp), Normal tt, this',
         {| Wire.tick := Wire.tick io; Wire.sent := Wire.sent io ++ [req] |}) ∧
    request_key req = adapter_client_key a this ∧
    adapter_keyRotation a this' = adapter_keyRotation a this ∧
    adapter_currentKey a this' = adapter_currentKey a this ∧
    adapter_client_key a this' = adapter_client_key a this.
Proof.
  intros Hnet Hok.
  destruct a; cbn [adapter_streamMessage AdapterState adapter_outputs
                   adapter_client_key adapter_keyRotation adapter_currentKey] in *.
  - destruct (Gemini_first_attempt_succeeds Date_now network lastMessage history
                config this io resp Hnet Hok) as (req & Heq & Hkey).
    by exists (GeminiService.initChat config history this), req.
  - destruct (Groq_first_attempt_succeeds Date_now network lastMessage history
                config this io resp Hnet Hok) as (req & Heq & Hkey).
    by exists this, req.
  - destruct (OpenRouter_first_attempt_succeeds Date_now network lastMessage history
                config this io resp Hnet Hok) as (req & Heq & Hkey).
    by exists this, req.
Qed.

(** X12. When the first upstream stream raises a rate-limit-classified
    error and the second ends without an error, the call completes after
    two requests. Between them the adapter marks its current key as
    failed and takes the next key from the pool; the second request is
    made with that key, which is the adapter's current key afterwards.
    The chunks the first stream had delivered before it failed stay
    yielded: the consumer receives them followed by the chunks of the
    second stream. *)
Theorem adapter_retry_uses_rotated_key (a : Adapter) lastMessage history config
    (this : AdapterState a) (io : Wire.IO) (resp1 resp2 : Wire.Response)
    (e : JsError) :
  pool_wf (adapter_keyRotation a this) →
  (∀ req, network (length (Wire.sent io)) req = resp1) →
  Wire.failure resp1 = Some e → isRateLimitError (errorMessage_of e) = true →
  (∀ req, network (S (length (Wire.sent io))) req = resp2) →
  Wire.failure resp2 = None →
  ∃ kr1 tick1 key kr2 tick2 this' io' req1 req2,
    ApiKeyRotation.markKeyFailed Date_now (adapter_currentKey a this)
      (adapter_keyRotation a this) (Wire.tick io) = (Normal tt, kr1, tick1) ∧
    ApiKeyRotation.getNextKey Date_now kr1 tick1 = (Normal (Some key), kr2, tick2) ∧
    adapter_streamMessage Date_now network a lastMessage history config this io
      = (adapter_outputs a (Wire.chunks resp1) ++ adapter_outputs a (Wire.chunks resp2),
         Normal tt, this', io') ∧
    Wire.sent io' = Wire.sent io ++ [req1; req2] ∧
    request_key req1 = adapter_client_key a this ∧ request_key req2 = Some key ∧
    adapter_keyRotation a this' = kr2 ∧ adapter_currentKey a this' = Some key ∧
    Wire.tick io' = tick2.
Proof.
  intros Hwf Hnet1 Hfail Hrl Hnet2 Hok.
  destruct a; cbn [adapter_streamMessage AdapterState adapter_outputs
                   adapter_client_key adapter_keyRotation adapter_currentKey] in *.
  - by eapply Gemini_retry_rotates.
  - by eapply Groq_retry_rotates.
  - by eapply OpenRouter_retry_rotates.
Qed.

(** X13. Every chunk the Groq and the OpenRouter adapter yield, in a call
    that completes as in one that raises, has a non-empty text and no
    grounding metadata: upstream chunks without text are dropped, and
    nothing the upstream sends can make these adapters report sources. *)
Theorem completion_chunks_text_only (a : Adapter) lastMessage history config
    (this : AdapterState a) (io : Wire.IO) :
  a ≠ Gemini →
  Forall text_only
    (adapter_streamMessage Date_now network a lastMessage history config this io).1.1.1.
Proof.
  intros Ha. destruct a; [done | |]; cbn [adapter_streamMessage AdapterState] in *.
  - by apply Groq_loop_text_only.
  - by apply OpenRouter_loop_text_only.
Qed.

(** X14. No adapter reads [maxTokens] or [provider]: two configurations
    that agree on the other fields give the same requests, the same
    chunks and the same final state. The token limit the user sets never
    reaches an upstream. *)
Theorem adapter_ignores_maxTokens (a : Adapter) lastMessage history config config'
    (this : AdapterState a) (io : Wire.IO) :
  same_request_fields config config' →
  adapter_streamMessage Date_now network a lastMessage history config this io
  = adapter_streamMessage Date_now network a lastMessage history config' this io.
Proof.
  intros (Hmodel & Htemp & HtopK & HtopP & Hthink & Hsys & Hsearch).
  destruct a; cbn [adapter_streamMessage AdapterState] in *.
  - apply Gemini_loop_config_fields. intros this0. unfold GeminiService.initChat.
    by rewrite Hmodel, Htemp, HtopK, HtopP, Hthink, Hsys, Hsearch.
  - apply Groq_loop_config_fields. unfold GroqService.body_of.
    by rewrite Hmodel, Htemp, HtopP, Hsys.
  - apply OpenRouter_loop_config_fields. unfold OpenRouterService.body_of.
    by rewrite Hmodel, Htemp, HtopP, Hsys.
Qed.

(** X15. The Groq and the OpenRouter adapter read only [model],
    [temperature], [topP] and [systemInstruction]: asking for web search,
    a thinking budget or another [topK] changes neither their requests
    nor their result. *)
Theorem completion_ignores_search_and_thinking (a : Adapter) lastMessage history
    config config' (this : AdapterState a) (io : Wire.IO) :
  a ≠ Gemini →
  same_completion_fields config config' →
  adapter_streamMessage Date_now network a lastMessage history config this io
  = adapter_streamMessage Date_now network a lastMessage history config' this io.
Proof.
  intros Ha (Hmodel & Htemp & HtopP & Hsys).
  destruct a; [done | |]; cbn [adapter_streamMessage AdapterState] in *.
  - apply Groq_loop_config_fields. unfold GroqService.body_of.
    by rewrite Hmodel, Htemp, HtopP, Hsys.
  - apply OpenRouter_loop_config_fields. unfold OpenRouterService.body_of.
    by rewrite Hmodel, Htemp, HtopP, Hsys.
Qed.

(** X16. A Gemini call does not use the chat session, the model name or
    the search flag an earlier call left in the service: two service
    states with the same key pool, client and current key give the same
    requests, chunks and final state. Each attempt opens a new session
    from [config] and [history]. *)
Theorem Gemini_session_never_reused lastMessage history config
    (this this' : GeminiService.t) (io : Wire.IO) :
  GeminiService.keyRotation this = GeminiService.keyRotation this' →
  GeminiService.ai this = GeminiService.ai this' →
  GeminiService.currentKey this = GeminiService.currentKey this' →
  GeminiService.streamMessage Date_now network lastMessage history config this io
  = GeminiService.streamMessage Date_now network lastMessage history config this' io.
Proof.
  intros Hkr Hai Hkey. unfold GeminiService.streamMessage.
  change GeminiService.MAX_RETRIES with 3.
  by apply Gemini_loop_session_replaced.
Qed.

(** X17. Every request of a Gemini call goes into a session opened for
    [config.model] with [config.topK]; the session has the Google Search
    tool exactly when [config.useSearch] is [true] (no [tools] entry
    otherwise) and a thinking configuration exactly when
    [config.thinkingBudget] is positive, carrying that budget. *)
Theorem Gemini_session_options lastMessage history config
    (this : GeminiService.t) (io : Wire.IO) :
  ∃ reqs,
    Wire.sent (GeminiService.streamMessage Date_now network lastMessage history
                 config this io).2 = Wire.sent io ++ reqs ∧
    Forall (λ req, ∃ session message,
              req = Wire.GeminiSendMessageStream session message ∧
              Wire.model session = Types.model config ∧
              Wire.tools (Wire.config session) = tools_of config ∧
              Wire.thinkingConfig (Wire.config session) = thinking_of config ∧
              Wire.topK (Wire.config session) = Types.topK config) reqs.
Proof.
  unfold GeminiService.streamMessage.
  destruct (Gemini_loop_requests Date_now network lastMessage history config
              GeminiService.MAX_RETRIES 0 this io []) as (reqs & Hsent & _ & Hall).
  exists reqs. split; [done|].
  eapply List.Forall_impl; [|exact Hall].
  intros req (this0 & session & Hchat & ->). eexists _, _. split; [reflexivity|].
  cbn [GeminiService.initChat GeminiService.chat] in Hchat.
  injection Hchat as <-. cbn [Wire.model Wire.config Wire.tools Wire.thinkingConfig Wire.topK].
  unfold tools_of, thinking_of. split_and!; try done.
  by destruct (Types.useSearch config) as [[]|].
Qed.

(** X18. Loading an adapter's module never raises, with any environment:
    the pool is built from the adapter's environment variable (a
    placeholder key when it is missing or empty), the adapter takes the
    first key of the pool as its current key and builds its client with
    it. *)
Theorem adapter_init_invariant (a : Adapter) (env : Types.Env) (tick : nat) :
  ∃ this tick',
    adapter_init Date_now a env tick = (Normal this, tick') ∧
    adapter_inv a this ∧
    ApiKeyRotation.keys (adapter_keyRotation a this)
      = ApiKeyRotation.keys (ApiKeyRotation.constructor (inl (adapter_apiKeys a env))) ∧
    adapter_currentKey a this = ApiKeyRotation.keys (adapter_keyRotation a this) !! 0.
Proof.
  destruct a; unfold adapter_inv;
    cbn [adapter_init AdapterState adapter_client_key adapter_keyRotation
         adapter_currentKey].
  - apply Gemini_init_invariant.
  - apply Groq_init_invariant.
  - apply OpenRouter_init_invariant.
Qed.

(** X19. A [streamMessage] call keeps the adapter consistent, however it
    ends: if before the call the pool is well formed, the client was
    built with the current key and the current key is a key of the pool,
    then the same holds after it, and the pool holds the same keys. So
    the key an adapter marks as failed is always one the pool knows. *)
Theorem adapter_invariant_preserved (a : Adapter) lastMessage history config
    (this : AdapterState a) (io : Wire.IO) :
  adapter_inv a this →
  let this' := (adapter_streamMessage Date_now network a lastMessage history
                  config this io).1.2 in
  adapter_inv a this' ∧
  ApiKeyRotation.keys (adapter_keyRotation a this')
    = ApiKeyRotation.keys (adapter_keyRotation a this).
Proof.
  destruct a; unfold adapter_inv;
    cbn [adapter_streamMessage AdapterState adapter_client_key adapter_keyRotation
         adapter_currentKey].
  - apply Gemini_loop_keeps_invariant.
  - apply Groq_loop_keeps_invariant.
  - apply OpenRouter_loop_keeps_invariant.
Qed.

End AdapterMore.

(** * The provider factory: further properties *)

Section FactoryMore.

Import Types AIProviderFactory.

Variable Date_now : nat -> Z.
Variable network : nat -> Wire.Request -> Wire.Response.

Lemma available_providers_available e :
  Forall (λ p, isProviderAvailable e p = true) (getAvailableProviders e).
Proof.
  unfold getAvailableProviders. cbn [List.filter].
  destruct (isProviderAvailable e GEMINI) eqn:Hg, (isProviderAvailable e GROQ) eqn:Hq;
    repeat constructor; done.
Qed.

Lemma includes_available e p :
  includes_provider (getAvailableProviders e) p = isProviderAvailable e p.
Proof.
  unfold getAvailableProviders. cbn [List.filter].
  destruct (isProviderAvailable e GEMINI) eqn:Hg, (isProviderAvailable e GROQ) eqn:Hq;
    destruct p; by rewrite ?Hg, ?Hq.
Qed.

Lemma others_length e primary :
  length (others primary (getAvailableProviders e))
  + (if includes_provider (getAvailableProviders e) primary then 1 else 0) ≤ 2.
Proof.
  unfold getAvailableProviders, others. cbn [List.filter].
  destruct (isProviderAvailable e GEMINI), (isProviderAvailable e GROQ);
    destruct primary; vm_compute; lia.
Qed.

(** The requests of one service call: their number, their backend, and
    the conversation they submit. *)
Lemma service_streamMessage_trace p lastMessage history config w :
  ∃ reqs,
    Wire.sent (io (service_streamMessage Date_now network (provider_service p)
                     lastMessage history config w).2)
      = Wire.sent (io w) ++ reqs ∧
    1 ≤ length reqs ≤ 3 ∧
    Forall (λ req,
              request_adapter req = provider_adapter p ∧
              request_turns req =
                map turn_of (take (length history - 1) history)
                ++ [(RoleUser, content lastMessage)]) reqs.
Proof.
  destruct p; cbn [provider_service service_streamMessage provider_adapter].
  - destruct (Gemini_loop_requests Date_now network lastMessage history
                (heap w config) GeminiService.MAX_RETRIES 0 (gemini w) (io w) [])
      as (reqs & Hsent & Hne & Hall).
    pose proof (Gemini_loop_request_count Date_now network lastMessage history
                  (heap w config) GeminiService.MAX_RETRIES 0 (gemini w) (io w) [])
      as Hcount.
    rewrite Hsent, length_app in Hcount. unfold GeminiService.MAX_RETRIES in *.
    unfold GeminiService.streamMessage, GeminiService.MAX_RETRIES.
    destruct (GeminiService.streamMessage_loop _ _ _ _ _ _ _ _ _ _)
      as [[[? ?] ?] io'].
    exists reqs. split_and!; [done | | lia |].
    + destruct reqs; [exfalso; apply Hne; [lia | done] | cbn; lia].
    + eapply List.Forall_impl; [|exact Hall].
      intros req (this0 & session & Hs & ->).
      destruct (Gemini_request_read lastMessage history (heap w config) this0
                  session Hs) as [Hturns _].
      by split.
  - destruct (Groq_loop_requests Date_now network lastMessage history
                (heap w config) GroqService.MAX_RETRIES 0 (groq w) (io w) [])
      as (reqs & Hsent & Hne & Hall).
    pose proof (Groq_loop_request_count Date_now network lastMessage history
                  (heap w config) GroqService.MAX_RETRIES 0 (groq w) (io w) [])
      as Hcount.
    rewrite Hsent, length_app in Hcount. unfold GroqService.MAX_RETRIES in *.
    unfold GroqService.streamMessage, GroqService.MAX_RETRIES.
    destruct (GroqService.streamMessage_loop _ _ _ _ _ _ _ _ _ _)
      as [[[? ?] ?] io'].
    exists reqs. split_and!; [done | | lia |].
    + destruct reqs; [exfalso; apply Hne; [lia | done] | cbn; lia].
    + eapply List.Forall_impl; [|exact Hall].
      intros req (key & ->).
      destruct (Groq_request_read key lastMessage history (heap w config))
        as [Hturns _].
      by split.
Qed.

Lemma service_streamMessage_inv service lastMessage history config w :
  world_inv w →
  world_inv (service_streamMessage Date_now network service lastMessage history
               config w).2.
Proof.
  intros [Hg Hq]. destruct service; unfold service_streamMessage.
  - pose proof (Gemini_loop_keeps_invariant Date_now network lastMessage history
                  (heap w config) GeminiService.MAX_RETRIES 0 (gemini w) (io w) [] Hg)
      as [Hinv _].
    unfold GeminiService.streamMessage.
    destruct (GeminiService.streamMessage_loop _ _ _ _ _ _ _ _ _ _)
      as [[[? ?] this'] io'].
    by split.
  - pose proof (Groq_loop_keeps_invariant Date_now network lastMessage history
                  (heap w config) GroqService.MAX_RETRIES 0 (groq w) (io w) [] Hq)
      as [Hinv _].
    unfold GroqService.streamMessage.
    destruct (GroqService.streamMessage_loop _ _ _ _ _ _ _ _ _ _)
      as [[[? ?] this'] io'].
    by split.
Qed.

(** What the fallback loop does, for any property [P] of the requests of
    a service call and any property [Q] of the candidates. *)
Lemma fallback_loop_trace (P : AIProvider → Wire.Request → Prop)
    (Q : AIProvider → Prop) lastMessage history :
  (∀ p cfg w0, ∃ reqs,
      Wire.sent (io (service_streamMessage Date_now network (provider_service p)
                       lastMessage history cfg w0).2)
        = Wire.sent (io w0) ++ reqs ∧
      length reqs ≤ 3 ∧ Forall (P p) reqs) →
  ∀ candidates primary config w yielded,
    Forall Q candidates →
    ∃ reqs chunks,
      Wire.sent (io (fallback_loop Date_now network candidates primary lastMessage
                       history config w yielded).2)
        = Wire.sent (io w) ++ reqs ∧
      (fallback_loop Date_now network candidates primary lastMessage history
         config w yielded).1.1 = yielded ++ chunks ∧
      length reqs ≤ 3 * length (others primary candidates) ∧
      Forall (λ r, ∃ p, Q p ∧ p ≠ primary ∧ P p r) reqs ∧
      Forall (λ c, ∃ p, Q p ∧ p ≠ primary ∧ chunk_provider c = Some p) chunks ∧
      ((fallback_loop Date_now network candidates primary lastMessage history
          config w yielded).1.2 = Normal tt ∨
       (fallback_loop Date_now network candidates primary lastMessage history
          config w yielded).1.2 = Throw all_providers_failed) ∧
      (world_inv w →
       world_inv (fallback_loop Date_now network candidates primary lastMessage
                    history config w yielded).2).
Proof.
  intros Hsvc candidates primary config.
  induction candidates as [|provider rest IH]; intros w yielded HQ.
  - exists [], []. cbn. rewrite !app_nil_r. split_and!; try done. by right.
  - inversion_clear HQ as [|? ? HQp HQrest].
    cbn [fallback_loop]. unfold others. cbn [List.filter]. fold (others primary rest).
    destruct (decide (provider = primary)) as [->|Hne].
    { rewrite bool_decide_true by done. cbn [negb]. by apply IH. }
    rewrite bool_decide_false by done. cbn [negb length].
    rewrite getProvider_total. unfold spread.
    set (w2 := match provider with
               | GEMINI => assign_model (next w) "gemini-2.5-flash" _
               | GROQ => assign_model (next w) "llama-3.3-70b-versatile" _
               end).
    assert (io w2 = io w ∧ gemini w2 = gemini w ∧ groq w2 = groq w)
      as (Hio & Hg2 & Hq2) by (subst w2; by destruct provider).
    assert (world_inv w → world_inv w2) as Hinv2
      by (unfold world_inv; by rewrite Hg2, Hq2).
    destruct (Hsvc provider (next w) w2) as (reqs1 & Hs1 & Hl1 & HP1).
    pose proof (service_streamMessage_inv (provider_service provider) lastMessage
                  history (next w) w2) as Hinv3.
    destruct (service_streamMessage Date_now network (provider_service provider)
                lastMessage history (next w) w2) as [[out r] w3].
    cbn [snd] in Hs1, Hinv3. rewrite Hio in Hs1.
    assert (Forall (λ c, ∃ p, Q p ∧ p ≠ primary ∧ chunk_provider c = Some p)
              (map (tag provider) out)) as Hout
      by (apply Forall_map, Forall_true; intros c; by exists provider).
    assert (Forall (λ r, ∃ p, Q p ∧ p ≠ primary ∧ P p r) reqs1) as Hreqs1
      by (eapply List.Forall_impl; [|exact HP1]; intros r0 Hr0; by exists provider).
    destruct r as [[]|e].
    + exists reqs1, (map (tag provider) out). cbn [fst snd].
      split_and!; try done; [lia | by left | by auto].
    + destruct (IH w3 (yielded ++ map (tag provider) out) HQrest)
        as (reqs2 & chunks & Hs2 & Hy2 & Hl2 & HP2 & HC2 & Hr2 & Hinv4).
      exists (reqs1 ++ reqs2), (map (tag provider) out ++ chunks).
      split_and!.
      * by rewrite Hs2, Hs1, app_assoc.
      * by rewrite Hy2, app_assoc.
      * rewrite length_app. lia.
      * by apply Forall_app.
      * by apply Forall_app.
      * done.
      * auto.
Qed.

Lemma streamMessageWithFallback_trace (P : AIProvider → Wire.Request → Prop)
    lastMessage history config w :
  (∀ p cfg w0, ∃ reqs,
      Wire.sent (io (service_streamMessage Date_now network (provider_service p)
                       lastMessage history cfg w0).2)
        = Wire.sent (io w0) ++ reqs ∧
      length reqs ≤ 3 ∧ Forall (P p) reqs) →
  ∃ reqs,
    Wire.sent (io (streamMessageWithFallback Date_now network lastMessage history
                     config w).2) = Wire.sent (io w) ++ reqs ∧
    length reqs ≤ 6 ∧
    Forall (λ r, ∃ p, isProviderAvailable (env w) p = true ∧ P p r) reqs ∧
    Forall (λ c, ∃ p, isProviderAvailable (env w) p = true ∧ chunk_provider c = Some p)
      (streamMessageWithFallback Date_now network lastMessage history config w).1.1 ∧
    ((streamMessageWithFallback Date_now network lastMessage history config w).1.2
       = Normal tt ∨
     (streamMessageWithFallback Date_now network lastMessage history config w).1.2
       = Throw all_providers_failed) ∧
    (world_inv w →
     world_inv (streamMessageWithFallback Date_now network lastMessage history
                  config w).2).
Proof.
  intros Hsvc. unfold streamMessageWithFallback.
  set (primary := match provider (heap w config) with
                  | Some p => p
                  | None => GEMINI
                  end).
  pose proof (others_length (env w) primary) as Hothers.
  pose proof (includes_available (env w) primary) as Hinc.
  pose proof (fallback_loop_trace P (λ p, isProviderAvailable (env w) p = true)
                lastMessage history Hsvc (getAvailableProviders (env w)) primary
                config) as Hloop.
  destruct (includes_provider (getAvailableProviders (env w)) primary).
  - rewrite getProvider_total.
    destruct (Hsvc primary config w) as (reqs1 & Hs1 & Hl1 & HP1).
    pose proof (service_streamMessage_inv (provider_service primary) lastMessage
                  history config w) as Hinv1.
    destruct (service_streamMessage Date_now network (provider_service primary)
                lastMessage history config w) as [[out r] w1].
    cbn [snd] in Hs1, Hinv1.
    assert (Forall (λ c, ∃ p, isProviderAvailable (env w) p = true ∧
                             chunk_provider c = Some p) (map (tag primary) out))
      as Hout by (apply Forall_map, Forall_true; intros c; by exists primary).
    assert (Forall (λ r, ∃ p, isProviderAvailable (env w) p = true ∧ P p r) reqs1)
      as Hreqs1
      by (eapply List.Forall_impl; [|exact HP1]; intros r0 Hr0; by exists primary).
    destruct r as [[]|e].
    + exists reqs1. cbn [fst snd]. split_and!; try done; [lia | by left].
    + destruct (Hloop w1 (map (tag primary) out)
                  (available_providers_available (env w)))
        as (reqs2 & chunks & Hs2 & Hy2 & Hl2 & HP2 & HC2 & Hr2 & Hinv2).
      exists (reqs1 ++ reqs2). split_and!.
      * by rewrite Hs2, Hs1, app_assoc.
      * rewrite length_app. lia.
      * apply Forall_app. split; [done|].
        eapply List.Forall_impl; [|exact HP2]. intros r (p & ? & _ & ?). by exists p.
      * rewrite Hy2. apply Forall_app. split; [done|].
        eapply List.Forall_impl; [|exact HC2]. intros c (p & ? & _ & ?). by exists p.
      * done.
      * auto.
  - destruct (Hloop w [] (available_providers_available (env w)))
      as (reqs2 & chunks & Hs2 & Hy2 & Hl2 & HP2 & HC2 & Hr2 & Hinv2).
    exists reqs2. split_and!.
    + done.
    + lia.
    + eapply List.Forall_impl; [|exact HP2]. intros r (p & ? & _ & ?). by exists p.
    + rewrite Hy2. cbn [app].
      eapply List.Forall_impl; [|exact HC2]. intros c (p & ? & _ & ?). by exists p.
    + done.
    + done.
Qed.

Lemma service_requests_of_backend lastMessage history p cfg w0 :
  ∃ reqs,
    Wire.sent (io (service_streamMessage Date_now network (provider_service p)
                     lastMessage history cfg w0).2)
      = Wire.sent (io w0) ++ reqs ∧
    length reqs ≤ 3 ∧
    Forall (λ r, request_adapter r = provider_adapter p ∧
                 request_turns r =
                   map turn_of (take (length history - 1) history)
                   ++ [(RoleUser, content lastMessage)]) reqs.
Proof.
  destruct (service_streamMessage_trace p lastMessage history cfg w0)
    as (reqs & Hs & Hl & HP).
  exists reqs. split_and!; [done | lia | done].
Qed.

(** X20. Whatever the upstreams do, one [streamMessageWithFallback] call
    issues at most six requests, each to the backend of a provider whose
    environment variable is set, and never to OpenRouter; every chunk it
    yields is tagged with such a provider. A provider without its own
    variable is never contacted, whatever [config.provider] asks for. *)
Theorem fallback_uses_available_providers lastMessage history config w :
  ∃ reqs,
    Wire.sent (io (streamMessageWithFallback Date_now network lastMessage history
                     config w).2) = Wire.sent (io w) ++ reqs ∧
    length reqs ≤ 6 ∧
    Forall (λ r, request_adapter r ≠ OpenRouter ∧
                 ∃ p, isProviderAvailable (env w) p = true ∧
                      request_adapter r = provider_adapter p) reqs ∧
    Forall (λ c, ∃ p, isProviderAvailable (env w) p = true ∧ chunk_provider c = Some p)
      (streamMessageWithFallback Date_now network lastMessage history config w).1.1.
Proof.
  destruct (streamMessageWithFallback_trace _ lastMessage history config w
              (service_requests_of_backend lastMessage history))
    as (reqs & Hs & Hl & HP & HC & _).
  exists reqs. split_and!; [done | done | | done].
  eapply List.Forall_impl; [|exact HP].
  intros r (p & Hp & Hr & _). split; [|by exists p].
  rewrite Hr. by destruct p.
Qed.

(** X21. [streamMessageWithFallback] either completes or raises the one
    error "All AI providers failed. Please check your API keys.": the
    errors of the adapters (an upstream message, the exhausted-retries
    error) never reach its caller. *)
Theorem fallback_error_is_generic lastMessage history config w :
  (streamMessageWithFallback Date_now network lastMessage history config w).1.2
    = Normal tt ∨
  (streamMessageWithFallback Date_now network lastMessage history config w).1.2
    = Throw all_providers_failed.
Proof.
  by destruct (streamMessageWithFallback_trace _ lastMessage history config w
                 (service_requests_of_backend lastMessage history))
    as (reqs & _ & _ & _ & _ & Hr & _).
Qed.

(** X22. When the provider [config] names (Gemini if it names none) is
    available and its stream completes, [streamMessageWithFallback]
    yields that stream, each chunk tagged with the provider, and
    completes: no other provider is invoked, no copy of the configuration
    is made, and the one to three requests issued all go to that
    provider's backend. *)
Theorem primary_success_no_fallback lastMessage history config w p out w1 :
  primary_of (heap w config) = p →
  isProviderAvailable (env w) p = true →
  service_streamMessage Date_now network (provider_service p) lastMessage history
    config w = (out, Normal tt, w1) →
  streamMessageWithFallback Date_now network lastMessage history config w
    = (map (tag p) out, Normal tt, w1) ∧
  next w1 = next w ∧ heap w1 = heap w ∧
  ∃ reqs,
    Wire.sent (io w1) = Wire.sent (io w) ++ reqs ∧ 1 ≤ length reqs ≤ 3 ∧
    Forall (λ r, request_adapter r = provider_adapter p) reqs.
Proof.
  intros Hp Havail Hrun.
  pose proof (service_streamMessage_frame Date_now network (provider_service p)
                lastMessage history config w) as Hframe.
  destruct (service_streamMessage_trace p lastMessage history config w)
    as (reqs & Hs & Hl & HP).
  rewrite Hrun in Hframe, Hs. cbn [snd] in Hframe, Hs.
  destruct Hframe as (Hheap & Hnext & _).
  split_and!; [| done | done |].
  - unfold streamMessageWithFallback.
    change (match provider (heap w config) with
            | Some p0 => p0
            | None => GEMINI
            end) with (primary_of (heap w config)).
    rewrite Hp, includes_available, Havail, getProvider_total. by rewrite Hrun.
  - exists reqs. split_and!; [done | lia | lia |].
    eapply List.Forall_impl; [|exact HP]. by intros r [? _].
Qed.

(** X23. When the provider [config] names is not available, it is not
    tried: the first available provider [q] is run on a copy of the
    configuration whose [model] is the default model of [q], and when its
    stream completes the call yields that stream tagged [q]. The model
    the user chose is replaced without notice; only the tag of the chunks
    tells which provider answered. *)
Theorem unavailable_primary_falls_back lastMessage history config w q out w2 :
  isProviderAvailable (env w) (primary_of (heap w config)) = false →
  getFirstAvailableProvider (env w) = Some q →
  service_streamMessage Date_now network (provider_service q) lastMessage history
    (next w) (assign_model (next w) (default_model q) (spread config w).2)
    = (out, Normal tt, w2) →
  streamMessageWithFallback Date_now network lastMessage history config w
    = (map (tag q) out, Normal tt, w2) ∧
  q ≠ primary_of (heap w config) ∧
  model (heap w2 (next w)) = default_model q ∧
  ∃ reqs,
    Wire.sent (io w2) = Wire.sent (io w) ++ reqs ∧
    Forall (λ r, request_adapter r = provider_adapter q) reqs.
Proof.
  intros Hprim Hfirst Hrun.
  pose proof (service_streamMessage_frame Date_now network (provider_service q)
                lastMessage history (next w)
                (assign_model (next w) (default_model q) (spread config w).2))
    as Hframe.
  destruct (service_streamMessage_trace q lastMessage history (next w)
              (assign_model (next w) (default_model q) (spread config w).2))
    as (reqs & Hs & _ & HP).
  rewrite Hrun in Hframe, Hs. cbn [snd] in Hframe, Hs.
  destruct Hframe as (Hheap & _ & _).
  assert (q ≠ primary_of (heap w config) ∧
          ∃ rest, getAvailableProviders (env w) = q :: rest) as [Hne [rest Hav]].
  { unfold getFirstAvailableProvider in Hfirst.
    pose proof (available_providers_available (env w)) as Hall.
    destruct (getAvailableProviders (env w)) as [|q0 rest]; [done|].
    injection Hfirst as ->. inversion_clear Hall as [|? ? Hq _].
    split; [|by exists rest]. intros ->. by rewrite Hq in Hprim. }
  split_and!; [| done | |].
  - unfold streamMessageWithFallback.
    change (match provider (heap w config) with
            | Some p0 => p0
            | None => GEMINI
            end) with (primary_of (heap w config)).
    rewrite includes_available, Hprim, Hav. cbn [fallback_loop].
    rewrite decide_False by done. rewrite getProvider_total.
    unfold spread in *. cbn [snd] in Hrun.
    destruct q; unfold default_model in Hrun; by rewrite Hrun.
  - rewrite Hheap. unfold spread. cbn [snd assign_model heap].
    by rewrite fn_lookup_insert.
  - exists reqs. split; [done|].
    eapply List.Forall_impl; [|exact HP]. by intros r [? _].
Qed.

Lemma init_world e configs default :
  ∃ w,
    init Date_now e configs default = Normal w ∧
    world_inv w ∧ env w = e ∧ Wire.sent (io w) = [] ∧ next w = length configs ∧
    ApiKeyRotation.keys (GeminiService.keyRotation (gemini w))
      = ApiKeyRotation.keys
          (ApiKeyRotation.constructor (inl (adapter_apiKeys Gemini e))) ∧
    ApiKeyRotation.keys (GroqService.keyRotation (groq w))
      = ApiKeyRotation.keys
          (ApiKeyRotation.constructor (inl (adapter_apiKeys Groq e))).
Proof.
  unfold init.
  destruct (Gemini_init_invariant Date_now e 0) as (g & tick1 & Hg & Hginv & Hgk & _).
  rewrite Hg.
  destruct (Groq_init_invariant Date_now e tick1) as (q & tick2 & Hq & Hqinv & Hqk & _).
  rewrite Hq. eexists. split; [reflexivity|]. by split_and!.
Qed.

(** X24. Loading the modules never raises, with any environment, and
    leaves both services consistent: each has a well-formed key pool
    built from its environment variable, a client built with its current
    key, and a current key that belongs to the pool. No request has been
    issued. *)
Theorem factory_init_invariant e configs default :
  ∃ w,
    init Date_now e configs default = Normal w ∧
    world_inv w ∧ env w = e ∧ Wire.sent (io w) = [] ∧ next w = length configs.
Proof.
  destruct (init_world e configs default) as (w & ? & ? & ? & ? & ? & _).
  by exists w.
Qed.

(** X25. [streamMessageWithFallback] keeps both services consistent,
    however it ends and whatever the upstreams do. With X24, every state
    the application reaches by loading the modules and streaming messages
    satisfies the assumption under which the adapters' retry steps cannot
    fail. *)
Theorem fallback_preserves_invariant lastMessage history config w :
  world_inv w →
  world_inv (streamMessageWithFallback Date_now network lastMessage history
               config w).2.
Proof.
  by destruct (streamMessageWithFallback_trace _ lastMessage history config w
                 (service_requests_of_backend lastMessage history))
    as (reqs & _ & _ & _ & _ & _ & Hinv).
Qed.

(** X26. A Gemini key given only as [API_KEY] is loaded but never used:
    the Gemini service builds its pool from [API_KEY] when
    [GEMINI_API_KEY] is missing or empty, but the factory counts Gemini
    as available only if [GEMINI_API_KEY] is set, so
    [getFirstAvailableProvider] never answers Gemini and
    [streamMessageWithFallback] sends no request to Gemini. *)
Theorem gemini_API_KEY_not_enough e k configs default lastMessage history config :
  opt_str_truthy (GEMINI_API_KEY e) = false →
  API_KEY e = Some k → str_truthy k = true →
  ∃ w,
    init Date_now e configs default = Normal w ∧
    ApiKeyRotation.keys (GeminiService.keyRotation (gemini w))
      = ApiKeyRotation.keys (ApiKeyRotation.constructor (inl k)) ∧
    isProviderAvailable e GEMINI = false ∧
    getFirstAvailableProvider e ≠ Some GEMINI ∧
    Forall (λ r, request_adapter r ≠ Gemini)
      (Wire.sent (io (streamMessageWithFallback Date_now network lastMessage
                        history config w).2)).
Proof.
  intros Hgem Hkey Hk.
  destruct (init_world e configs default) as (w & Hinit & _ & Henv & Hsent & _ & Hkeys & _).
  exists w. split_and!; [done | | done | |].
  - rewrite Hkeys. cbn [adapter_apiKeys]. rewrite Hkey.
    destruct (GEMINI_API_KEY e) as [g|]; cbn in Hgem |- *.
    + destruct g; [|done]. cbn. by destruct k.
    + by destruct k.
  - unfold getFirstAvailableProvider, getAvailableProviders. cbn [List.filter].
    cbn [isProviderAvailable]. rewrite Hgem.
    by destruct (opt_str_truthy (GROQ_API_KEY e)).
  - destruct (streamMessageWithFallback_trace _ lastMessage history config w
                (service_requests_of_backend lastMessage history))
      as (reqs & Hs & _ & HP & _).
    rewrite Hs, Hsent. cbn [app].
    eapply List.Forall_impl; [|exact HP].
    intros r (p & Hp & Hr & _). rewrite Hr, Henv in *.
    destruct p; [|done]. cbn [isProviderAvailable] in Hp. by rewrite Hp in Hgem.
Qed.

(** X27. What a send submits upstream. For the message [handleSend]
    builds and the history it hands over, every request issued, by the
    primary provider or a fallback, at a first attempt or a retry, carries
    as conversation the messages of the active session followed by the
    new user message, once. Without an active session the conversation is
    the new message alone, whatever [messages] holds. Messages marked as
    errors are submitted like any other. *)
Theorem handleSend_conversation activeSessionId messages id timestamp input
    attachment config w :
  ∃ reqs,
    Wire.sent (io (streamMessageWithFallback Date_now network
                     (ChatArea.userMessage id timestamp input attachment)
                     (ChatArea.currentHistory activeSessionId messages
                        (ChatArea.userMessage id timestamp input attachment))
                     config w).2) = Wire.sent (io w) ++ reqs ∧
    Forall (λ r, request_turns r =
                   map turn_of (if opt_str_truthy activeSessionId
                                then messages else [])
                   ++ [turn_of (ChatArea.userMessage id timestamp input attachment)])
      reqs.
Proof.
  set (um := ChatArea.userMessage id timestamp input attachment).
  set (h := ChatArea.currentHistory activeSessionId messages um).
  destruct (streamMessageWithFallback_trace _ um h config w
              (service_requests_of_backend um h))
    as (reqs & Hs & _ & HP & _).
  exists reqs. split; [done|].
  eapply List.Forall_impl; [|exact HP].
  intros r (p & _ & _ & ->). f_equal. f_equal.
  subst h. unfold ChatArea.currentHistory.
  destruct (opt_str_truthy activeSessionId); cbn [negb]; [|done].
  rewrite length_app. cbn [length].
  replace (length messages + 1 - 1) with (length messages) by lia.
  by rewrite take_app_length.
Qed.

End FactoryMore.

(** * The consumer of the stream *)

Section ChatAreaFacts.

Import Types AIProviderFactory ChatArea.

Lemma append_assoc (s t u : string) :
  String.append (String.append s t) u = String.append s (String.append t u).
Proof.
  induction s as [|c s IH]; [done|].
  change (String c (String.append (String.append s t) u)
          = String c (String.append s (String.append t u))).
  by rewrite IH.
Qed.

Lemma chunks_text_app chunks1 chunks2 :
  chunks_text (chunks1 ++ chunks2)
  = String.append (chunks_text chunks1) (chunks_text chunks2).
Proof.
  induction chunks1 as [|c chunks1 IH]; [done|].
  cbn [app chunks_text fold_right]. fold (chunks_text (chunks1 ++ chunks2)).
  fold (chunks_text chunks1). by rewrite IH, append_assoc.
Qed.

Lemma last_grounding_cons c chunks :
  last_grounding (c :: chunks)
  = match last_grounding chunks with
    | Some g => Some g
    | None => chunk_grounding c
    end.
Proof.
  unfold last_grounding.
  change (omap chunk_grounding (c :: chunks))
    with (match chunk_grounding c with
          | Some g => g :: omap chunk_grounding chunks
          | None => omap chunk_grounding chunks
          end).
  destruct (chunk_grounding c) as [g|]; [|by destruct (list.last _)].
  by rewrite last_cons.
Qed.

Lemma receive_all chunks st :
  fold_left receive chunks st
  = {| streamedContent := String.append (streamedContent st) (chunks_text chunks);
       finalGrounding := match last_grounding chunks with
                         | Some g => Some g
                         | None => finalGrounding st
                         end |}.
Proof.
  revert st. induction chunks as [|c chunks IH]; intros st.
  - cbn. rewrite append_empty_r. by destruct st.
  - cbn [fold_left]. rewrite IH, last_grounding_cons.
    cbn [receive streamedContent finalGrounding chunks_text fold_right].
    fold (chunks_text chunks). rewrite append_assoc. f_equal.
    by destruct (last_grounding chunks), (chunk_grounding c).
Qed.

(** X28. What the chat shows for a stream. After the loop of
    [handleSend] has received the chunks [chunks1] and then [chunks2],
    the content of the model message is the texts of all chunks in the
    order received, and its grounding metadata is that of the last chunk
    that carried some (none if no chunk did): a later chunk without
    metadata does not clear it, a later chunk with metadata replaces it.
    In particular the text a failed provider delivered before a fallback
    stays in the message, followed by the fallback's text. *)
Theorem consume_spec chunks1 chunks2 :
  streamedContent (consume (chunks1 ++ chunks2))
    = String.append (chunks_text chunks1) (chunks_text chunks2) ∧
  finalGrounding (consume (chunks1 ++ chunks2))
    = match last_grounding chunks2 with
      | Some g => Some g
      | None => last_grounding chunks1
      end.
Proof.
  unfold consume. rewrite fold_left_app, !receive_all.
  cbn [streamedContent finalGrounding start]. split; [done|].
  by destruct (last_grounding chunks2), (last_grounding chunks1).
Qed.

End ChatAreaFacts.

(** * The further properties at concrete inputs *)

Lemma gemini0_inv : adapter_inv Gemini gemini0.
Proof.
  split_and!; [apply (reachable_wf frozen_clock (inl "g1,g2") [GetNextKey]) | reflexivity |].
  exists "g1". split; [reflexivity|]. by apply (list_elem_of_lookup_2 _ 0).
Qed.

Lemma groq0_inv : adapter_inv Groq groq0.
Proof.
  split_and!; [apply (reachable_wf frozen_clock (inl "q1,q2") [GetNextKey]) | reflexivity |].
  exists "q1". split; [reflexivity|]. by apply (list_elem_of_lookup_2 _ 0).
Qed.

Lemma world0_inv : world_inv world0.
Proof. split; [apply gemini0_inv | apply groq0_inv]. Qed.

(** X11 at a concrete input: Gemini answers a message with an image in
    two chunks. *)
Lemma adapter_success_at_once_witness :
  ∃ this' req,
    adapter_streamMessage frozen_clock net_answering Gemini msg_photo
      [msg_question; msg_answer; msg_photo] DEFAULT_MODEL_CONFIG gemini0 io0
      = (adapter_outputs Gemini two_chunks, Normal tt, this',
         {| Wire.tick := Wire.tick io0; Wire.sent := Wire.sent io0 ++ [req] |}) ∧
    request_key req = adapter_client_key Gemini gemini0 ∧
    adapter_keyRotation Gemini this' = adapter_keyRotation Gemini gemini0 ∧
    adapter_currentKey Gemini this' = adapter_currentKey Gemini gemini0 ∧
    adapter_client_key Gemini this' = adapter_client_key Gemini gemini0.
Proof.
  apply (adapter_success_at_once frozen_clock net_answering Gemini msg_photo
           [msg_question; msg_answer; msg_photo] DEFAULT_MODEL_CONFIG gemini0 io0
           {| Wire.chunks := two_chunks; Wire.failure := None |}).
  - intros req. reflexivity.
  - reflexivity.
Defined.

(** X12 at a concrete input: Groq is cut off with a 429 after one chunk
    and answers the second request. *)
Lemma adapter_retry_uses_rotated_key_witness :
  ∃ kr1 tick1 key kr2 tick2 this' io' req1 req2,
    ApiKeyRotation.markKeyFailed frozen_clock (adapter_currentKey Groq groq0)
      (adapter_keyRotation Groq groq0) (Wire.tick io0) = (Normal tt, kr1, tick1) ∧
    ApiKeyRotation.getNextKey frozen_clock kr1 tick1
      = (Normal (Some key), kr2, tick2) ∧
    adapter_streamMessage frozen_clock net_rate_limited_once Groq msg_question
      [msg_question] DEFAULT_MODEL_CONFIG groq0 io0
      = (adapter_outputs Groq (Wire.chunks (net_rate_limited_once 0 (Wire.GroqCreate None
           (GroqService.body_of msg_question [msg_question] DEFAULT_MODEL_CONFIG))))
         ++ adapter_outputs Groq two_chunks,
         Normal tt, this', io') ∧
    Wire.sent io' = Wire.sent io0 ++ [req1; req2] ∧
    request_key req1 = adapter_client_key Groq groq0 ∧ request_key req2 = Some key ∧
    adapter_keyRotation Groq this' = kr2 ∧ adapter_currentKey Groq this' = Some key ∧
    Wire.tick io' = tick2.
Proof.
  apply (adapter_retry_uses_rotated_key frozen_clock net_rate_limited_once Groq
           msg_question [msg_question] DEFAULT_MODEL_CONFIG groq0 io0
           (net_rate_limited_once 0 (Wire.GroqCreate None
              (GroqService.body_of msg_question [msg_question] DEFAULT_MODEL_CONFIG)))
           {| Wire.chunks := two_chunks; Wire.failure := None |}
           (new_Error "429 Too Many Requests")).
  - apply (reachable_wf frozen_clock (inl "q1,q2") [GetNextKey]).
  - intros req. reflexivity.
  - reflexivity.
  - reflexivity.
  - intros req. reflexivity.
  - reflexivity.
Defined.

(** X13 at a concrete input: OpenRouter, answering in two chunks. *)
Lemma completion_chunks_text_only_witness :
  Forall text_only
    (adapter_streamMessage frozen_clock net_answering OpenRouter msg_question
       [msg_question] DEFAULT_MODEL_CONFIG openrouter0 io0).1.1.1.
Proof.
  apply (completion_chunks_text_only frozen_clock net_answering OpenRouter
           msg_question [msg_question] DEFAULT_MODEL_CONFIG openrouter0 io0).
  discriminate.
Defined.

(** X14 at a concrete input: the default configuration and the same
    without a token limit and a provider, through Gemini. *)
Lemma adapter_ignores_maxTokens_witness :
  adapter_streamMessage frozen_clock net_answering Gemini msg_question
    [msg_question] DEFAULT_MODEL_CONFIG gemini0 io0
  = adapter_streamMessage frozen_clock net_answering Gemini msg_question
      [msg_question] config_no_limit gemini0 io0.
Proof.
  apply (adapter_ignores_maxTokens frozen_clock net_answering Gemini msg_question
           [msg_question] DEFAULT_MODEL_CONFIG config_no_limit gemini0 io0).
  unfold same_request_fields. split_and!; reflexivity.
Defined.

(** X15 at a concrete input: the default configuration and one that asks
    for search and thinking, through Groq. *)
Lemma completion_ignores_search_and_thinking_witness :
  adapter_streamMessage frozen_clock net_answering Groq msg_question
    [msg_question] DEFAULT_MODEL_CONFIG groq0 io0
  = adapter_streamMessage frozen_clock net_answering Groq msg_question
      [msg_question] config_with_search groq0 io0.
Proof.
  apply (completion_ignores_search_and_thinking frozen_clock net_answering Groq
           msg_question [msg_question] DEFAULT_MODEL_CONFIG config_with_search
           groq0 io0).
  - discriminate.
  - unfold same_completion_fields. split_and!; reflexivity.
Defined.

(** X16 at a concrete input: the service as loaded and the service with a
    session left by an earlier call. *)
Lemma Gemini_session_never_reused_witness :
  GeminiService.streamMessage frozen_clock net_answering msg_question
    [msg_question] DEFAULT_MODEL_CONFIG gemini0 io0
  = GeminiService.streamMessage frozen_clock net_answering msg_question
      [msg_question] DEFAULT_MODEL_CONFIG gemini_stale io0.
Proof.
  apply (Gemini_session_never_reused frozen_clock net_answering msg_question
           [msg_question] DEFAULT_MODEL_CONFIG gemini0 gemini_stale io0);
    reflexivity.
Defined.

(** X19 at a concrete input: Groq against an upstream that always answers
    429. *)
Lemma adapter_invariant_preserved_witness :
  let this' := (adapter_streamMessage frozen_clock net_rate_limited Groq
                  msg_question [msg_question] DEFAULT_MODEL_CONFIG groq0 io0).1.2 in
  adapter_inv Groq this' ∧
  ApiKeyRotation.keys (adapter_keyRotation Groq this')
    = ApiKeyRotation.keys (adapter_keyRotation Groq groq0).
Proof.
  apply (adapter_invariant_preserved frozen_clock net_rate_limited Groq
           msg_question [msg_question] DEFAULT_MODEL_CONFIG groq0 io0).
  apply groq0_inv.
Defined.

(** X22 at a concrete input: both providers configured, Gemini answers. *)
Lemma primary_success_no_fallback_witness :
  ∃ w1,
    AIProviderFactory.streamMessageWithFallback frozen_clock net_answering
      msg_question [msg_question] 0 world0
    = (map (AIProviderFactory.tag Types.GEMINI)
         [Types.mkChunk "Hello" None; Types.mkChunk " there" None],
       Normal tt, w1) ∧
    AIProviderFactory.next w1 = AIProviderFactory.next world0 ∧
    AIProviderFactory.heap w1 = AIProviderFactory.heap world0 ∧
    ∃ reqs,
      Wire.sent (AIProviderFactory.io w1)
        = Wire.sent (AIProviderFactory.io world0) ++ reqs ∧
      1 ≤ length reqs ≤ 3 ∧
      Forall (λ r, request_adapter r = provider_adapter Types.GEMINI) reqs.
Proof.
  set (w1 := (AIProviderFactory.service_streamMessage frozen_clock net_answering
                AIProviderFactory.geminiService msg_question [msg_question] 0
                world0).2).
  exists w1.
  apply (primary_success_no_fallback frozen_clock net_answering msg_question
           [msg_question] 0 world0 Types.GEMINI
           [Types.mkChunk "Hello" None; Types.mkChunk " there" None] w1).
  - reflexivity.
  - reflexivity.
  - vm_compute. reflexivity.
Defined.

(** X23 at a concrete input: the configuration names Gemini, only Groq
    has a key. *)
Lemma unavailable_primary_falls_back_witness :
  ∃ w2,
    AIProviderFactory.streamMessageWithFallback frozen_clock net_answering
      msg_question [msg_question] 0 world_groq_only
    = (map (AIProviderFactory.tag Types.GROQ)
         [Types.mkChunk "Hello" None; Types.mkChunk " there" None],
       Normal tt, w2) ∧
    Types.GROQ ≠ primary_of (AIProviderFactory.heap world_groq_only 0) ∧
    Types.model (AIProviderFactory.heap w2 (AIProviderFactory.next world_groq_only))
      = default_model Types.GROQ ∧
    ∃ reqs,
      Wire.sent (AIProviderFactory.io w2)
        = Wire.sent (AIProviderFactory.io world_groq_only) ++ reqs ∧
      Forall (λ r, request_adapter r = provider_adapter Types.GROQ) reqs.
Proof.
  set (w2 := (AIProviderFactory.service_streamMessage frozen_clock net_answering
                AIProviderFactory.groqService msg_question [msg_question]
                (AIProviderFactory.next world_groq_only)
                (AIProviderFactory.assign_model
                   (AIProviderFactory.next world_groq_only)
                   (default_model Types.GROQ)
                   (AIProviderFactory.spread 0 world_groq_only).2)).2).
  exists w2.
  apply (unavailable_primary_falls_back frozen_clock net_answering msg_question
           [msg_question] 0 world_groq_only Types.GROQ
           [Types.mkChunk "Hello" None; Types.mkChunk " there" None] w2).
  - reflexivity.
  - reflexivity.
  - vm_compute. reflexivity.
Defined.

(** X25 at a concrete input: a call that falls back from Gemini to Groq. *)
Lemma fallback_preserves_invariant_witness :
  world_inv
    (AIProviderFactory.streamMessageWithFallback frozen_clock net_gemini_down
       msg_question [msg_question] 0 world0).2.
Proof.
  apply (fallback_preserves_invariant frozen_clock net_gemini_down msg_question
           [msg_question] 0 world0).
  apply world0_inv.
Defined.

(** X26 at a concrete input: the Gemini keys under [API_KEY] only. *)
Lemma gemini_API_KEY_not_enough_witness :
  ∃ w,
    AIProviderFactory.init frozen_clock env_API_KEY_only [DEFAULT_MODEL_CONFIG]
      DEFAULT_MODEL_CONFIG = Normal w ∧
    ApiKeyRotation.keys (GeminiService.keyRotation (AIProviderFactory.gemini w))
      = ApiKeyRotation.keys (ApiKeyRotation.constructor (inl "g1,g2")) ∧
    AIProviderFactory.isProviderAvailable env_API_KEY_only Types.GEMINI = false ∧
    AIProviderFactory.getFirstAvailableProvider env_API_KEY_only
      ≠ Some Types.GEMINI ∧
    Forall (λ r, request_adapter r ≠ Gemini)
      (Wire.sent (AIProviderFactory.io
         (AIProviderFactory.streamMessageWithFallback frozen_clock net_answering
            msg_question [msg_question] 0 w).2)).
Proof.
  apply (gemini_API_KEY_not_enough frozen_clock net_answering env_API_KEY_only
           "g1,g2" [DEFAULT_MODEL_CONFIG] DEFAULT_MODEL_CONFIG msg_question
           [msg_question] 0); reflexivity.
Defined.
